(** * Crowdplex: the aggregation and ranking pipeline

    A shallow embedding of the part of Crowdplex that turns theatre,
    showtime and seat-availability responses into a ranked movie list:

    - the seat counting of the backend's [GET /api/seat-availability]
      handler ([Server]);
    - the two bounded-concurrency batch fetchers of the frontend's API
      service ([Api]);
    - [loadTheatresAndShowtimes] of the frontend's [App] component:
      theatre deduplication, flattening of showtimes, seat enrichment,
      grouping by movie, occupancy metrics and the final sort ([App]).

    Around that pipeline it also covers the backend's in-memory cache
    ([Cache]) and rate limiter ([RateLimiter]), the seat-availability
    route as a whole and the CORS check ([Backend]), the busyness level
    of a movie card ([MovieCard]) and the selection of areas
    ([LocationInput]).

    JavaScript data is modelled as follows.
    - Theatre, session and movie ids are non-negative integers ([N]), as
      the API service documents them ([@param {number} theatreId]); the
      concurrency limit is an integer ([Z]).
    - A start time is a valid date string and is kept as the time value
      that [new Date(...)] gives for it ([Z]); the code compares start
      times in no other way.
    - Integer-valued numbers (counts, sums of counts) are [Z]; they stay
      far below 2^53, where double arithmetic on integers is exact.
    - The two places that produce fractions, [occupied / total * 100] and
      [sum / length], go through [JSNumber.fl], rounding to the nearest
      double (ties to even), before [Math.round] is applied.
    - An optional property ([undefined] when absent) is an [option].
    - An object used as a dictionary is a [gmap]; the one object whose
      enumeration order matters ([movieGroups]) is an insertion-ordered
      association list with JavaScript's own-property order on top.
    - A promise that is awaited is modelled by its settlement
      ([Fulfilled] or [Rejected]); the order in which concurrent fetches
      settle is an explicit schedule. *)

From Stdlib Require Import ZArith QArith Qround Qabs Qpower Lqa Lia Ascii.
From Stdlib Require Floats.SpecFloat.
From stdpp Require Import gmap strings list pretty sorting.

(** ** Part I: definitions *)

(** *** JavaScript numbers *)

Module JSNumber.

Local Open Scope Q_scope.

(** Nearest integer, ties to the even one: the rounding of a significand. *)
Definition rne (y : Q) : Z :=
  let f := Qfloor y in
  match (y - inject_Z f ?= 1 # 2)%Q with
  | Lt => f
  | Gt => (f + 1)%Z
  | Eq => if Z.even f then f else (f + 1)%Z
  end.

(** For [x > 0], the exponent [k] with [2^k <= x < 2^(k+1)]. *)
Definition binade (x : Q) : Z :=
  let k := (Z.log2 (Qnum x) - Z.log2 (Zpos (Qden x)))%Z in
  if Qle_bool (2 ^ k)%Q x then k else (k - 1)%Z.

(** The double nearest to [x > 0]: 53 significant bits, exponent of the
    last bit no smaller than -1074 (subnormal range).  Overflow to
    Infinity is not modelled; every value rounded in this development is
    at most 100 times a ratio of array lengths. *)
Definition fl_pos (x : Q) : Q :=
  let e := Z.max (binade x - 52) (-1074) in
  inject_Z (rne (x / 2 ^ e)) * 2 ^ e.

Definition fl (x : Q) : Q :=
  match Qnum x with
  | Z0 => 0
  | Zpos _ => fl_pos x
  | Zneg _ => - fl_pos (- x)
  end.

(** [a / b] and [a * b] on doubles. *)
Definition Number_div (a b : Q) : Q := fl (a / b).
Definition Number_mul (a b : Q) : Q := fl (a * b).

(** [Math.round]: the nearest integer, ties towards +Infinity; exact on
    a double. *)
Definition Math_round (x : Q) : Z := Qfloor (x + (1 # 2))%Q.

(** Half a unit in the last place, relative: 2^-53. *)
Definition eps : Q := 1 # 9007199254740992.

(** [r] is an integer nearest to the fraction [a / b]. *)
Definition nearest (r a b : Z) : Prop :=
  ((2 * r - 1) * b <= 2 * a <= (2 * r + 1) * b)%Z.

(** The same operations on the binary64 format of the Standard Library's
    specification of IEEE 754 arithmetic, to compare [fl] with. *)
Definition binary64 (z : Z) : SpecFloat.spec_float :=
  SpecFloat.binary_normalize 53 1024 z 0 false.

Definition valueOf (f : SpecFloat.spec_float) : Q :=
  match f with
  | SpecFloat.S754_finite s m e =>
      (if s then - (1) else 1) * inject_Z (Zpos m) * 2 ^ e
  | _ => 0
  end.

Definition percentIEEE (o t : Z) : Z :=
  Math_round
    (valueOf (SpecFloat.SFmul 53 1024
                (SpecFloat.SFdiv 53 1024 (binary64 o) (binary64 t))
                (binary64 100))).

Definition meanIEEE (sum n : Z) : Z :=
  Math_round (valueOf (SpecFloat.SFdiv 53 1024 (binary64 sum) (binary64 n))).

(** All pairs [(o, t)] with [1 <= t <= bound] and [0 <= o <= t]. *)
Definition ratiosUpTo (bound : nat) : list (Z * Z) :=
  flat_map (fun t => map (fun o => (Z.of_nat o, Z.of_nat t)) (seq 0 (S t)))
    (seq 1 bound).

End JSNumber.

(** *** JavaScript arrays *)

Module JSArray.

Section Sort.
Context {A : Type}.
(** A comparator as [Array.prototype.sort] takes it: negative when the
    first argument goes first, positive when the second does. *)
Variable comparefn : A -> A -> Z.

Fixpoint insert (x : A) (l : list A) : list A :=
  match l with
  | [] => [x]
  | y :: l' => if (comparefn x y <=? 0)%Z then x :: l else y :: insert x l'
  end.

(** [Array.prototype.sort] is stable (ECMAScript 2019); for a
    consistent comparator the stable sorted arrangement is unique, and
    this insertion sort computes it. *)
Definition sort (l : list A) : list A := foldr insert [] l.

(** [x] may stand before [y]. *)
Definition before (x y : A) : Prop := (comparefn x y <= 0)%Z.

(** [x] and [y] compare as equal. *)
Definition tied (x y : A) : Prop := before x y /\ before y x.

#[global] Instance tied_dec x y : Decision (tied x y).
Proof. unfold tied, before. apply _. Defined.
End Sort.

(** [arr.reduce(f)] without an initial value; [None] stands for the
    TypeError thrown on an empty array. *)
Definition reduce1 {A} (f : A -> A -> A) (l : list A) : option A :=
  match l with
  | [] => None
  | x :: l' => Some (foldl f x l')
  end.

(** [Array(n)] for an integer [n] that does not exceed the length of an
    existing array: a RangeError ([None]) when [n] is negative, otherwise
    an array of [n] slots. *)
Definition Array_ (n : Z) : option nat :=
  if (n <? 0)%Z then None else Some (Z.to_nat n).

End JSArray.

(** *** Shapes of the exchanged data *)

(** What the backend adds to a seat-availability response, and what the
    frontend reads from it. *)
Module SeatData.
Record t := mk {
  totalSeats : Z;
  occupiedSeats : Z;
  availableSeats : Z;
  occupancyPercentage : Z
}.
#[global] Instance eq_dec : EqDecision t.
Proof. solve_decision. Defined.
End SeatData.

Module Theatre.
Record t := mk {
  theatreId : N;
  name : string
}.
#[global] Instance eq_dec : EqDecision t.
Proof. solve_decision. Defined.
End Theatre.

(** The nested showtimes response: theatre, dates, movies, experiences,
    sessions.  A list that may be missing is an [option]. *)
Module Upstream.
Record Session := mkSession {
  showStartDateTime : Z;      (* time value of [new Date(showStartDateTime)] *)
  seatsRemaining : Z;
  isSoldOut : bool;
  seatMapUrl : string;
  auditorium : string;
  vistaSessionId : N
}.
Record Experience := mkExperience {
  experienceTypes : option (list string);
  sessions : option (list Session)
}.
Record Movie := mkMovie {
  id : N;
  name : string;
  mediumPosterImageUrl : option string;
  smallPosterImageUrl : option string;
  runtimeInMinutes : Z;
  presentationType : string;
  experiences : option (list Experience)
}.
Record DateData := mkDateData {
  movies : option (list Movie)
}.
Record TheatreData := mkTheatreData {
  theatreId : N;
  theatre : string;
  dates : option (list DateData)
}.
End Upstream.

(** A flat session record of [allSessions]; the last four properties exist
    only once the session has been enriched. *)
Module Session.
Record t := mk {
  movieId : N;
  movieName : string;
  posterUrl : option string;
  runtime : Z;
  presentationType : string;
  theatreId : N;
  theatreName : string;
  showStartDateTime : Z;
  seatsRemaining : Z;
  isSoldOut : bool;
  seatMapUrl : string;
  auditorium : string;
  vistaSessionId : N;
  experienceTypes : list string;
  totalSeats : option Z;
  occupiedSeats : option Z;
  availableSeats : option Z;
  occupancyPercentage : option Z
}.
#[global] Instance eq_dec : EqDecision t.
Proof. solve_decision. Defined.
End Session.

(** *** Backend: the seat-availability handler *)

Module Server.

Definition Object_keys {V} (o : gmap string V) : list string := (map_to_list o).*1.
Definition Object_values {V} (o : gmap string V) : list V := (map_to_list o).*2.

(** The upstream seat-availability payload, as far as the handler looks
    at it: a map from seat id to a state tag. *)
Record SeatResponse := mkSeatResponse {
  seatAvailabilities : option (gmap string string)
}.

(** "Calculate totals from seat data". *)
Definition enrichedData (data : SeatResponse) : SeatData.t :=
  let seatAvailabilities := default ∅ (seatAvailabilities data) in
  let totalSeats := Z.of_nat (length (Object_keys seatAvailabilities)) in
  let occupiedSeats :=
    Z.of_nat (length (filter (λ s, s = "Occupied") (Object_values seatAvailabilities))) in
  let availableSeats :=
    Z.of_nat (length (filter (λ s, s = "Available") (Object_values seatAvailabilities))) in
  {| SeatData.totalSeats := totalSeats;
     SeatData.occupiedSeats := occupiedSeats;
     SeatData.availableSeats := availableSeats;
     SeatData.occupancyPercentage :=
       if (0 <? totalSeats)%Z
       then JSNumber.Math_round
              (JSNumber.Number_mul
                 (JSNumber.Number_div (inject_Z occupiedSeats) (inject_Z totalSeats))
                 (inject_Z 100))
       else 0 |}.

(** Notions used in the statements about the snapshot. *)

(** The number of seats of a seat map that carry the tag [tag]. *)
Definition seatsTagged (tag : string) (seats : gmap string string) : nat :=
  size (filter (λ kv : string * string, kv.2 = tag) seats).

(** The number of seats tagged neither 'Occupied' nor 'Available'. *)
Definition seatsOtherwise (seats : gmap string string) : nat :=
  size (filter (λ kv : string * string, kv.2 ≠ "Occupied" ∧ kv.2 ≠ "Available") seats).

(** The snapshot of a response that carries the seat map [seats]. *)
Definition snapshotOf (seats : gmap string string) : SeatData.t :=
  enrichedData (mkSeatResponse (Some seats)).

(** The percentage as the specification words it,
    [round(occupied / total × 100)]: the exact quotient, rounded to the
    nearest integer, a half rounded up. *)
Definition roundedPercentage (occupied total : Z) : Z :=
  JSNumber.Math_round (inject_Z occupied / inject_Z total * inject_Z 100)%Q.

(** The exact percentage lies halfway between two integers. *)
Definition halfway (occupied total : Z) : Prop :=
  ∃ m : Z, (200 * occupied = (2 * m + 1) * total)%Z.

End Server.

(** *** Backend: the cache *)

Module Cache.

Section Cache.
Context {V : Type}.

(** An entry of [this.store]: the cached value and the time value at
    which it expires.  The store is a [Map]; the order in which it is
    iterated is used only to count entries and to collect keys. *)
Record entry := Entry {
  value : V;
  expiresAt : Z
}.

Record stats := Stats {
  totalEntries : nat;
  activeEntries : nat;
  expiredEntries : nat
}.

(** [now > entry.expiresAt]; [now] is what [Date.now()] gives. *)
Definition expired (now : Z) (e : entry) : bool := (expiresAt e <? now)%Z.

(** [set(key, value, ttlMs = 60000)] at the time [now]. *)
Definition set (key : string) (value : V) (ttlMs : option Z) (now : Z)
    (store : gmap string entry) : gmap string entry :=
  let expiresAt := (now + default 60000 ttlMs)%Z in
  <[key := Entry value expiresAt]> store.

(** [get(key)] at the time [now]: the value, or [None] for [null]; an
    expired entry is deleted on the way. *)
Definition get (key : string) (now : Z) (store : gmap string entry)
    : option V * gmap string entry :=
  match store !! key with
  | None => (None, store)
  | Some entry =>
      if expired now entry then (None, base.delete key store)
      else (Some (value entry), store)
  end.

Definition delete (key : string) (store : gmap string entry) : gmap string entry :=
  base.delete key store.

Definition clear (store : gmap string entry) : gmap string entry := ∅.

(** The body of the loop of [getStats], on the two counters. *)
Definition count (now : Z) (counters : nat * nat) (e : entry) : nat * nat :=
  if expired now e then (counters.1, S counters.2) else (S counters.1, counters.2).

Definition getStats (now : Z) (store : gmap string entry) : stats :=
  let counters := foldl (count now) (0, 0)%nat (map_to_list store).*2 in
  Stats (size store) counters.1 counters.2.

(** [cleanup()]: the keys of the expired entries are collected, then
    deleted one by one. *)
Definition keysToDelete (now : Z) (store : gmap string entry) : list string :=
  (filter (λ kv : string * entry, expired now kv.2 = true) (map_to_list store)).*1.

Definition cleanup (now : Z) (store : gmap string entry) : gmap string entry :=
  foldl (λ store key, base.delete key store) store (keysToDelete now store).

(** The entries that a read at the time [now] still serves. *)
Definition live (now : Z) (store : gmap string entry) : gmap string entry :=
  filter (λ kv : string * entry, expired now kv.2 = false) store.

End Cache.

Arguments entry : clear implicits.
Arguments stats : clear implicits.

End Cache.

(** *** Backend: the rate limiter *)

Module RateLimiter.

(** [rateLimitStore]: per client, the time values of the requests that
    were let through. *)
Abbreviation store := (gmap string (list Z)).

(** The options are integers when given. *)
Record options := Options {
  maxRequests : option Z;
  windowMs : option Z
}.

(** What the middleware reads of a request. *)
Record request := Request {
  ip : option string;
  remoteAddress : option string
}.

(** What the middleware does with a request: a 429 response, with
    [X-RateLimit-Remaining] at 0 and [resetTime] in [X-RateLimit-Reset]
    and as [retryAfter] in the body ([None] stands for [Infinity]), or
    the call of [next()] with the two headers set.  The text of the
    message in the body is left out. *)
Inductive response :=
| TooManyRequests (limit : Z) (resetTime : option Z)
| Next (limit : Z) (remaining : Z).

(** [x || d] on an optional number: [undefined] and [0] are falsy. *)
Definition or_number (x : option Z) (d : Z) : Z :=
  match x with
  | Some v => if decide (v = 0%Z) then d else v
  | None => d
  end.

(** A string that is present and not empty. *)
Definition truthy (s : option string) : option string :=
  match s with
  | Some s' => if decide (s' = "") then None else Some s'
  | None => None
  end.

(** [req.ip || req.connection.remoteAddress || 'unknown'] *)
Definition clientIp (req : request) : string :=
  match truthy (ip req) with
  | Some s => s
  | None => default "unknown" (truthy (remoteAddress req))
  end.

(** [Math.min(...l)]; [None] is the [Infinity] of an empty list. *)
Definition Math_min (l : list Z) : option Z :=
  match l with
  | [] => None
  | x :: l' => Some (foldl Z.min x l')
  end.

(** [Math.ceil], exact on a double. *)
Definition Math_ceil (x : Q) : Z := Qceiling x.

(** The callback of [setInterval]: per client the requests of the last
    hour are kept, and a client without any is dropped. *)
Definition cleanup (now : Z) (st : store) : store :=
  let oneHourAgo := (now - 60 * 60 * 1000)%Z in
  omap (λ requests,
          let recentRequests :=
            filter (λ timestamp, (oneHourAgo < timestamp)%Z) requests in
          if decide (length recentRequests = 0%nat) then None else Some recentRequests)
       st.

(** The middleware made by [createRateLimiter(options)], on a request
    that arrives at the time [now]. *)
Definition rateLimiter (options : options) (req : request) (now : Z) (st : store)
    : response * store :=
  let maxRequests := or_number (maxRequests options) 60 in
  let windowMs := or_number (windowMs options) (60 * 1000) in
  let ip := clientIp req in
  let windowStart := (now - windowMs)%Z in
  let requests := default [] (st !! ip) in
  let recentRequests := filter (λ timestamp, (windowStart < timestamp)%Z) requests in
  if (maxRequests <=? Z.of_nat (length recentRequests))%Z
  then
    let oldestRequest := Math_min recentRequests in
    let resetTime :=
      (λ oldest, Math_ceil (JSNumber.Number_div
                              (inject_Z (oldest + windowMs - now)) (inject_Z 1000)))
        <$> oldestRequest in
    (TooManyRequests maxRequests resetTime, st)
  else
    let recentRequests := recentRequests ++ [now] in
    (Next maxRequests (maxRequests - Z.of_nat (length recentRequests)),
     <[ip := recentRequests]> st).

(** **** Notions used in the statements about the limiter *)

(** The limit and the window that the options come to. *)
Definition limit (options : options) : Z := or_number (maxRequests options) 60.
Definition window (options : options) : Z := or_number (windowMs options) (60 * 1000).

(** The requests remembered for the client [ip]. *)
Definition stored (ip : string) (st : store) : list Z := default [] (st !! ip).

(** What happens to the store: a request arrives, or the interval
    callback runs. *)
Inductive event :=
| Arrives (req : request) (now : Z)
| Tick (now : Z).

Definition at_ (e : event) : Z :=
  match e with
  | Arrives _ now => now
  | Tick now => now
  end.

(** One event: the request that was let through, if any, with its
    client and its time, and the store afterwards. *)
Definition step (options : options) (e : event) (st : store)
    : option (string * Z) * store :=
  match e with
  | Tick now => (None, cleanup now st)
  | Arrives req now =>
      match rateLimiter options req now st with
      | (Next _ _, st') => (Some (clientIp req, now), st')
      | (TooManyRequests _ _, st') => (None, st')
      end
  end.

(** A sequence of events: the requests that were let through, in order,
    and the store at the end. *)
Fixpoint run (options : options) (events : list event) (st : store)
    : list (string * Z) * store :=
  match events with
  | [] => ([], st)
  | e :: events' =>
      let (passed, st') := step options e st in
      let (log, st'') := run options events' st' in
      (option_list passed ++ log, st'')
  end.

(** The times at which requests of the client [ip] were let through. *)
Definition passedBy (ip : string) (log : list (string * Z)) : list Z :=
  (filter (λ p : string * Z, p.1 = ip) log).*2.

(** [x] lies in the window of [windowMs] milliseconds that ends at [t]. *)
Definition inWindow (windowMs t x : Z) : Prop := (t - windowMs < x ≤ t)%Z.

#[global] Instance inWindow_dec windowMs t x : Decision (inWindow windowMs t x).
Proof. unfold inWindow. apply _. Defined.

(** No window holds more remembered requests of a client than the limit
    allows. *)
Definition bounded (options : options) (st : store) : Prop :=
  ∀ ip t,
    length (filter (inWindow (window options) t) (stored ip st))
    ≤ Z.to_nat (limit options).

End RateLimiter.

(** *** Backend: the seat-availability route and the CORS check *)

Module Backend.

(** What the awaited [fetch] of the upstream comes to. *)
Inductive fetched :=
| Ok (data : Server.SeatResponse)   (* [response.ok]; [data] is the parsed body *)
| NotOk (status : Z)                (* [response.ok] is false *)
| Throws.                           (* [fetch] or [response.json()] throws *)

(** The JSON bodies of the handler: an error object, or the upstream
    body with the four counts spread over it. *)
Inductive body :=
| ErrorBody (error message : string) (status : option Z)
| SeatBody (data : Server.SeatResponse) (counts : SeatData.t).

Record response := Response {
  status : Z;
  json : body
}.

(** The query of a request; a parameter is a string or absent. *)
Record query := Query {
  theatreId : option string;
  showtimeId : option string
}.

(** The template literal of the cache key. *)
Definition seatsCacheKey (theatreId showtimeId : string) : string :=
  "seats:" +:+ theatreId +:+ ":" +:+ showtimeId.

(** The handler of [GET /api/seat-availability], behind the rate
    limiter.  [now] is the time at which the cache is read, [later] the
    time at which the response of the upstream is stored.  Only this
    handler writes under keys that begin with [seats:], so the cache is
    taken to hold seat bodies. *)
Definition seatAvailability (query : query) (now later : Z) (upstream : fetched)
    (cache : gmap string (Cache.entry body))
    : response * gmap string (Cache.entry body) :=
  match theatreId query, showtimeId query with
  | Some theatreId, Some showtimeId =>
      if decide (theatreId = "" ∨ showtimeId = "")
      then (Response 400
              (ErrorBody "Bad Request" "theatreId and showtimeId are required" None),
            cache)
      else
        let cacheKey := seatsCacheKey theatreId showtimeId in
        match Cache.get cacheKey now cache with
        | (Some cachedData, cache) => (Response 200 cachedData, cache)
        | (None, cache) =>
            match upstream with
            | Throws =>
                (Response 500 (ErrorBody "Internal Server Error"
                                 "Failed to fetch seat availability" None),
                 cache)
            | NotOk status =>
                (Response status
                   (ErrorBody "Upstream API Error"
                      ("Cineplex API returned status " +:+ pretty status) (Some status)),
                 cache)
            | Ok data =>
                let enrichedData := SeatBody data (Server.enrichedData data) in
                (Response 200 enrichedData,
                 Cache.set cacheKey enrichedData (Some (60 * 1000)%Z) later cache)
            end
        end
  | _, _ =>
      (Response 400
         (ErrorBody "Bad Request" "theatreId and showtimeId are required" None),
       cache)
  end.

(** [process.env.FRONTEND_URL || 'http://localhost:5173'] *)
Definition FRONTEND_URL (env : option string) : string :=
  match env with
  | Some url => if decide (url = "") then "http://localhost:5173" else url
  | None => "http://localhost:5173"
  end.

Definition allowedOrigins (env : option string) : list string :=
  ["http://localhost:5173";
   "http://localhost:5174";
   FRONTEND_URL env;
   "https://crowdplex.vercel.app";
   "https://crowdplex-git-main-0xt4nj1r0s-projects.vercel.app"].

(** [s.endsWith(searchString)] *)
Definition endsWith (s searchString : string) : bool :=
  let start := (Z.of_nat (String.length s) - Z.of_nat (String.length searchString))%Z in
  if (start <? 0)%Z then false
  else bool_decide
         (String.substring (Z.to_nat start) (String.length searchString) s = searchString).

(** The [origin] function of [corsOptions]: [true] for
    [callback(null, true)], [false] for the error 'Not allowed by CORS'.
    A request without an [Origin] header has no origin. *)
Definition origin (env : option string) (origin : option string) : bool :=
  match origin with
  | None => true
  | Some origin =>
      if decide (origin = "") then true
      else bool_decide (origin ∈ allowedOrigins env) || endsWith origin ".vercel.app"
  end.

(** **** Notions used in the statements about the routes *)

(** The character [c] does not occur in the string. *)
Fixpoint charFree (c : ascii) (s : string) : bool :=
  match s with
  | EmptyString => true
  | String c' s' => if decide (c' = c) then false else charFree c s'
  end.

End Backend.

(** *** Frontend: the batch fetchers of the API service *)

Module Api.

(** How an awaited fetch ends: [fetchAPI] returns the parsed body, or
    throws an [Error] whose [message] is kept. *)
Inductive settled (V : Type) : Type :=
| Fulfilled (value : V)
| Rejected (message : string).
Arguments Fulfilled {V} value.
Arguments Rejected {V} message.

(** What a call of a batch fetcher comes to under a given schedule. *)
Inductive outcome (R : Type) : Type :=
| Returned (results : list R)
| RangeError           (* thrown by [Array(n)] before any worker starts *)
| Unsettled.           (* the schedule does not run the call to its end *)
Arguments Returned {R} results.
Arguments RangeError {R}.
Arguments Unsettled {R}.

(** [Array(Math.min(concurrency, items.length))]: one slot per worker, or
    a RangeError ([None]). *)
Definition workers (concurrency : Z) (n : nat) : option nat :=
  JSArray.Array_ (Z.min concurrency (Z.of_nat n)).

(** Both fetchers share one shape: a [queue], workers that each run
    [processNext], and a [results] array.  The shape is written once,
    over the two ways a result record is built. *)
Section Runner.
Context {Item Value Result : Type}.
Variable onFulfilled : Item -> Value -> Result.   (* the [try] branch *)
Variable onRejected : Item -> string -> Result.   (* the [catch] branch *)

(** [queue]: items not yet shifted; [inflight]: per live worker, the
    item whose fetch it awaits; [results]: records pushed so far. *)
Record pool := Pool {
  queue : list Item;
  inflight : list Item;
  results : list Result
}.

Definition record (item : Item) (s : settled Value) : Result :=
  match s with
  | Fulfilled v => onFulfilled item v
  | Rejected e => onRejected item e
  end.

(** A fresh worker calls [processNext]: it returns at once on an empty
    queue, otherwise shifts an item and suspends at the [await]. *)
Definition processNext (p : pool) : pool :=
  match queue p with
  | [] => p
  | item :: rest => Pool rest (inflight p ++ [item]) (results p)
  end.

(** The fetch awaited by worker [w] settles: the worker pushes its
    record and calls [processNext] again, which either ends the worker
    (empty queue) or shifts the next item. *)
Definition settle (w : nat) (s : settled Value) (p : pool) : option pool :=
  match inflight p !! w with
  | None => None
  | Some item =>
      let results' := results p ++ [record item s] in
      match queue p with
      | [] => Some (Pool [] (delete w (inflight p)) results')
      | next :: rest => Some (Pool rest (<[w := next]> (inflight p)) results')
      end
  end.

Fixpoint run (events : list (nat * settled Value)) (p : pool) : option pool :=
  match events with
  | [] => Some p
  | (w, s) :: events' =>
      match settle w s p with
      | Some p' => run events' p'
      | None => None
      end
  end.

(** [Array(...).fill(0).map(() => processNext())] *)
Definition start (items : list Item) (concurrency : Z) : option pool :=
  match workers concurrency (length items) with
  | None => None
  | Some w => Some (Nat.iter w processNext (Pool items [] []))
  end.

(** The whole call: [Promise.all(workers)] is fulfilled once no worker
    is left, and [results] is returned. *)
Definition batch (items : list Item) (concurrency : Z)
    (events : list (nat * settled Value)) : outcome Result :=
  match start items concurrency with
  | None => RangeError
  | Some p0 =>
      match run events p0 with
      | Some (Pool _ [] results) => Returned results
      | _ => Unsettled
      end
  end.

(** While items remain queued, some worker is awaiting a fetch. *)
Definition busy (p : pool) : Prop :=
  queue p ≠ [] → inflight p ≠ [].

(** What "one result per item" asks of a call on [items] with limit [K]. *)
Definition oneResultPerItem (items : list Item) (K : Z) : Prop :=
  (* whatever the fetches come to, the call returns *)
  (∀ settlements : list (settled Value),
     length settlements = length items →
     ∃ rs, batch items K ((0%nat,.) <$> settlements) = Returned rs) ∧
  (* under any schedule a run goes on while a fetch is awaited, whatever
     that fetch comes to, and is over after one settlement per item *)
  (∀ events p0 p,
     start items K = Some p0 → run events p0 = Some p →
     length events ≤ length items ∧
     (inflight p ≠ [] → ∀ s, is_Some (settle 0 s p)) ∧
     (inflight p = [] ↔ length events = length items) ∧
     (Z.of_nat (length (inflight p)) ≤ K)%Z) ∧
  (* the call returns one record per item, made from that item and from
     what its own fetch came to *)
  (∀ events rs,
     batch items K events = Returned rs →
     length rs = length items ∧
     ∃ done, done ≡ₚ items ∧ rs = zip_with record done events.*2).

(** What "each item's own result" asks of a call that returns, given by
    [recordOf] what the record of an item and of what its fetch came to
    must be.  The [k]-th event [(w, s)] says that the fetch awaited by
    worker [w] comes to [s]; the item of that fetch is the one that
    worker [w] holds after the first [k] events.  The [k]-th record must
    then be a record of that item and of [s], and the items so recorded
    must be the items of the queue, each once. *)
Definition ownFetchRecorded (recordOf : Item → settled Value → Result → Prop)
    (items : list Item) (K : Z) : Prop :=
  ∀ events rs p0,
    start items K = Some p0 → batch items K events = Returned rs →
    ∃ done,
      done ≡ₚ items ∧ length done = length events ∧ length rs = length events ∧
      ∀ k w s, events !! k = Some (w, s) →
        ∃ p item r,
          run (take k events) p0 = Some p ∧ inflight p !! w = Some item ∧
          done !! k = Some item ∧ rs !! k = Some r ∧ recordOf item s r.
End Runner.

Module ShowtimeResult.
Record t := mk {
  theatre : Theatre.t;
  showtimes : option (list Upstream.TheatreData);
  error : option string;
  success : bool
}.
End ShowtimeResult.

Module SeatResult.
Record t := mk {
  showtimeId : N;
  theatreId : N;
  seatData : option SeatData.t;
  error : option string;
  success : bool
}.
End SeatResult.

(** The records pushed by the [try] and [catch] branches. *)
Definition showtimeFulfilled (theatre : Theatre.t)
    (showtimes : list Upstream.TheatreData) : ShowtimeResult.t :=
  ShowtimeResult.mk theatre (Some showtimes) None true.

Definition showtimeRejected (theatre : Theatre.t) (message : string)
    : ShowtimeResult.t :=
  ShowtimeResult.mk theatre None (Some message) false.

Definition seatFulfilled (showtime : Session.t) (seatData : SeatData.t)
    : SeatResult.t :=
  SeatResult.mk (Session.vistaSessionId showtime) (Session.theatreId showtime)
    (Some seatData) None true.

Definition seatRejected (showtime : Session.t) (message : string) : SeatResult.t :=
  SeatResult.mk (Session.vistaSessionId showtime) (Session.theatreId showtime)
    None (Some message) false.

Definition fetchShowtimesForTheatres
    (theatres : list Theatre.t) (concurrency : Z)
    (events : list (nat * settled (list Upstream.TheatreData)))
    : outcome ShowtimeResult.t :=
  batch showtimeFulfilled showtimeRejected theatres concurrency events.

Definition fetchSeatAvailabilityBatch
    (showtimes : list Session.t) (concurrency : Z)
    (events : list (nat * settled SeatData.t))
    : outcome SeatResult.t :=
  batch seatFulfilled seatRejected showtimes concurrency events.

(** What the record of a theatre must be: it names the theatre and is
    tagged success with the fetched showtimes and no error, or failure
    with the reason and no showtimes. *)
Definition showtimeRecordOf (theatre : Theatre.t)
    (s : settled (list Upstream.TheatreData)) (r : ShowtimeResult.t) : Prop :=
  ShowtimeResult.theatre r = theatre ∧
  match s with
  | Fulfilled showtimes =>
      ShowtimeResult.success r = true ∧
      ShowtimeResult.showtimes r = Some showtimes ∧ ShowtimeResult.error r = None
  | Rejected message =>
      ShowtimeResult.success r = false ∧
      ShowtimeResult.error r = Some message ∧ ShowtimeResult.showtimes r = None
  end.

(** What the record of a session must be: it names the session and its
    theatre and is tagged success with the fetched seat data and no
    error, or failure with the reason and no seat data. *)
Definition seatRecordOf (showtime : Session.t)
    (s : settled SeatData.t) (r : SeatResult.t) : Prop :=
  SeatResult.showtimeId r = Session.vistaSessionId showtime ∧
  SeatResult.theatreId r = Session.theatreId showtime ∧
  match s with
  | Fulfilled seatData =>
      SeatResult.success r = true ∧
      SeatResult.seatData r = Some seatData ∧ SeatResult.error r = None
  | Rejected message =>
      SeatResult.success r = false ∧
      SeatResult.error r = Some message ∧ SeatResult.seatData r = None
  end.

(** [K] clamped to the interval from [lo] to [hi]. *)
Definition clamp (K lo hi : Z) : Z := Z.max lo (Z.min K hi).

End Api.

(** *** Frontend: [loadTheatresAndShowtimes] *)

Module MovieGroup.
Record t := mk {
  movieId : N;
  name : string;
  posterUrl : option string;
  runtime : Z;
  presentationType : string;
  showtimes : list Session.t
}.
#[global] Instance eq_dec : EqDecision t.
Proof. solve_decision. Defined.
End MovieGroup.

Module MovieRanking.
Record t := mk {
  movie : MovieGroup.t;                (* the spread [...movie] *)
  availableCount : nat;
  averageOccupancy : option Z;
  totalSeatsBooked : option Z;
  totalSeatsAvailable : option Z;
  earliestShowtime : Z                 (* time value of the earliest start *)
}.
#[global] Instance eq_dec : EqDecision t.
Proof. solve_decision. Defined.
End MovieRanking.

Module App.

Import Api.

(** **** Step 1: theatres of all selected areas, each id once *)

Record TheatreLookup := mkTheatreLookup {
  nearbyTheatres : option (list Theatre.t)
}.

(** The body of [nearbyTheatres.forEach]: the state is [allTheatres]
    together with [seenTheatreIds]. *)
Definition addTheatre (st : list Theatre.t * gset N) (theatre : Theatre.t)
    : list Theatre.t * gset N :=
  if decide (Theatre.theatreId theatre ∈ st.2) then st
  else (st.1 ++ [theatre], {[Theatre.theatreId theatre]} ∪ st.2).

(** One turn of the loop over [location.locations]; a failed lookup is
    logged and skipped. *)
Definition addArea (st : list Theatre.t * gset N) (lookup : settled TheatreLookup)
    : list Theatre.t * gset N :=
  match lookup with
  | Fulfilled theatreData => foldl addTheatre st (default [] (nearbyTheatres theatreData))
  | Rejected _ => st
  end.

Definition locateTheatres (lookups : list (settled TheatreLookup)) : list Theatre.t :=
  (foldl addArea ([], ∅) lookups).1.

(** **** Step 3: flatten the showtimes into [allSessions] *)

(** [a || b] on two optional strings: the empty string is falsy. *)
Definition or_string (a b : option string) : option string :=
  match a with
  | Some s => if decide (s = "") then b else a
  | None => b
  end.

Definition flatSession (theatreData : Upstream.TheatreData) (movie : Upstream.Movie)
    (experienceTypes : list string) (session : Upstream.Session) : Session.t :=
  {| Session.movieId := Upstream.id movie;
     Session.movieName := Upstream.name movie;
     Session.posterUrl :=
       or_string (Upstream.mediumPosterImageUrl movie) (Upstream.smallPosterImageUrl movie);
     Session.runtime := Upstream.runtimeInMinutes movie;
     Session.presentationType := Upstream.presentationType movie;
     Session.theatreId := Upstream.theatreId theatreData;
     Session.theatreName := Upstream.theatre theatreData;
     Session.showStartDateTime := Upstream.showStartDateTime session;
     Session.seatsRemaining := Upstream.seatsRemaining session;
     Session.isSoldOut :=
       Upstream.isSoldOut session || (Upstream.seatsRemaining session =? 0)%Z;
     Session.seatMapUrl := Upstream.seatMapUrl session;
     Session.auditorium := Upstream.auditorium session;
     Session.vistaSessionId := Upstream.vistaSessionId session;
     Session.experienceTypes := experienceTypes;
     Session.totalSeats := None;
     Session.occupiedSeats := None;
     Session.availableSeats := None;
     Session.occupancyPercentage := None |}.

Definition flattenTheatre (theatreData : Upstream.TheatreData) : list Session.t :=
  dateData ← default [] (Upstream.dates theatreData);
  movie ← default [] (Upstream.movies dateData);
  experience ← default [] (Upstream.experiences movie);
  session ← default [] (Upstream.sessions experience);
  [flatSession theatreData movie
     (default [] (Upstream.experienceTypes experience)) session].

Definition collectSessions (showtimeResults : list ShowtimeResult.t) : list Session.t :=
  result ← showtimeResults;
  match ShowtimeResult.success result, ShowtimeResult.showtimes result with
  | true, Some showtimes => theatreData ← showtimes; flattenTheatre theatreData
  | _, _ => []
  end.

(** **** Step 4: seat availability for the soonest sessions *)

Definition byShowtime (a b : Session.t) : Z :=
  (Session.showStartDateTime a - Session.showStartDateTime b)%Z.

Definition sortedSessions (allSessions : list Session.t) : list Session.t :=
  JSArray.sort byShowtime allSessions.

Definition sessionsToFetch (allSessions : list Session.t) : list Session.t :=
  take 200 (sortedSessions allSessions).

(** The template literal [`${theatreId}-${sessionId}`]. *)
Definition seatKey (theatreId sessionId : N) : string :=
  pretty theatreId +:+ "-" +:+ pretty sessionId.

Definition addSeatData (seatDataMap : gmap string SeatData.t) (result : SeatResult.t)
    : gmap string SeatData.t :=
  match SeatResult.success result, SeatResult.seatData result with
  | true, Some seatData =>
      <[seatKey (SeatResult.theatreId result) (SeatResult.showtimeId result) := seatData]>
        seatDataMap
  | _, _ => seatDataMap
  end.

Definition seatDataMap (seatResults : list SeatResult.t) : gmap string SeatData.t :=
  foldl addSeatData ∅ seatResults.

Definition enrichSession (seatDataMap : gmap string SeatData.t) (session : Session.t)
    : Session.t :=
  match seatDataMap !! seatKey (Session.theatreId session) (Session.vistaSessionId session) with
  | Some seatData =>
      {| Session.movieId := Session.movieId session;
         Session.movieName := Session.movieName session;
         Session.posterUrl := Session.posterUrl session;
         Session.runtime := Session.runtime session;
         Session.presentationType := Session.presentationType session;
         Session.theatreId := Session.theatreId session;
         Session.theatreName := Session.theatreName session;
         Session.showStartDateTime := Session.showStartDateTime session;
         Session.seatsRemaining := Session.seatsRemaining session;
         Session.isSoldOut := Session.isSoldOut session;
         Session.seatMapUrl := Session.seatMapUrl session;
         Session.auditorium := Session.auditorium session;
         Session.vistaSessionId := Session.vistaSessionId session;
         Session.experienceTypes := Session.experienceTypes session;
         Session.totalSeats := Some (SeatData.totalSeats seatData);
         Session.occupiedSeats := Some (SeatData.occupiedSeats seatData);
         Session.availableSeats := Some (SeatData.availableSeats seatData);
         Session.occupancyPercentage := Some (SeatData.occupancyPercentage seatData) |}
  | None => session
  end.

(** [allSessions.forEach] over the original, unsorted list. *)
Definition enrichSessions (seatResults : list SeatResult.t)
    (allSessions : list Session.t) : list Session.t :=
  enrichSession (seatDataMap seatResults) <$> allSessions.

(** **** Step 5: group by movie *)

(** [movieGroups] is kept as the list of its properties in the order in
    which they were created.  Its keys are the decimal strings of movie
    ids, kept here as the ids; a key that is present holds a group
    object, which is truthy. *)
Definition newGroup (session : Session.t) : MovieGroup.t :=
  {| MovieGroup.movieId := Session.movieId session;
     MovieGroup.name := Session.movieName session;
     MovieGroup.posterUrl := Session.posterUrl session;
     MovieGroup.runtime := Session.runtime session;
     MovieGroup.presentationType := Session.presentationType session;
     MovieGroup.showtimes := [] |}.

Definition pushShowtime (session : Session.t) (movie : MovieGroup.t) : MovieGroup.t :=
  {| MovieGroup.movieId := MovieGroup.movieId movie;
     MovieGroup.name := MovieGroup.name movie;
     MovieGroup.posterUrl := MovieGroup.posterUrl movie;
     MovieGroup.runtime := MovieGroup.runtime movie;
     MovieGroup.presentationType := MovieGroup.presentationType movie;
     MovieGroup.showtimes := MovieGroup.showtimes movie ++ [session] |}.

Fixpoint addToGroups (session : Session.t) (movieGroups : list (N * MovieGroup.t))
    : list (N * MovieGroup.t) :=
  match movieGroups with
  | [] => [(Session.movieId session, pushShowtime session (newGroup session))]
  | (key, movie) :: rest =>
      if decide (key = Session.movieId session)
      then (key, pushShowtime session movie) :: rest
      else (key, movie) :: addToGroups session rest
  end.

Definition groupByMovie (allSessions : list Session.t) : list (N * MovieGroup.t) :=
  foldl (λ movieGroups session, addToGroups session movieGroups) [] allSessions.

(** A property key is an array index when it is the canonical decimal
    string of an integer below 2^32 - 1. *)
Definition isArrayIndex (key : N) : bool := (key <? 2 ^ 32 - 1)%N.

Definition byKey {V} (a b : N * V) : Z := (Z.of_N a.1 - Z.of_N b.1)%Z.

(** [Object.values]: own properties with array-index keys come first, in
    ascending numeric order, then the others in creation order. *)
Definition Object_values {V} (o : list (N * V)) : list V :=
  (JSArray.sort byKey (filter (λ kv, isArrayIndex kv.1) o)
     ++ filter (λ kv, ¬ isArrayIndex kv.1) o).*2.

(** **** Step 6: occupancy metrics of a movie *)

Definition availableCount (showtimes : list Session.t) : nat :=
  length (filter (λ s, Session.isSoldOut s = false) showtimes).

(** After each [filter] the property read by [reduce] is present; the
    [default] only gives the projection a type. *)
Definition averageOccupancy (showtimes : list Session.t) : option Z :=
  let sessionsWithSeatData :=
    filter (λ s, Session.occupancyPercentage s ≠ None) showtimes in
  if (0 <? length sessionsWithSeatData)%nat
  then Some (JSNumber.Math_round
               (JSNumber.Number_div
                  (inject_Z (foldl (λ sum s, sum + default 0 (Session.occupancyPercentage s))%Z
                               0%Z sessionsWithSeatData))
                  (inject_Z (Z.of_nat (length sessionsWithSeatData)))))
  else None.

Definition sumSeatsBooked (showtimes : list Session.t) : Z :=
  foldl (λ sum s, sum + default 0 (Session.occupiedSeats s))%Z 0%Z
    (filter (λ s, Session.occupiedSeats s ≠ None) showtimes).

Definition sumSeatsAvailable (showtimes : list Session.t) : Z :=
  foldl (λ sum s, sum + default 0 (Session.totalSeats s))%Z 0%Z
    (filter (λ s, Session.totalSeats s ≠ None) showtimes).

(** [x > 0 ? x : undefined] *)
Definition positiveOrUndefined (x : Z) : option Z :=
  if (0 <? x)%Z then Some x else None.

Definition totalSeatsBooked (showtimes : list Session.t) : option Z :=
  positiveOrUndefined (sumSeatsBooked showtimes).

Definition totalSeatsAvailable (showtimes : list Session.t) : option Z :=
  positiveOrUndefined (sumSeatsAvailable showtimes).

Definition earlier (earliest current : Session.t) : Session.t :=
  if (Session.showStartDateTime current <? Session.showStartDateTime earliest)%Z
  then current else earliest.

Definition earliestShowtime (showtimes : list Session.t) : option Session.t :=
  JSArray.reduce1 earlier showtimes.

Definition rankMovie (movie : MovieGroup.t) : option MovieRanking.t :=
  earliest ← earliestShowtime (MovieGroup.showtimes movie);
  Some {| MovieRanking.movie := movie;
          MovieRanking.availableCount := availableCount (MovieGroup.showtimes movie);
          MovieRanking.averageOccupancy := averageOccupancy (MovieGroup.showtimes movie);
          MovieRanking.totalSeatsBooked := totalSeatsBooked (MovieGroup.showtimes movie);
          MovieRanking.totalSeatsAvailable := totalSeatsAvailable (MovieGroup.showtimes movie);
          MovieRanking.earliestShowtime := Session.showStartDateTime earliest |}.

(** **** Step 7: the ranking *)

Definition compareMovies (a b : MovieRanking.t) : Z :=
  match MovieRanking.averageOccupancy a, MovieRanking.averageOccupancy b with
  | Some _, None => -1
  | None, Some _ => 1
  | Some x, Some y =>
      if decide (x ≠ y) then (y - x)%Z
      else (MovieRanking.earliestShowtime a - MovieRanking.earliestShowtime b)%Z
  | None, None =>
      (MovieRanking.earliestShowtime a - MovieRanking.earliestShowtime b)%Z
  end.

(** The movies before the sort, in [Object.values] order. *)
Definition unsortedMovies (allSessions : list Session.t) : option (list MovieRanking.t) :=
  mapM rankMovie (Object_values (groupByMovie allSessions)).

(** Steps 5 to 7 on the enriched sessions. *)
Definition rankMovies (allSessions : list Session.t) : option (list MovieRanking.t) :=
  rankedMovies ← unsortedMovies allSessions;
  Some (JSArray.sort compareMovies rankedMovies).

(** **** The whole function *)

(** What the component shows when the function is done. *)
Inductive view :=
| Movies (theatres : list Theatre.t) (movies : list MovieRanking.t)
| Error (message : string)
| Loading.

Definition loadTheatresAndShowtimes
    (lookups : list (settled TheatreLookup))
    (showtimeEvents : list (nat * settled (list Upstream.TheatreData)))
    (seatEvents : list (nat * settled SeatData.t)) : view :=
  let allTheatres := locateTheatres lookups in
  if decide (length allTheatres = 0%nat)
  then Error "No theatres found in the selected areas. Try selecting different areas."
  else
    match fetchShowtimesForTheatres allTheatres 5 showtimeEvents with
    | Unsettled => Loading
    | RangeError => Error "Failed to load showtimes: Invalid array length"
    | Returned showtimeResults =>
        let allSessions := collectSessions showtimeResults in
        if decide (length allSessions = 0%nat)
        then Error "No showtimes found for the selected date at nearby theatres."
        else
          match fetchSeatAvailabilityBatch (sessionsToFetch allSessions) 15 seatEvents with
          | Unsettled => Loading
          | RangeError => Error "Failed to load showtimes: Invalid array length"
          | Returned seatResults =>
              match rankMovies (enrichSessions seatResults allSessions) with
              | Some rankedMovies => Movies allTheatres rankedMovies
              | None =>
                  Error "Failed to load showtimes: Reduce of empty array with no initial value"
              end
          end
    end.

(** **** Notions used in the statements about the pipeline *)

(** The ids of a list of theatres, in order. *)
Definition theatreIds (theatres : list Theatre.t) : list N :=
  Theatre.theatreId <$> theatres.

(** The theatres of the lookups that were fulfilled, in the order in which
    the loop meets them. *)
Definition returnedTheatres (lookups : list (settled TheatreLookup)) : list Theatre.t :=
  lookup ← lookups;
  match lookup with
  | Fulfilled theatreData => default [] (nearbyTheatres theatreData)
  | Rejected _ => []
  end.

(** The first theatre of a list that has the id [id]. *)
Fixpoint firstWithId (id : N) (theatres : list Theatre.t) : option Theatre.t :=
  match theatres with
  | [] => None
  | theatre :: rest =>
      if decide (Theatre.theatreId theatre = id) then Some theatre
      else firstWithId id rest
  end.

(** What the loop keeps between two theatres: [seenTheatreIds] holds the
    ids of [allTheatres], and no id is there twice. *)
Definition seenInv (st : list Theatre.t * gset N) : Prop :=
  (∀ id, id ∈ st.2 ↔ id ∈ theatreIds st.1) ∧ NoDup (theatreIds st.1).

(** None of the four occupancy properties is present. *)
Definition notEnriched (session : Session.t) : Prop :=
  Session.totalSeats session = None ∧ Session.occupiedSeats session = None ∧
  Session.availableSeats session = None ∧ Session.occupancyPercentage session = None.

(** All four occupancy properties are present. *)
Definition fullyEnriched (session : Session.t) : Prop :=
  is_Some (Session.totalSeats session) ∧ is_Some (Session.occupiedSeats session) ∧
  is_Some (Session.availableSeats session) ∧
  is_Some (Session.occupancyPercentage session).

(** No hyphen occurs in the string. *)
Fixpoint dashFree (s : string) : bool :=
  match s with
  | EmptyString => true
  | String c s' => if decide (c = "-"%char) then false else dashFree s'
  end.

(** The same session: the same theatre and the same session id. *)
Definition sameSession (a b : Session.t) : Prop :=
  Session.theatreId a = Session.theatreId b ∧
  Session.vistaSessionId a = Session.vistaSessionId b.

(** The pair of ids that the seat lookup goes by. *)
Definition sessionIds (session : Session.t) : N * N :=
  (Session.theatreId session, Session.vistaSessionId session).

(** [a] starts no later than [b]. *)
Definition startsNoLater (a b : Session.t) : Prop :=
  (Session.showStartDateTime a ≤ Session.showStartDateTime b)%Z.

(** The sum of a list of integers. *)
Definition sumZ (l : list Z) : Z := foldr Z.add 0%Z l.

(** The occupancy percentages of the sessions that carry one. *)
Definition occupancyData (showtimes : list Session.t) : list Z :=
  omap Session.occupancyPercentage showtimes.

(** The sessions that carry occupancy data. *)
Definition withOccupancyData (showtimes : list Session.t) : list Session.t :=
  filter (λ s, Session.occupancyPercentage s ≠ None) showtimes.

(** What the comparator of the final sort decides: a movie with an average
    occupancy never follows one without; of two averages the higher goes
    first; equal averages, or none on both sides, leave it to the earliest
    start. *)
Definition ranksBefore (a b : MovieRanking.t) : Prop :=
  (MovieRanking.averageOccupancy a = None → MovieRanking.averageOccupancy b = None) ∧
  (∀ x y, MovieRanking.averageOccupancy a = Some x →
          MovieRanking.averageOccupancy b = Some y → (y ≤ x)%Z) ∧
  (MovieRanking.averageOccupancy a = MovieRanking.averageOccupancy b →
   (MovieRanking.earliestShowtime a ≤ MovieRanking.earliestShowtime b)%Z).

(** Two movies the comparator cannot tell apart. *)
Definition sameRank (a b : MovieRanking.t) : Prop :=
  MovieRanking.averageOccupancy b = MovieRanking.averageOccupancy a ∧
  MovieRanking.earliestShowtime b = MovieRanking.earliestShowtime a.

#[global] Instance sameRank_dec a b : Decision (sameRank a b).
Proof. unfold sameRank. apply _. Defined.

(** The movies in the order in which their groups were formed. *)
Definition moviesAsFormed (allSessions : list Session.t) : option (list MovieRanking.t) :=
  mapM rankMovie (groupByMovie allSessions).*2.

(** The order of [Object.values]: first the properties whose key is an
    array index, by ascending key, then the others as they were created. *)
Definition objectValuesOrder {V} (o : list (N * V)) (values : list V) : Prop :=
  ∃ indexed named,
    values = indexed.*2 ++ named.*2 ∧
    indexed ≡ₚ filter (λ kv, isArrayIndex kv.1) o ∧
    StronglySorted (λ a b, (a.1 < b.1)%N) indexed ∧
    named = filter (λ kv, ¬ isArrayIndex kv.1) o.

(** What holds of [movieGroups] throughout: no key twice, every group
    under the key of its movie, and no group without a session. *)
Definition groupsInv (movieGroups : list (N * MovieGroup.t)) : Prop :=
  NoDup movieGroups.*1 ∧
  Forall (λ kg, kg.1 = MovieGroup.movieId kg.2 ∧ MovieGroup.showtimes kg.2 ≠ [])
    movieGroups.

(** A ranked movie carries the metrics of its group, and its earliest
    showtime is the least start time of the sessions of the group. *)
Definition metricsOf (m : MovieRanking.t) : Prop :=
  let showtimes := MovieGroup.showtimes (MovieRanking.movie m) in
  MovieRanking.availableCount m = availableCount showtimes ∧
  MovieRanking.averageOccupancy m = averageOccupancy showtimes ∧
  MovieRanking.totalSeatsBooked m = totalSeatsBooked showtimes ∧
  MovieRanking.totalSeatsAvailable m = totalSeatsAvailable showtimes ∧
  (∃ s, s ∈ showtimes ∧ Session.showStartDateTime s = MovieRanking.earliestShowtime m) ∧
  (∀ s, s ∈ showtimes → (MovieRanking.earliestShowtime m ≤ Session.showStartDateTime s)%Z).

(** **** Further notions, used in the statements about the steps *)

(** [setProgress({ stage: 'seats', current: 0, total: Math.min(allSessions.length, 200) })] *)
Definition seatsProgressTotal (allSessions : list Session.t) : Z :=
  Z.min (Z.of_nat (length allSessions)) 200.

(** The sessions of the movie [movieId], in the order of the list. *)
Definition sessionsOf (movieId : N) (allSessions : list Session.t) : list Session.t :=
  filter (λ s, Session.movieId s = movieId) allSessions.

(** The group that a non-empty list of sessions makes: the movie as its
    first session describes it, with all the sessions. *)
Definition groupFrom (sessions : list Session.t) : option MovieGroup.t :=
  match sessions with
  | [] => None
  | first :: _ =>
      Some {| MovieGroup.movieId := Session.movieId first;
              MovieGroup.name := Session.movieName first;
              MovieGroup.posterUrl := Session.posterUrl first;
              MovieGroup.runtime := Session.runtime first;
              MovieGroup.presentationType := Session.presentationType first;
              MovieGroup.showtimes := sessions |}
  end.

(** [movieGroups[key]] *)
Fixpoint groupOf (key : N) (movieGroups : list (N * MovieGroup.t)) : option MovieGroup.t :=
  match movieGroups with
  | [] => None
  | (key', movie) :: rest => if decide (key' = key) then Some movie else groupOf key rest
  end.

(** The seat data of a result, if it is a successful one for the given
    theatre and session. *)
Definition seatDataFor (theatreId sessionId : N) (result : SeatResult.t)
    : option SeatData.t :=
  if decide (SeatResult.success result = true ∧
             SeatResult.theatreId result = theatreId ∧
             SeatResult.showtimeId result = sessionId)
  then SeatResult.seatData result else None.

(** The seat data of the last successful result for the given theatre
    and session. *)
Definition lastSeatData (theatreId sessionId : N) (seatResults : list SeatResult.t)
    : option SeatData.t :=
  last (omap (seatDataFor theatreId sessionId) seatResults).

(** The two sessions agree on everything but the occupancy properties. *)
Definition sameListing (a b : Session.t) : Prop :=
  Session.movieId a = Session.movieId b ∧
  Session.movieName a = Session.movieName b ∧
  Session.posterUrl a = Session.posterUrl b ∧
  Session.runtime a = Session.runtime b ∧
  Session.presentationType a = Session.presentationType b ∧
  Session.theatreId a = Session.theatreId b ∧
  Session.theatreName a = Session.theatreName b ∧
  Session.showStartDateTime a = Session.showStartDateTime b ∧
  Session.seatsRemaining a = Session.seatsRemaining b ∧
  Session.isSoldOut a = Session.isSoldOut b ∧
  Session.seatMapUrl a = Session.seatMapUrl b ∧
  Session.auditorium a = Session.auditorium b ∧
  Session.vistaSessionId a = Session.vistaSessionId b ∧
  Session.experienceTypes a = Session.experienceTypes b.

(** The four occupancy properties are those of [seatData]. *)
Definition occupancyFrom (seatData : SeatData.t) (session : Session.t) : Prop :=
  Session.totalSeats session = Some (SeatData.totalSeats seatData) ∧
  Session.occupiedSeats session = Some (SeatData.occupiedSeats seatData) ∧
  Session.availableSeats session = Some (SeatData.availableSeats seatData) ∧
  Session.occupancyPercentage session = Some (SeatData.occupancyPercentage seatData).

(** The id under which a ranked movie is shown. *)
Definition rankedId (m : MovieRanking.t) : N := MovieGroup.movieId (MovieRanking.movie m).

End App.

(** *** Frontend: the movie card *)

Module MovieCard.

(** The four levels of [getBusynessLevel], named by their labels. *)
Inductive busyness := SuperHot | Trending | Popular | PlentyOfSeats.

Definition class (b : busyness) : string :=
  match b with
  | SuperHot => "sold-out"
  | Trending => "very-busy"
  | Popular => "moderate"
  | PlentyOfSeats => "available"
  end.

Definition color (b : busyness) : string :=
  match b with
  | SuperHot => "#ef4444"
  | Trending => "#f59e0b"
  | Popular => "#3b82f6"
  | PlentyOfSeats => "#10b981"
  end.

(** [movie.averageOccupancy || 0], then the three thresholds. *)
Definition getBusynessLevel (movie : MovieRanking.t) : busyness :=
  let occupancy := default 0%Z (MovieRanking.averageOccupancy movie) in
  if (90 <=? occupancy)%Z then SuperHot
  else if (70 <=? occupancy)%Z then Trending
  else if (40 <=? occupancy)%Z then Popular
  else PlentyOfSeats.

(** How busy a level is, from 0 for [PlentyOfSeats] to 3 for [SuperHot]. *)
Definition heat (b : busyness) : nat :=
  match b with
  | SuperHot => 3
  | Trending => 2
  | Popular => 1
  | PlentyOfSeats => 0
  end.

End MovieCard.

(** *** Frontend: the selection of areas *)

Module LocationInput.

Record area := Area {
  name : string;
  latitude : Q;
  longitude : Q;
  radius : Z
}.

(** The updater that [toggleArea(area)] passes to [setSelectedAreas]. *)
Definition toggleArea (area : area) (prev : list LocationInput.area)
    : list LocationInput.area :=
  match list_find (λ a, name a = name area) prev with
  | Some _ => filter (λ a, name a ≠ name area) prev
  | None => prev ++ [area]
  end.

(** What [handleSubmit] does: an error message, or the call of
    [onLocationSet] with the mode and the locations. *)
Inductive submitted :=
| SetError (message : string)
| LocationSet (mode : string) (locations : list area).

Definition handleSubmit (selectedAreas : list area) : submitted :=
  if decide (length selectedAreas = 0%nat) then SetError "Please select at least one area"
  else LocationSet "multi"
         ((λ area, Area (name area) (latitude area) (longitude area) (radius area))
            <$> selectedAreas).

(** **** Notions used in the statements about the selection *)

(** The selection after the areas of [clicks] were clicked one after
    the other, starting with none selected. *)
Definition selectedAfter (clicks : list area) : list area :=
  foldl (λ prev area, toggleArea area prev) [] clicks.

(** How often an area of the given name was clicked. *)
Definition clicksOn (n : string) (clicks : list area) : nat :=
  length (filter (λ a, name a = n) clicks).

End LocationInput.

(** *** Data of the scenarios *)

Module Scenario.

Import Api App.

(** A theatre and a session, not yet enriched, with the given ids and
    start time. *)
Definition exampleTheatre (theatreId : N) : Theatre.t :=
  Theatre.mk theatreId "X".

Definition exampleSession (movieId theatreId sessionId : N) (start : Z) : Session.t :=
  {| Session.movieId := movieId;
     Session.movieName := "";
     Session.posterUrl := None;
     Session.runtime := 120;
     Session.presentationType := "";
     Session.theatreId := theatreId;
     Session.theatreName := "";
     Session.showStartDateTime := start;
     Session.seatsRemaining := 10;
     Session.isSoldOut := false;
     Session.seatMapUrl := "";
     Session.auditorium := "";
     Session.vistaSessionId := sessionId;
     Session.experienceTypes := [];
     Session.totalSeats := None;
     Session.occupiedSeats := None;
     Session.availableSeats := None;
     Session.occupancyPercentage := None |}.

(** The seat map of the specification's scenario. *)
Definition scenarioSeats : gmap string string :=
  <["A1" := "Occupied"]> (<["A2" := "Available"]>
    (<["A3" := "Occupied"]> (<["A4" := "Available"]> ∅))).

(** A hall of 40 seats, named by the numbers from 0 to 39, of which the
    first 23 are occupied: 57.5 percent. *)
Definition seats23of40 : gmap string string :=
  list_to_map ((λ i : nat, (pretty i, if (i <? 23)%nat then "Occupied" else "Available"))
                 <$> seq 0 40).

(** The scenario of the specification: 250 sessions, the latest first in
    the flat list, and every seat fetch fulfilled. *)
Definition scenarioShowtimes (n : nat) : list ShowtimeResult.t :=
  [showtimeFulfilled (Theatre.mk 100 "X")
     [Upstream.mkTheatreData 100 "X"
        (Some [Upstream.mkDateData
                 (Some [Upstream.mkMovie 1 "A" None None 120 ""
                          (Some [Upstream.mkExperience None
                                   (Some ((λ i, Upstream.mkSession
                                                  (Z.of_nat n - Z.of_nat i) 10 false
                                                  "" "" (N.of_nat i))
                                            <$> seq 0 n))])])])]].

(** 200 seat fetches, each fulfilled when it is the first one awaited. *)
Definition scenarioSeatEvents : list (nat * settled SeatData.t) :=
  replicate 200 (0%nat, Fulfilled (SeatData.mk 100 50 50 50)).

(** What the seat batch returns in that scenario. *)
Definition scenarioSeatResults : list SeatResult.t :=
  match fetchSeatAvailabilityBatch
          (sessionsToFetch (collectSessions (scenarioShowtimes 250))) 15
          scenarioSeatEvents with
  | Returned seatResults => seatResults
  | _ => []
  end.

(** A session with seat data merged in. *)
Definition withSeats (seatData : SeatData.t) (session : Session.t) : Session.t :=
  enrichSession
    {[ seatKey (Session.theatreId session) (Session.vistaSessionId session) := seatData ]}
    session.

(** The scenario of the specification: movie A has one session at 80
    percent and one without occupancy data, movie B one session at 60
    percent. *)
Definition scenarioMovieA : list Session.t :=
  [withSeats (SeatData.mk 100 80 20 80) (exampleSession 1 100 1 10);
   exampleSession 1 100 2 20].

Definition scenarioMovieB : list Session.t :=
  [withSeats (SeatData.mk 100 60 40 60) (exampleSession 2 100 3 5)].

(** One session listed under two experiences of a movie, after 199 other
    sessions of the first experience; all start at the same time. *)
Definition duplicateShowtimes : list ShowtimeResult.t :=
  [showtimeFulfilled (Theatre.mk 100 "X")
     [Upstream.mkTheatreData 100 "X"
        (Some [Upstream.mkDateData
                 (Some [Upstream.mkMovie 1 "A" None None 120 ""
                          (Some [Upstream.mkExperience (Some ["IMAX"])
                                   (Some ((λ i, Upstream.mkSession 0 10 false
                                                  "" "" (N.of_nat i))
                                            <$> seq 1 200));
                                 Upstream.mkExperience (Some ["3D"])
                                   (Some [Upstream.mkSession 0 10 false
                                            "" "" 1])])])])]].

(** What the seat batch returns for them. *)
Definition duplicateSeatResults : list SeatResult.t :=
  match fetchSeatAvailabilityBatch
          (sessionsToFetch (collectSessions duplicateShowtimes)) 15
          scenarioSeatEvents with
  | Returned seatResults => seatResults
  | _ => []
  end.

End Scenario.

(** ** Part II: properties *)

(** *** Rounding to a double and [Math.round] *)

Module JSNumberFacts.

Import JSNumber.
Local Open Scope Q_scope.

Lemma rne_half y : Qabs (inject_Z (rne y) - y) <= 1 # 2.
Proof.
  unfold rne.
  pose proof (Qfloor_le y) as Hlo. pose proof (Qlt_floor y) as Hhi.
  rewrite inject_Z_plus in Hhi. change (inject_Z 1) with 1 in Hhi.
  destruct (y - inject_Z (Qfloor y) ?= 1 # 2) eqn:E;
    [ apply Qeq_alt in E; destruct (Z.even (Qfloor y))
    | apply Qlt_alt in E | apply Qgt_alt in E ];
    rewrite ?inject_Z_plus; change (inject_Z 1) with 1;
    generalize dependent (inject_Z (Qfloor y)); intros f **;
    apply Qabs_case; intros; lra.
Qed.

Lemma pow2_pos e : 0 < 2 ^ e.
Proof. apply Qpower_0_lt. lra. Qed.

Lemma inject_Z_pos z : (0 < z)%Z -> 0 < inject_Z z.
Proof. intros. change 0 with (inject_Z 0). now rewrite <- Zlt_Qlt. Qed.

(** The exponent chosen for [x] is not above [x]. *)
Lemma binade_le x : 0 < x -> 2 ^ binade x <= x.
Proof.
  intros Hx. unfold binade.
  destruct (Qle_bool _ x) eqn:E; [now apply Qle_bool_iff in E |].
  clear E. destruct x as [n d]. cbn [Qnum Qden].
  assert (Hn : (0 < n)%Z) by (unfold Qlt in Hx; simpl in Hx; lia).
  pose proof (Z.log2_spec n Hn) as [Hl _].
  pose proof (Z.log2_spec (Zpos d) eq_refl) as [_ Hu].
  pose proof (Z.log2_nonneg n). pose proof (Z.log2_nonneg (Zpos d)).
  replace (Z.log2 n - Z.log2 (Z.pos d) - 1)%Z
    with (Z.log2 n - Z.succ (Z.log2 (Z.pos d)))%Z by lia.
  rewrite Qpower_minus by lra.
  rewrite <- !(Zpower_Qpower 2) by lia.
  set (a := (2 ^ Z.log2 n)%Z) in *.
  set (b := (2 ^ Z.succ (Z.log2 (Z.pos d)))%Z) in *.
  assert (0 < b)%Z by lia.
  apply Qle_shift_div_r; [now apply inject_Z_pos |].
  unfold Qle, Qmult, inject_Z; simpl. rewrite !Z.mul_1_r. nia.
Qed.

(** Rounding a number of the normal range to a double moves it by at
    most the fraction 2^-53 of itself. *)
Lemma fl_pos_error x :
  0 < x -> 2 ^ (-1022) <= x -> Qabs (fl_pos x - x) <= x * 2 ^ (-53).
Proof.
  intros Hx Hn. unfold fl_pos.
  set (e := Z.max (binade x - 52) (-1074)).
  pose proof (pow2_pos e) as He.
  assert (Hulp : 2 ^ e * (1 # 2) <= x * 2 ^ (-53)).
  { pose proof (pow2_pos (-53)).
    destruct (Z.max_spec (binade x - 52) (-1074)) as [[_ E]|[_ E]];
      fold e in E; rewrite E.
    - change (-1074)%Z with (-1022 + -53 + 1)%Z. rewrite !Qpower_plus by lra.
      change (2 ^ 1) with 2. nra.
    - replace (binade x - 52)%Z with (binade x + -53 + 1)%Z by lia.
      rewrite !Qpower_plus by lra. change (2 ^ 1) with 2.
      pose proof (binade_le x Hx). nra. }
  pose proof (rne_half (x / 2 ^ e)) as Hr.
  set (m := inject_Z (rne (x / 2 ^ e))) in *.
  assert (Hy : x == (x / 2 ^ e) * 2 ^ e) by (field; lra).
  set (y := x / 2 ^ e) in *.
  revert Hr. apply Qabs_case; intros ? Hr; apply Qabs_case; intros; nra.
Qed.

Lemma fl_zero x : x == 0 -> fl x = 0.
Proof.
  intros H. unfold fl. destruct x as [n d]. unfold Qeq in H; simpl in *.
  assert (n = 0%Z) as -> by lia. reflexivity.
Qed.

Lemma fl_error x :
  0 < x -> 2 ^ (-1022) <= x -> Qabs (fl x - x) <= x * eps.
Proof.
  intros Hx Hn.
  assert (fl x = fl_pos x) as ->.
  { unfold fl. destruct x as [n d]. unfold Qlt in Hx; simpl in *.
    destruct n; try lia. reflexivity. }
  assert (E : eps == 2 ^ (-53)) by reflexivity.
  rewrite E. now apply fl_pos_error.
Qed.

(** A ratio of a positive integer and an array length is in the normal
    range. *)
Lemma ratio_normal (a b : Z) :
  (0 < a)%Z -> (0 < b < 2 ^ 53)%Z ->
  0 < inject_Z a / inject_Z b /\ 2 ^ (-1022) <= inject_Z a / inject_Z b.
Proof.
  intros Ha Hb.
  pose proof (inject_Z_pos b (proj1 Hb)) as HbQ.
  assert (Hinv : 2 ^ (-1022) <= 1 / inject_Z b).
  { assert (inject_Z b <= inject_Z (2 ^ 53)) by (rewrite <- Zle_Qle; lia).
    apply Qle_shift_div_l; [assumption|].
    assert (E : 2 ^ (-1022) * inject_Z (2 ^ 53) <= 1) by (vm_compute; discriminate).
    pose proof (pow2_pos (-1022)). set (c := 2 ^ (-1022)) in *. nra. }
  assert (1 <= inject_Z a) by (change 1 with (inject_Z 1); rewrite <- Zle_Qle; lia).
  pose proof (pow2_pos (-1022)). set (c := 2 ^ (-1022)) in *.
  assert (E : inject_Z a / inject_Z b == inject_Z a * (1 / inject_Z b)) by (field; lra).
  assert (0 < 1 / inject_Z b) by lra.
  rewrite E. split; nra.
Qed.

Lemma Math_round_near (p q d : Q) :
  Qabs (p - q) <= d ->
  inject_Z (Math_round p) - (1 # 2) - d <= q /\
  q < inject_Z (Math_round p) + (1 # 2) + d.
Proof.
  unfold Math_round. intros H.
  pose proof (Qfloor_le (p + (1 # 2))) as Hlo.
  pose proof (Qlt_floor (p + (1 # 2))) as Hhi.
  rewrite inject_Z_plus in Hhi. change (inject_Z 1) with 1 in Hhi.
  generalize dependent (inject_Z (Qfloor (p + (1 # 2)))). intros r **.
  revert H. apply Qabs_case; intros; lra.
Qed.

(** Bounds on [a / b] that are off by less than [1 / (2 b)] pin down a
    nearest integer. *)
Lemma nearest_of_bounds (r a b : Z) (d : Q) :
  (0 < b)%Z ->
  inject_Z r - (1 # 2) - d <= inject_Z a / inject_Z b ->
  inject_Z a / inject_Z b < inject_Z r + (1 # 2) + d ->
  2 * inject_Z b * d < 1 ->
  nearest r a b.
Proof.
  intros Hb Hlo Hhi Hd.
  pose proof (inject_Z_pos b Hb) as HbQ.
  assert (E : inject_Z a == inject_Z a / inject_Z b * inject_Z b) by (field; lra).
  set (x := inject_Z a / inject_Z b) in *.
  assert (L : inject_Z ((2 * r - 1) * b - 1) < inject_Z (2 * a)).
  { unfold Z.sub.
    rewrite inject_Z_plus, !inject_Z_mult, inject_Z_plus, inject_Z_mult.
    change (inject_Z 2) with 2. change (inject_Z (- (1))) with (- (1)). nra. }
  assert (U : inject_Z (2 * a) < inject_Z ((2 * r + 1) * b + 1)).
  { rewrite inject_Z_plus, !inject_Z_mult, inject_Z_plus, inject_Z_mult.
    change (inject_Z 2) with 2. change (inject_Z 1) with 1. nra. }
  rewrite <- Zlt_Qlt in L, U. unfold nearest. lia.
Qed.

(** [Math.round(S / n)] is an integer nearest to the exact mean. *)
Lemma mean_round (S n : Z) :
  (0 <= S < 2 ^ 52)%Z -> (0 < n < 2 ^ 53)%Z ->
  nearest (Math_round (Number_div (inject_Z S) (inject_Z n))) S n.
Proof.
  intros HS Hn. unfold Number_div.
  destruct (Z.eq_dec S 0%Z) as [-> | HS0].
  - rewrite fl_zero by (unfold Qeq; simpl; lia).
    change (Math_round 0) with 0%Z. unfold nearest. lia.
  - destruct (ratio_normal S n) as [Hpos Hnorm]; [lia | lia |].
    pose proof (fl_error _ Hpos Hnorm) as He.
    apply Math_round_near in He. destruct He as [Hlo Hhi].
    apply (nearest_of_bounds _ _ _ _ (proj1 Hn) Hlo Hhi).
    pose proof (inject_Z_pos n (proj1 Hn)) as HnQ.
    assert (E : 2 * inject_Z n * (inject_Z S / inject_Z n * eps)
                == 2 * inject_Z S * eps) by (field; lra).
    rewrite E.
    assert (inject_Z S <= inject_Z (2 ^ 52 - 1)) by (rewrite <- Zle_Qle; lia).
    assert (2 * inject_Z (2 ^ 52 - 1) * eps < 1) by (vm_compute; reflexivity).
    unfold eps in *. nra.
Qed.

(** [Math.round((o / t) * 100)] is an integer nearest to the exact
    percentage, although two roundings to a double precede it. *)
Lemma percent_round (o t : Z) :
  (0 <= o <= t)%Z -> (0 < t < 2 ^ 32)%Z ->
  nearest
    (Math_round (Number_mul (Number_div (inject_Z o) (inject_Z t)) (inject_Z 100)))
    (100 * o) t.
Proof.
  intros Ho Ht. unfold Number_mul, Number_div. change (inject_Z 100) with 100.
  destruct (Z.eq_dec o 0%Z) as [-> | Ho0].
  - rewrite (fl_zero (inject_Z 0 / inject_Z t)) by (unfold Qeq; simpl; lia).
    change (Math_round (fl (0 * 100))) with 0%Z. unfold nearest. lia.
  - destruct (ratio_normal o t) as [Hpos Hnorm]; [lia | lia |].
    pose proof (fl_error _ Hpos Hnorm) as He1.
    pose proof (inject_Z_pos t (proj1 Ht)) as HtQ.
    assert (Hle1 : inject_Z o / inject_Z t <= 1).
    { apply Qle_shift_div_r; [assumption|]. rewrite Qmult_1_l, <- Zle_Qle. lia. }
    set (x := inject_Z o / inject_Z t) in *.
    set (d := fl x) in *.
    assert (Hd : x * (1 - eps) <= d /\ d <= x * (1 + eps)).
    { revert He1. apply Qabs_case; intros; split; lra. }
    assert (Heps : 0 < eps /\ eps <= 1 # 2)
      by (split; [reflexivity | vm_compute; discriminate]).
    assert (Hdpos : 0 < d * 100) by nra.
    assert (Hdnorm : 2 ^ (-1022) <= d * 100).
    { pose proof (pow2_pos (-1022)). set (c := 2 ^ (-1022)) in *. nra. }
    pose proof (fl_error _ Hdpos Hdnorm) as He2.
    set (p := fl (d * 100)) in *.
    assert (Hpq : Qabs (p - inject_Z (100 * o) / inject_Z t) <= 300 * eps).
    { assert (E : inject_Z (100 * o) / inject_Z t == 100 * x).
      { unfold x. rewrite inject_Z_mult. change (inject_Z 100) with 100. field. lra. }
      rewrite E. revert He2.
      apply Qabs_case; intros ? He2; apply Qabs_case; intros; nra. }
    apply Math_round_near in Hpq. destruct Hpq as [Hlo Hhi].
    apply (nearest_of_bounds _ _ _ _ (proj1 Ht) Hlo Hhi).
    assert (inject_Z t <= inject_Z (2 ^ 32)) by (rewrite <- Zle_Qle; lia).
    assert (2 * inject_Z (2 ^ 32) * (300 * eps) < 1) by (vm_compute; reflexivity).
    unfold eps in *. nra.
Qed.

(** On every ratio of counts up to 64 seats the percentage and the mean
    computed through [fl] are those computed by the Standard Library's
    IEEE 754 division and multiplication. *)
Example fl_agrees_with_IEEE :
  forallb (fun '(o, t) =>
             Z.eqb (Math_round (Number_mul (Number_div (inject_Z o) (inject_Z t))
                                  (inject_Z 100)))
                   (percentIEEE o t)
             && Z.eqb (Math_round (Number_div (inject_Z (100 * o)) (inject_Z t)))
                      (meanIEEE (100 * o) t))
    (ratiosUpTo 64) = true.
Proof. vm_compute. reflexivity. Qed.

(** The two roundings show at exact halves: 23 seats out of 40 are
    57.5 percent, the product of the doubles is just below, and the
    result is 57; 1 out of 8 gives 12.5 exactly and 13. *)
Example percent_23_of_40 :
  Math_round (Number_mul (Number_div 23 40) 100) = 57%Z /\
  Math_round (Number_mul (Number_div 1 8) 100) = 13%Z.
Proof. split; vm_compute; reflexivity. Qed.

End JSNumberFacts.

(** *** The seat snapshot *)

Module ServerFacts.

Import Server Scenario.

Section Counting.
Context (P : string → Prop) `{!∀ s, Decision (P s)}.

Lemma length_filter_values (l : list (string * string)) :
  length (filter P l.*2) = length (filter (λ kv : string * string, P kv.2) l).
Proof.
  induction l as [|[k v] l IH]; [done|].
  rewrite fmap_cons, !filter_cons. cbn [snd].
  destruct (decide (P v)); cbn [length]; lia.
Qed.

Lemma NoDup_fst_filter (Q : string * string → Prop) `{!∀ kv, Decision (Q kv)}
    (l : list (string * string)) :
  NoDup l.*1 → NoDup (filter Q l).*1.
Proof.
  induction l as [|[k v] l IH]; [done|]. rewrite fmap_cons, NoDup_cons.
  intros [Hk Hl]. rewrite filter_cons. destruct (decide (Q (k, v))); [|by auto].
  rewrite fmap_cons. apply NoDup_cons. split; [|by auto]. cbn [fst] in *.
  intros Hin. apply Hk. apply list_elem_of_fmap in Hin as [[k' v'] [-> Hin]].
  apply list_elem_of_filter in Hin as [_ Hin].
  apply list_elem_of_fmap. by exists (k', v').
Qed.

(** Counting the values that satisfy [P] counts the seats whose tag
    does. *)
Lemma count_values (seats : gmap string string) :
  length (filter P (Object_values seats))
  = size (filter (λ kv : string * string, P kv.2) seats).
Proof.
  unfold Object_values. rewrite length_filter_values, map_filter_alt.
  rewrite map_size_list_to_map; [done|].
  apply NoDup_fst_filter, NoDup_fst_map_to_list.
Qed.
End Counting.

Lemma length_Object_keys (seats : gmap string string) :
  length (Object_keys seats) = size seats.
Proof. unfold Object_keys. by rewrite length_fmap, length_map_to_list. Qed.

(** Every seat is occupied, available or otherwise tagged. *)
Lemma seats_partition (seats : gmap string string) :
  size seats
  = (seatsTagged "Occupied" seats + seatsTagged "Available" seats
     + seatsOtherwise seats)%nat.
Proof.
  unfold seatsTagged, seatsOtherwise.
  pose proof (count_values (λ s, s = "Occupied") seats) as HO.
  pose proof (count_values (λ s, s = "Available") seats) as HA.
  pose proof (count_values (λ s, s ≠ "Occupied" ∧ s ≠ "Available") seats) as HX.
  cbv beta in HO, HA, HX. rewrite <- HO, <- HA, <- HX. clear HO HA HX.
  rewrite <- length_Object_keys. unfold Object_keys, Object_values.
  rewrite !length_fmap. rewrite <- (length_fmap snd (map_to_list seats)).
  induction ((map_to_list seats).*2) as [|s l IH]; [done|].
  rewrite !filter_cons. cbn [length]. rewrite IH.
  destruct (decide (s = "Occupied")) as [->|]; cbn.
  - rewrite decide_False by done. rewrite decide_False by tauto. lia.
  - destruct (decide (s = "Available")) as [->|]; cbn.
    + rewrite decide_False by tauto. lia.
    + rewrite decide_True by done. cbn. lia.
Qed.

Lemma seatsOtherwise_0 (seats : gmap string string) :
  seatsOtherwise seats = 0%nat
  ↔ ∀ seat tag, seats !! seat = Some tag → tag = "Available" ∨ tag = "Occupied".
Proof.
  unfold seatsOtherwise. rewrite map_size_empty_iff, map_empty_filter.
  unfold map_Forall. split; intros H seat tag Hs.
  - specialize (H seat tag Hs). cbn in H.
    destruct (decide (tag = "Occupied")); [by auto|].
    destruct (decide (tag = "Available")); [by auto|]. tauto.
  - cbn. specialize (H seat tag Hs). intros [? ?]. tauto.
Qed.

Lemma enrichedData_counts (data : SeatResponse) :
  let seats := default ∅ (seatAvailabilities data) in
  SeatData.totalSeats (enrichedData data) = Z.of_nat (size seats) ∧
  SeatData.occupiedSeats (enrichedData data) = Z.of_nat (seatsTagged "Occupied" seats) ∧
  SeatData.availableSeats (enrichedData data) = Z.of_nat (seatsTagged "Available" seats).
Proof.
  intros seats. unfold enrichedData, seatsTagged. cbn. fold seats.
  pose proof (count_values (λ s, s = "Occupied") seats) as HO.
  pose proof (count_values (λ s, s = "Available") seats) as HA.
  cbv beta in HO, HA. by rewrite length_Object_keys, HO, HA.
Qed.

(** An integer nearest to a percentage between 0 and 100 lies between 0
    and 100. *)
Lemma nearest_percentage_range (r o t : Z) :
  (0 ≤ o ≤ t)%Z → (0 < t)%Z → JSNumber.nearest r (100 * o) t → (0 ≤ r ≤ 100)%Z.
Proof. unfold JSNumber.nearest. intros Ho Ht [Hlo Hhi]. split; nia. Qed.

(** The percentage of the specification is the integer [r] with
    [r - 1/2 <= 100 o / t < r + 1/2]. *)
Lemma roundedPercentage_spec (o t : Z) :
  (0 < t)%Z →
  ((2 * roundedPercentage o t - 1) * t ≤ 200 * o < (2 * roundedPercentage o t + 1) * t)%Z.
Proof.
  intros Ht. unfold roundedPercentage.
  set (x := (inject_Z o / inject_Z t * inject_Z 100)%Q).
  assert (Qabs (x - x) <= 0)%Q as Hx.
  { assert (x - x == 0)%Q as -> by ring. discriminate. }
  apply JSNumberFacts.Math_round_near in Hx as [Hlo Hhi].
  set (r := JSNumber.Math_round x) in *.
  pose proof (JSNumberFacts.inject_Z_pos t Ht) as HtQ.
  assert (E : (x * inject_Z t == 100 * inject_Z o)%Q).
  { unfold x. change (inject_Z 100) with 100%Q. field. lra. }
  clearbody x r.
  assert (L : (inject_Z ((2 * r - 1) * t) <= inject_Z (200 * o))%Q).
  { unfold Z.sub. rewrite !inject_Z_mult, inject_Z_plus, inject_Z_mult.
    change (inject_Z 2) with 2%Q. change (inject_Z 200) with 200%Q.
    change (inject_Z (- (1))) with (- (1))%Q. nra. }
  assert (U : (inject_Z (200 * o) < inject_Z ((2 * r + 1) * t))%Q).
  { rewrite !inject_Z_mult, inject_Z_plus, inject_Z_mult.
    change (inject_Z 2) with 2%Q. change (inject_Z 200) with 200%Q.
    change (inject_Z 1) with 1%Q. nra. }
  rewrite <- Zle_Qle in L. rewrite <- Zlt_Qlt in U. lia.
Qed.

(** An integer nearest to the exact percentage is the percentage of the
    specification, or one less when the exact percentage lies halfway. *)
Lemma nearest_roundedPercentage (r o t : Z) :
  (0 < t)%Z → JSNumber.nearest r (100 * o) t →
  (¬ halfway o t → r = roundedPercentage o t) ∧
  (r = roundedPercentage o t ∨ halfway o t ∧ r = (roundedPercentage o t - 1)%Z).
Proof.
  intros Ht [Hlo Hhi]. pose proof (roundedPercentage_spec o t Ht) as [Rlo Rhi].
  set (R := roundedPercentage o t) in *. clearbody R.
  destruct (decide (200 * o = (2 * r + 1) * t)%Z) as [Heq|Hne].
  - assert (halfway o t) as Hhalf by (by exists r).
    split; [done|]. right. split; [done|]. nia.
  - assert (r = R) as -> by nia. split; [done|by left].
Qed.

(** C6, as the code has it.  For every raw seat-state map, the snapshot
    computed by the seat-availability handler has [totalSeats] equal to
    the number of seats, [occupiedSeats] and [availableSeats] equal to the
    numbers of seats tagged 'Occupied' and 'Available', and
    [occupancyPercentage] equal to 0 when there is no seat and otherwise
    to [Math.round((occupied / total) * 100)] as double arithmetic
    evaluates it.  For a map of a size an array of its keys can have,
    that is an integer nearest to the exact percentage, between 0 and
    100; it is [round(occupied / total × 100)] whenever the exact
    percentage does not lie halfway between two integers, and that
    number or the one below it when it does. *)
Theorem seat_snapshot (data : SeatResponse) :
  let seats := default ∅ (seatAvailabilities data) in
  let snapshot := enrichedData data in
  SeatData.totalSeats snapshot = Z.of_nat (size seats) ∧
  SeatData.occupiedSeats snapshot = Z.of_nat (seatsTagged "Occupied" seats) ∧
  SeatData.availableSeats snapshot = Z.of_nat (seatsTagged "Available" seats) ∧
  (size seats = 0%nat →
     SeatData.totalSeats snapshot = 0%Z ∧ SeatData.occupancyPercentage snapshot = 0%Z) ∧
  (size seats ≠ 0%nat →
     SeatData.occupancyPercentage snapshot
     = JSNumber.Math_round
         (JSNumber.Number_mul
            (JSNumber.Number_div (inject_Z (SeatData.occupiedSeats snapshot))
               (inject_Z (SeatData.totalSeats snapshot)))
            (inject_Z 100))) ∧
  (size seats ≠ 0%nat → (Z.of_nat (size seats) < 2 ^ 32)%Z →
     JSNumber.nearest (SeatData.occupancyPercentage snapshot)
       (100 * SeatData.occupiedSeats snapshot) (SeatData.totalSeats snapshot) ∧
     (0 ≤ SeatData.occupancyPercentage snapshot ≤ 100)%Z ∧
     (¬ halfway (SeatData.occupiedSeats snapshot) (SeatData.totalSeats snapshot) →
      SeatData.occupancyPercentage snapshot
      = roundedPercentage (SeatData.occupiedSeats snapshot) (SeatData.totalSeats snapshot)) ∧
     (SeatData.occupancyPercentage snapshot
      = roundedPercentage (SeatData.occupiedSeats snapshot) (SeatData.totalSeats snapshot)
      ∨ halfway (SeatData.occupiedSeats snapshot) (SeatData.totalSeats snapshot) ∧
        SeatData.occupancyPercentage snapshot
        = (roundedPercentage (SeatData.occupiedSeats snapshot)
             (SeatData.totalSeats snapshot) - 1)%Z)).
Proof.
  intros seats snapshot.
  destruct (enrichedData_counts data) as (Ht & Ho & Ha).
  fold seats snapshot in Ht, Ho, Ha.
  assert (Hpct : size seats ≠ 0%nat →
    SeatData.occupancyPercentage snapshot
    = JSNumber.Math_round
        (JSNumber.Number_mul
           (JSNumber.Number_div (inject_Z (SeatData.occupiedSeats snapshot))
              (inject_Z (SeatData.totalSeats snapshot)))
           (inject_Z 100))).
  { intros Hn0. rewrite Ht, Ho. unfold snapshot, enrichedData. cbn. fold seats.
    pose proof (count_values (λ s, s = "Occupied") seats) as HO.
    cbv beta in HO. rewrite length_Object_keys, HO.
    destruct (Z.ltb_spec 0 (Z.of_nat (size seats))); [done | lia]. }
  split_and!; try done.
  - intros H0. split; [by rewrite Ht, H0|].
    unfold snapshot, enrichedData. cbn. fold seats.
    by rewrite length_Object_keys, H0.
  - intros Hn0 Hsize. pose proof (seats_partition seats) as Hp.
    assert (Hnear : JSNumber.nearest (SeatData.occupancyPercentage snapshot)
              (100 * SeatData.occupiedSeats snapshot) (SeatData.totalSeats snapshot)).
    { rewrite (Hpct Hn0).
      apply JSNumberFacts.percent_round; rewrite ?Ht, ?Ho; lia. }
    split; [done|]. split.
    { eapply nearest_percentage_range; [| |exact Hnear]; rewrite ?Ht, ?Ho; lia. }
    apply nearest_roundedPercentage; [|done]. rewrite Ht. lia.
Qed.

(** The scenario of the specification: four seats, two of them occupied. *)
Lemma seat_snapshot_witness :
  let data := mkSeatResponse (Some scenarioSeats) in
  size scenarioSeats ≠ 0%nat ∧
  (Z.of_nat (size scenarioSeats) < 2 ^ 32)%Z ∧
  SeatData.totalSeats (enrichedData data) = Z.of_nat (size scenarioSeats) ∧
  JSNumber.nearest (SeatData.occupancyPercentage (enrichedData data))
    (100 * SeatData.occupiedSeats (enrichedData data))
    (SeatData.totalSeats (enrichedData data)).
Proof.
  intros data.
  assert (H1 : size scenarioSeats ≠ 0%nat) by (vm_compute; discriminate).
  assert (H2 : (Z.of_nat (size scenarioSeats) < 2 ^ 32)%Z) by (vm_compute; reflexivity).
  destruct (seat_snapshot data) as (Ht & _ & _ & _ & _ & Hp).
  split_and!; [done | done | exact Ht | by apply Hp].
Defined.

(** 23 occupied seats of 40 are 57.5 percent, which the specification's
    [round] takes to 58.  The handler answers 57: the quotient 23 / 40 is
    not a double, and the double nearest to it times 100 comes to
    57.49999999999999. *)
Lemma snapshot_23_of_40 :
  snapshotOf seats23of40 = SeatData.mk 40 23 17 57 ∧
  roundedPercentage 23 40 = 58%Z ∧
  halfway 23 40.
Proof.
  split_and!; [vm_compute; reflexivity | vm_compute; reflexivity |].
  exists 57%Z. reflexivity.
Qed.

Example seat_snapshot_scenario :
  snapshotOf scenarioSeats = SeatData.mk 4 2 2 50.
Proof. vm_compute. reflexivity. Qed.

(** The empty seat map: no division, occupancy 0. *)
Example seat_snapshot_empty :
  snapshotOf ∅ = SeatData.mk 0 0 0 0 ∧
  enrichedData (mkSeatResponse None) = SeatData.mk 0 0 0 0.
Proof. split; vm_compute; reflexivity. Qed.

(** C10.  For every raw seat-state map, occupied plus available seats
    never exceed the total, with equality exactly when every seat is
    tagged 'Available' or 'Occupied'; a seat with another tag counts in
    [totalSeats] only. *)
Theorem seat_counts_partition (data : SeatResponse) :
  let seats := default ∅ (seatAvailabilities data) in
  let snapshot := enrichedData data in
  (SeatData.occupiedSeats snapshot + SeatData.availableSeats snapshot
     ≤ SeatData.totalSeats snapshot)%Z ∧
  ((SeatData.occupiedSeats snapshot + SeatData.availableSeats snapshot
     = SeatData.totalSeats snapshot)%Z
   ↔ ∀ seat tag, seats !! seat = Some tag → tag = "Available" ∨ tag = "Occupied") ∧
  (SeatData.totalSeats snapshot
   = SeatData.occupiedSeats snapshot + SeatData.availableSeats snapshot
     + Z.of_nat (seatsOtherwise seats))%Z.
Proof.
  intros seats snapshot.
  destruct (enrichedData_counts data) as (Ht & Ho & Ha).
  fold seats snapshot in Ht, Ho, Ha. rewrite Ht, Ho, Ha.
  pose proof (seats_partition seats) as Hp.
  rewrite <- seatsOtherwise_0. lia.
Qed.

(** A seat tagged otherwise is in the denominator only. *)
Example seat_counts_other_tag :
  snapshotOf (<["A1" := "Occupied"]> (<["A2" := "Broken"]> ∅)) = SeatData.mk 2 1 0 50.
Proof. vm_compute. reflexivity. Qed.

End ServerFacts.

(** *** The cache *)

Module CacheFacts.

Section Cache.
Context {V : Type}.
Implicit Types (store : gmap string (Cache.entry V)) (key : string) (now : Z).

Lemma get_live key now store :
  (Cache.get key now store).1 = Cache.value <$> Cache.live now store !! key.
Proof.
  unfold Cache.get, Cache.live. rewrite map_lookup_filter.
  destruct (store !! key) as [e|] eqn:He; cbn; [|done].
  destruct (Cache.expired now e) eqn:Hx; cbn.
  - rewrite option_guard_False; [done|]. cbn. congruence.
  - rewrite option_guard_True; done.
Qed.

Lemma live_mono now now' store :
  (now ≤ now')%Z → Cache.live now' (Cache.live now store) = Cache.live now' store.
Proof.
  intros Hle. unfold Cache.live. apply map_eq. intros k.
  rewrite !map_lookup_filter. destruct (store !! k) as [e|]; cbn; [|done].
  unfold Cache.expired.
  destruct (Cache.expiresAt e <? now)%Z eqn:H1; cbn.
  - rewrite option_guard_False by (cbn; congruence). cbn.
    rewrite option_guard_False; [done|]. cbn. 
    apply Z.ltb_lt in H1. intros H2%Z.ltb_ge. lia.
  - rewrite option_guard_True by done. done.
Qed.

Lemma live_get key now now' store :
  (now ≤ now')%Z →
  Cache.live now' (Cache.get key now store).2 = Cache.live now' store.
Proof.
  intros Hle. unfold Cache.get.
  destruct (store !! key) as [e|] eqn:He; cbn; [|done].
  destruct (Cache.expired now e) eqn:Hx; cbn; [|done].
  unfold Cache.live. apply map_eq. intros k. rewrite !map_lookup_filter.
  destruct (decide (k = key)) as [->|Hk].
  - rewrite lookup_delete_eq, He. cbn. rewrite option_guard_False; [done|].
    cbn. unfold Cache.expired in *. apply Z.ltb_lt in Hx. intros H2%Z.ltb_ge. lia.
  - by rewrite lookup_delete_ne.
Qed.

Lemma cleanup_live now store : Cache.cleanup now store = Cache.live now store.
Proof.
  unfold Cache.cleanup, Cache.keysToDelete, Cache.live.
  apply map_eq. intros k.
  assert (∀ (l : list string) m, foldl (λ store key, base.delete key store) m l !! k
            = if decide (k ∈ l) then None else m !! k) as Hfold.
  { induction l as [|x l IH]; intros m; cbn [foldl].
    - rewrite decide_False; [done|]. apply not_elem_of_nil.
    - rewrite IH. destruct (decide (k ∈ l)) as [Hin|Hin].
      + rewrite decide_True; [done|]. by apply elem_of_cons; right.
      + destruct (decide (k = x)) as [->|Hne].
        * rewrite decide_True by apply list_elem_of_here. apply lookup_delete_eq.
        * rewrite decide_False.
          { by rewrite lookup_delete_ne. }
          intros [?|?]%elem_of_cons; done. }
  rewrite Hfold, map_lookup_filter.
  destruct (store !! k) as [e|] eqn:He; cbn.
  - destruct (Cache.expired now e) eqn:Hx.
    + rewrite decide_True, option_guard_False; [done|cbn; congruence|].
      apply list_elem_of_fmap. exists (k, e). split; [done|].
      apply list_elem_of_filter. split; [done|]. by apply elem_of_map_to_list.
    + rewrite decide_False, option_guard_True; [done|done|].
      intros ([k' e'] & -> & [Hx' Hin%elem_of_map_to_list]%list_elem_of_filter)%list_elem_of_fmap.
      cbn in *. congruence.
  - by destruct (decide _).
Qed.


Lemma foldl_count now (entries : list (Cache.entry V)) : ∀ counters,
  foldl (Cache.count now) counters entries
  = ((counters.1 + length (filter (λ e, Cache.expired now e = false) entries))%nat,
     (counters.2 + length (filter (λ e, Cache.expired now e = true) entries))%nat).
Proof.
  induction entries as [|e entries IH]; intros [a x]; cbn [foldl].
  - cbn. f_equal; lia.
  - rewrite IH, !filter_cons. unfold Cache.count.
    destruct (Cache.expired now e) eqn:Hx; cbn [fst snd].
    + rewrite decide_False, decide_True by done. cbn [length]. f_equal; lia.
    + rewrite decide_True, decide_False by done. cbn [length]. f_equal; lia.
Qed.

Lemma length_filter_snd {A B} (P : B → Prop) `{!∀ b, Decision (P b)} (l : list (A * B)) :
  length (filter P l.*2) = length (filter (λ kv : A * B, P kv.2) l).
Proof.
  induction l as [|[k v] l IH]; [done|].
  rewrite fmap_cons, !filter_cons. cbn [snd].
  destruct (decide (P v)); cbn [length]; lia.
Qed.

Lemma NoDup_fst_filter_list {A B} (Q : A * B → Prop) `{!∀ kv, Decision (Q kv)}
    (l : list (A * B)) :
  NoDup l.*1 → NoDup (filter Q l).*1.
Proof.
  intros Hl. eapply sublist_NoDup; [exact Hl|]. apply fmap_sublist, sublist_filter.
Qed.

Lemma size_filter_entries (P : Cache.entry V → Prop) `{!∀ e, Decision (P e)} store :
  size (filter (λ kv : string * Cache.entry V, P kv.2) store)
  = length (filter P (map_to_list store).*2).
Proof.
  rewrite length_filter_snd, map_filter_alt, map_size_list_to_map; [done|].
  apply NoDup_fst_filter_list, NoDup_fst_map_to_list.
Qed.

Lemma getStats_live now store :
  Cache.getStats now store
  = Cache.Stats (size store) (size (Cache.live now store))
      (size store - size (Cache.live now store)).
Proof.
  unfold Cache.getStats, Cache.live. rewrite foldl_count. cbn [fst snd].
  pose proof (size_filter_entries (λ e, Cache.expired now e = false) store) as Hs.
  cbv beta in Hs. rewrite Hs. clear Hs.
  f_equal. rewrite <- (length_map_to_list store), <- (length_fmap snd).
  induction ((map_to_list store).*2) as [|e l IH]; [done|].
  rewrite !filter_cons. destruct (Cache.expired now e).
  - rewrite decide_True, decide_False by done. cbn [length].
    pose proof (length_filter (λ e, false = false) l).
    pose proof (length_filter (λ e, Cache.expired now e = false) l). lia.
  - rewrite decide_False, decide_True by done. cbn [length].
    pose proof (length_filter (λ e, Cache.expired now e = false) l). lia.
Qed.

Lemma get_subseteq key now store : (Cache.get key now store).2 ⊆ store.
Proof.
  unfold Cache.get. destruct (store !! key) as [e|]; [|done].
  destruct (Cache.expired now e); [apply delete_subseteq|done].
Qed.

Lemma get_after_set key (value : V) (ttlMs : option Z) now store :
  let written := Cache.set key value ttlMs now store in
  (∀ now', (now' ≤ now + default 60000 ttlMs)%Z →
     Cache.get key now' written = (Some value, written)) ∧
  (∀ now', (now + default 60000 ttlMs < now')%Z →
     Cache.get key now' written = (None, base.delete key store)).
Proof.
  cbv zeta. unfold Cache.set, Cache.get. split; intros now' Hnow'.
  - rewrite lookup_insert_eq. unfold Cache.expired. cbn.
    by rewrite (proj2 (Z.ltb_ge _ _)).
  - rewrite lookup_insert_eq. unfold Cache.expired. cbn.
    rewrite (proj2 (Z.ltb_lt _ _)) by done. by rewrite delete_insert_eq.
Qed.

Lemma get_after_eviction key key' now now' store :
  (now ≤ now')%Z →
  (Cache.get key' now' (Cache.get key now store).2).1 = (Cache.get key' now' store).1.
Proof. intros Hle. by rewrite !get_live, live_get. Qed.

(** X1. An entry is served up to and including its expiry time, and is
    removed by the first read after it; a write touches no other key. *)
Theorem cache_get_after_set key (value : V) (ttlMs : option Z) now now' store :
  let written := Cache.set key value ttlMs now store in
  ((now' ≤ now + default 60000 ttlMs)%Z →
     Cache.get key now' written = (Some value, written)) ∧
  ((now + default 60000 ttlMs < now')%Z →
     Cache.get key now' written = (None, base.delete key store)) ∧
  (∀ other, other ≠ key →
     (Cache.get other now' written).1 = (Cache.get other now' store).1).
Proof.
  cbv zeta. unfold Cache.set, Cache.get. split_and!.
  - intros Hle. rewrite lookup_insert_eq. unfold Cache.expired. cbn.
    by rewrite (proj2 (Z.ltb_ge _ _)).
  - intros Hlt. rewrite lookup_insert_eq. unfold Cache.expired. cbn.
    rewrite (proj2 (Z.ltb_lt _ _)) by done. by rewrite delete_insert_eq.
  - intros other Hne. rewrite lookup_insert_ne by done.
    destruct (store !! other) as [e|]; [|done]. by destruct (Cache.expired now' e).
Qed.

(** X2. Eviction is never observable: with a clock that does not go
    back, a read after a [get] or a [cleanup] gives what it would have
    given without it. *)
Theorem cache_eviction_unobservable key key' now now' store :
  (now ≤ now')%Z →
  (Cache.get key' now' (Cache.get key now store).2).1 = (Cache.get key' now' store).1 ∧
  (Cache.get key' now' (Cache.cleanup now store)).1 = (Cache.get key' now' store).1.
Proof.
  intros Hle. rewrite !get_live, cleanup_live, live_get, live_mono by done. done.
Qed.

(** X3. [getStats] counts every entry once, as active exactly when a
    read would still serve it; [cleanup] removes the expired entries and
    nothing else, so that afterwards no entry counts as expired. *)
Theorem cache_stats_after_cleanup now store :
  let stats := Cache.getStats now store in
  Cache.totalEntries stats = size store ∧
  Cache.totalEntries stats = (Cache.activeEntries stats + Cache.expiredEntries stats)%nat ∧
  Cache.activeEntries stats = size (Cache.live now store) ∧
  (∀ key, is_Some (Cache.live now store !! key)
          ↔ is_Some (Cache.get key now store).1) ∧
  Cache.cleanup now store = Cache.live now store ∧
  Cache.getStats now (Cache.cleanup now store)
  = Cache.Stats (Cache.activeEntries stats) (Cache.activeEntries stats) 0.
Proof.
  cbv zeta. rewrite cleanup_live, !getStats_live.
  rewrite (live_mono now now store) by lia. cbn.
  assert (size (Cache.live now store) ≤ size store) as Hle.
  { apply map_subseteq_size, map_filter_subseteq. }
  split_and!; try done; try lia.
  - intros key. by rewrite get_live, fmap_is_Some.
  - f_equal; lia.
Qed.

End Cache.

Lemma cache_eviction_unobservable_witness :
  let store := Cache.set "seats:1:2" 7%Z (Some 1000%Z) 0 ∅ in
  (Cache.get "seats:1:2" 3000 (Cache.get "seats:1:2" 2000 store).2).1
  = (Cache.get "seats:1:2" 3000 store).1 ∧
  (Cache.get "seats:1:2" 3000 (Cache.cleanup 2000 store)).1
  = (Cache.get "seats:1:2" 3000 store).1.
Proof.
  apply (cache_eviction_unobservable (V := Z) "seats:1:2" "seats:1:2" 2000 3000). lia.
Defined.

End CacheFacts.

(** *** The rate limiter *)

Module RateLimiterFacts.
Import RateLimiter.

Section Limiter.
Context (options : options).

#[local] Abbreviation M := (Z.to_nat (limit options)).
#[local] Abbreviation w := (window options).

Lemma cleanup_stored ip now st :
  stored ip (cleanup now st)
  = filter (λ timestamp, (now - 60 * 60 * 1000 < timestamp)%Z) (stored ip st).
Proof.
  unfold stored, cleanup. cbv zeta. rewrite lookup_omap.
  destruct (st !! ip) as [requests|]; cbn; [|done].
  case_decide as Hlen; cbn; [|done]. by apply nil_length_inv in Hlen.
Qed.

Lemma passedBy_app ip l1 l2 : passedBy ip (l1 ++ l2) = passedBy ip l1 ++ passedBy ip l2.
Proof. unfold passedBy. by rewrite filter_app, fmap_app. Qed.

Lemma passedBy_Some ip ip' x :
  passedBy ip (option_list (Some (ip', x))) = if decide (ip' = ip) then [x] else [].
Proof.
  unfold passedBy. change (option_list (Some (ip', x))) with [(ip', x)].
  rewrite filter_cons. cbn [fst]. by destruct (decide (ip' = ip)).
Qed.

(** What one event does to the requests remembered for a client. *)
Lemma step_stored e st ip :
  ∃ keep,
    stored ip (step options e st).2 = keep ++ passedBy ip (option_list (step options e st).1) ∧
    (keep = stored ip st ∨
     ∃ c, (w ≤ 60 * 60 * 1000 → c ≤ at_ e - w)%Z ∧ keep = filter (λ x, (c < x)%Z) (stored ip st)) ∧
    (passedBy ip (option_list (step options e st).1) ≠ [] → length keep < M) ∧
    Forall (λ x, x = at_ e) (passedBy ip (option_list (step options e st).1)).
Proof.
  destruct e as [req now|now]; cbn [step at_].
  - unfold rateLimiter. fold (limit options) (window options).
    fold (stored (clientIp req) st).
    destruct (limit options <=? _)%Z eqn:Hmax; cbn [fst snd option_list].
    + exists (stored ip st). rewrite app_nil_r. split_and!; [done|by left|done|constructor].
    + apply Z.leb_gt in Hmax.
      destruct (decide (clientIp req = ip)) as [<-|Hne].
      * exists (filter (λ x, (now - w < x)%Z) (stored (clientIp req) st)).
        rewrite passedBy_Some, decide_True by done.
        unfold stored at 1. rewrite lookup_insert_eq. cbn.
        split_and!; [done| |intros _; lia|by repeat constructor].
        right. exists (now - w)%Z. split; [lia|done].
      * exists (stored ip st).
        rewrite passedBy_Some, decide_False by done.
        unfold stored at 1. rewrite lookup_insert_ne by done.
        rewrite app_nil_r. split_and!; [done|by left|done|constructor].
  - exists (stored ip (cleanup now st)). cbn [fst snd].
    change (passedBy ip (option_list None)) with (@nil Z). rewrite app_nil_r.
    split; [done|]. split; [|split; [done|constructor]].
    right. exists (now - 60 * 60 * 1000)%Z. split; [lia|]. apply cleanup_stored.
Qed.

Lemma run_cons e events st :
  run options (e :: events) st
  = (option_list (step options e st).1 ++ (run options events (step options e st).2).1,
     (run options events (step options e st).2).2).
Proof.
  cbn [run]. destruct (step options e st) as [p st']. cbn [fst snd].
  destruct (run options events st') as [log st'']. reflexivity.
Qed.

(** A request that was let through was let through when it arrived. *)
Lemma run_passed_at events : ∀ st ip x,
  x ∈ passedBy ip (run options events st).1 → ∃ e, e ∈ events ∧ x = at_ e.
Proof.
  induction events as [|e events IH]; intros st ip x.
  - by intros ?%elem_of_nil.
  - rewrite run_cons. cbn [fst]. rewrite passedBy_app.
    intros [Hin|Hin]%elem_of_app.
    + destruct (step_stored e st ip) as (_ & _ & _ & _ & Hat).
      rewrite Forall_forall in Hat. exists e. split; [apply list_elem_of_here|by apply Hat].
    + destruct (IH _ _ _ Hin) as (e' & He' & ->). exists e'. split; [|done].
      by apply list_elem_of_further.
Qed.

(** Counting the requests of a window. *)
Lemma length_filter_le {A} (P Q : A → Prop) `{!∀ x, Decision (P x)} `{!∀ x, Decision (Q x)}
    (l : list A) :
  length (filter P (filter Q l)) ≤ length (filter P l).
Proof.
  induction l as [|x l IH]; [done|]. rewrite (filter_cons Q).
  destruct (decide (Q x)); rewrite !filter_cons; destruct (decide (P x)); cbn [length]; lia.
Qed.

Lemma filter_filter_same {A} (P Q : A → Prop) `{!∀ x, Decision (P x)} `{!∀ x, Decision (Q x)}
    (l : list A) :
  (∀ x, x ∈ l → P x → Q x) → filter P (filter Q l) = filter P l.
Proof.
  induction l as [|x l IH]; intros Hall; [done|]. rewrite (filter_cons Q).
  assert (∀ y, y ∈ l → P y → Q y) as Hl by (intros y ?; apply Hall; by apply list_elem_of_further).
  destruct (decide (Q x)) as [HQ|HQ].
  - rewrite !filter_cons. destruct (decide (P x)); by rewrite IH.
  - rewrite filter_cons, decide_False; [by apply IH|].
    intros HP. apply HQ, Hall; [apply list_elem_of_here|done].
Qed.

Lemma filter_none {A} (P : A → Prop) `{!∀ x, Decision (P x)} (l : list A) :
  (∀ x, x ∈ l → ¬ P x) → filter P l = [].
Proof.
  induction l as [|x l IH]; intros Hall; [done|].
  rewrite filter_cons, decide_False by (apply Hall, list_elem_of_here).
  apply IH. intros y ?. apply Hall. by apply list_elem_of_further.
Qed.

Lemma step_bounded e st : bounded options st → bounded options (step options e st).2.
Proof.
  intros HG ip t. destruct (step_stored e st ip) as (keep & -> & Hkeep & Hlen & Hat).
  destruct (passedBy ip (option_list (step options e st).1)) as [|x new] eqn:Hnew.
  - rewrite app_nil_r. destruct Hkeep as [->|(c & _ & ->)]; [apply HG|].
    etrans; [apply length_filter_le|apply HG].
  - assert (new = []) as ->.
    { destruct (step options e st).1 as [[ip' x']|]; [|done].
      rewrite passedBy_Some in Hnew. destruct (decide _); by simplify_eq. }
    rewrite filter_app, length_app.
    pose proof (length_filter (inWindow w t) keep).
    pose proof (length_filter (inWindow w t) [x]). cbn in *.
    specialize (Hlen ltac:(done)). lia.
Qed.

Lemma rate_limit_from events : ∀ st,
  (w ≤ 60 * 60 * 1000)%Z →
  StronglySorted Z.le (at_ <$> events) →
  bounded options st →
  ∀ ip t,
    length (filter (inWindow w t) (stored ip st ++ passedBy ip (run options events st).1)) ≤ M.
Proof.
  induction events as [|e events IH]; intros st Hw Hsorted HG ip t.
  - cbn. rewrite app_nil_r. apply HG.
  - rewrite fmap_cons in Hsorted. apply StronglySorted_inv in Hsorted as [Hsorted Hfirst].
    rewrite run_cons. cbn [fst]. rewrite passedBy_app.
    specialize (IH (step options e st).2 Hw Hsorted (step_bounded e st HG) ip t).
    destruct (step_stored e st ip) as (keep & Hst & Hkeep & _ & Hat).
    rewrite Hst, <- app_assoc in IH.
    destruct Hkeep as [->|(c & Hc & ->)]; [done|]. specialize (Hc Hw).
    destruct (decide (t < at_ e)%Z) as [Hlt|Hge].
    + (* the window ends before this event: nothing later falls into it *)
      rewrite filter_app, length_app, (filter_none _ (_ ++ _)).
      { cbn. rewrite Nat.add_0_r. apply HG. }
      intros x [Hin|Hin]%elem_of_app [_ Hx].
      * rewrite Forall_forall in Hat. apply Hat in Hin. lia.
      * apply run_passed_at in Hin as (e' & He' & ->).
        rewrite Forall_forall in Hfirst.
        assert (at_ e ≤ at_ e')%Z; [|lia].
        apply Hfirst, list_elem_of_fmap. by exists e'.
    + (* the window ends at or after this event: nothing in it was dropped *)
      rewrite filter_app in IH |- *.
      rewrite filter_filter_same in IH; [done|].
      intros x _ [Hx _]. lia.
Qed.


(** The store never remembers more than [M] requests of a client, and
    none from after the last event. *)
Lemma run_store events : ∀ st T,
  (∀ ip, length (stored ip st) ≤ M) →
  (∀ ip x, x ∈ stored ip st → (x ≤ T)%Z) →
  Forall (λ e, (at_ e ≤ T)%Z) events →
  (∀ ip, length (stored ip (run options events st).2) ≤ M) ∧
  (∀ ip x, x ∈ stored ip (run options events st).2 → (x ≤ T)%Z).
Proof.
  induction events as [|e events IH]; intros st T HL HB Hev; [done|].
  rewrite run_cons. cbn [snd]. apply Forall_cons in Hev as [He Hev].
  apply IH; [| |done].
  - intros ip. destruct (step_stored e st ip) as (keep & -> & Hkeep & Hlen & _).
    assert (length keep ≤ length (stored ip st)) as Hk.
    { destruct Hkeep as [->|(c & _ & ->)]; [done|apply length_filter]. }
    destruct (passedBy ip (option_list (step options e st).1)) as [|x new] eqn:Hnew.
    + rewrite app_nil_r. specialize (HL ip). lia.
    + assert (new = []) as ->.
      { destruct (step options e st).1 as [[ip' x']|]; [|done].
        rewrite passedBy_Some in Hnew. destruct (decide _); by simplify_eq. }
      rewrite length_app. cbn. specialize (Hlen ltac:(done)). lia.
  - intros ip x. destruct (step_stored e st ip) as (keep & -> & Hkeep & _ & Hat).
    intros [Hin|Hin]%elem_of_app.
    + apply (HB ip). destruct Hkeep as [->|(c & _ & ->)]; [done|].
      by apply list_elem_of_filter in Hin as [_ ?].
    + rewrite Forall_forall in Hat. apply Hat in Hin. lia.
Qed.

End Limiter.

Lemma Math_min_Some (l : list Z) m :
  Math_min l = Some m → m ∈ l ∧ ∀ x, x ∈ l → (m ≤ x)%Z.
Proof.
  destruct l as [|x l]; [done|]. cbn. intros [= <-].
  revert x. induction l as [|y l IH]; intros x; cbn [foldl].
  - split; [apply list_elem_of_here|]. intros ? ->%list_elem_of_singleton. lia.
  - destruct (IH (x `min` y)%Z) as [Hin Hmin]. split.
    + apply elem_of_cons in Hin as [->|Hin].
      * destruct (Z.min_spec x y) as [[_ ->]|[_ ->]].
        -- apply list_elem_of_here.
        -- apply list_elem_of_further, list_elem_of_here.
      * by do 2 apply list_elem_of_further.
    + intros z Hz. 
      assert (foldl Z.min (x `min` y)%Z l ≤ x `min` y)%Z
        by (apply Hmin, list_elem_of_here).
      apply elem_of_cons in Hz as [->|[->|Hz]%elem_of_cons]; [lia|lia|].
      by apply Hmin, list_elem_of_further.
Qed.

Lemma length_filter_lt {A} (P : A → Prop) `{!∀ x, Decision (P x)} (l : list A) x :
  x ∈ l → ¬ P x → length (filter P l) < length l.
Proof.
  induction l as [|y l IH]; intros Hin Hx; [by apply elem_of_nil in Hin|].
  rewrite filter_cons. pose proof (length_filter P l).
  apply elem_of_cons in Hin as [->|Hin].
  - rewrite decide_False by done. cbn. lia.
  - specialize (IH Hin Hx). destruct (decide (P y)); cbn; lia.
Qed.

(** [Math.ceil(n / 1000)] on doubles is at least the exact quotient. *)
Lemma ceil_seconds (n : Z) :
  (1 ≤ n < 2 ^ 53)%Z →
  (1 ≤ Math_ceil (JSNumber.Number_div (inject_Z n) (inject_Z 1000)) ∧
   n ≤ 1000 * Math_ceil (JSNumber.Number_div (inject_Z n) (inject_Z 1000)))%Z.
Proof.
  intros Hn. unfold Math_ceil, JSNumber.Number_div.
  destruct (JSNumberFacts.ratio_normal n 1000) as [Hpos Hnorm]; [lia|lia|].
  pose proof (JSNumberFacts.fl_error _ Hpos Hnorm) as He.
  assert (E : (inject_Z n / inject_Z 1000 * inject_Z 1000 == inject_Z n)%Q)
    by (field; discriminate).
  change (inject_Z 1000) with (1000 : Q) in *.
  set (q := (inject_Z n / 1000)%Q) in *.
  pose proof (Qle_ceiling (JSNumber.fl q)) as Hr.
  set (r := Qceiling (JSNumber.fl q)) in *.
  assert (inject_Z n <= inject_Z (2 ^ 53 - 1))%Q as Hn' by (rewrite <- Zle_Qle; lia).
  assert (inject_Z (2 ^ 53 - 1) * JSNumber.eps < 1)%Q as Heps by (vm_compute; reflexivity).
  assert (JSNumber.fl q >= q - q * JSNumber.eps)%Q as Hfl.
  { revert He. apply Qabs_case; intros; lra. }
  unfold JSNumber.eps in *. clearbody r q.
  assert (1 <= inject_Z n)%Q as Hn1
    by (change 1%Q with (inject_Z 1); rewrite <- Zle_Qle; lia).
  split.
  - assert (0 < inject_Z r)%Q as H0 by nra.
    change 0%Q with (inject_Z 0) in H0. rewrite <- Zlt_Qlt in H0. lia.
  - destruct (decide (n ≤ 1000 * r)%Z) as [|Hlt]; [done|]. exfalso.
    assert (inject_Z (1000 * r) <= inject_Z (n - 1))%Q as Hc by (rewrite <- Zle_Qle; lia).
    unfold Z.sub in Hc. rewrite inject_Z_plus, inject_Z_mult in Hc.
    change (inject_Z 1000) with (1000 : Q) in Hc.
    change (inject_Z (- (1))) with (- (1))%Q in Hc.
    generalize dependent (JSNumber.fl q).
    generalize dependent (inject_Z r). generalize dependent (inject_Z n).
    intros. nra.
Qed.

(** X4. With a clock that does not go back and a window of at most one
    hour, whatever requests arrive and whenever the interval callback
    runs, the requests of one client that are let through within any
    window of [windowMs] milliseconds number at most [maxRequests]. *)
Theorem rate_limit_holds (options : options) (events : list event) (ip : string) (t : Z) :
  StronglySorted Z.le (at_ <$> events) →
  (window options ≤ 60 * 60 * 1000)%Z →
  length (filter (inWindow (window options) t) (passedBy ip (run options events ∅).1))
  ≤ Z.to_nat (limit options).
Proof.
  intros Hsorted Hw.
  assert (bounded options ∅) as Hempty.
  { intros ip' t'. unfold stored. rewrite lookup_empty. cbn. lia. }
  pose proof (rate_limit_from options events ∅ Hw Hsorted Hempty ip t) as Hrun.
  unfold stored in Hrun. by rewrite lookup_empty in Hrun.
Qed.


Lemma rate_limit_holds_witness :
  let options := Options (Some 2%Z) (Some 1000%Z) in
  let events := [Arrives (Request (Some "a") None) 0;
                 Arrives (Request (Some "a") None) 1;
                 Arrives (Request (Some "a") None) 2] in
  length (filter (inWindow (window options) 2) (passedBy "a" (run options events ∅).1))
  ≤ Z.to_nat (limit options).
Proof.
  apply rate_limit_holds; [|vm_compute; discriminate].
  cbn. repeat first [apply SSorted_nil | apply SSorted_cons | apply List.Forall_nil
                    | apply List.Forall_cons | lia].
Defined.


End RateLimiterFacts.

(** *** The seat-availability route and the CORS check *)

Module BackendFacts.

Import Backend Scenario.

Lemma pretty_N_go_charFree c x : 
  (∀ d, pretty_N_char d ≠ c) → ∀ s, charFree c s → charFree c (pretty_N_go x s).
Proof.
  intros Hc. induction (N.lt_wf_0 x) as [x _ IH]. intros s Hs.
  destruct (decide (x = 0%N)) as [->|Hx]; [by rewrite pretty_N_go_0|].
  rewrite pretty_N_go_step by lia. apply IH.
  - apply N.div_lt; lia.
  - cbn. by rewrite decide_False by apply Hc.
Qed.

Lemma pretty_N_colonFree (x : N) : charFree ":" (pretty x).
Proof.
  unfold pretty, pretty_N. case_decide; [done|]. apply pretty_N_go_charFree; [|done].
  intros d. unfold pretty_N_char. by repeat case_match.
Qed.

Lemma sep_split c s1 : ∀ s2 t1 t2,
  charFree c s1 → charFree c s2 →
  s1 +:+ String c t1 = s2 +:+ String c t2 → s1 = s2 ∧ t1 = t2.
Proof.
  induction s1 as [|c1 s1 IH]; intros [|c2 s2] t1 t2 H1 H2 Heq; cbn in *.
  - by injection Heq.
  - injection Heq as <- _. by case_decide.
  - injection Heq as -> _. by case_decide.
  - injection Heq as -> Heq. case_decide; [done|].
    destruct (IH _ _ _ H1 H2 Heq) as [-> ->]. done.
Qed.

Lemma seatsCacheKey_inj t1 s1 t2 s2 :
  charFree ":" t1 → charFree ":" t2 →
  seatsCacheKey t1 s1 = seatsCacheKey t2 s2 → t1 = t2 ∧ s1 = s2.
Proof.
  unfold seatsCacheKey. intros H1 H2 Heq. apply (inj (String.app "seats:")) in Heq.
  by apply (sep_split ":"%char) in Heq.
Qed.


(** What [get] serves under a key depends on the entry under that key
    only. *)
Lemma get_lookup {V} key now (c1 c2 : gmap string (Cache.entry V)) :
  c1 !! key = c2 !! key → (Cache.get key now c1).1 = (Cache.get key now c2).1.
Proof.
  unfold Cache.get. intros ->. destruct (c2 !! key) as [e|]; [|done].
  by destruct (Cache.expired now e).
Qed.

(** The handler touches the cache under the key of its query only. *)
Lemma seatAvailability_lookup t s now later upstream cache key :
  key ≠ seatsCacheKey t s →
  (seatAvailability (Query (Some t) (Some s)) now later upstream cache).2 !! key
  = cache !! key.
Proof.
  intros Hkey. unfold seatAvailability. cbn [theatreId showtimeId].
  case_decide; [done|]. unfold Cache.get.
  destruct (cache !! seatsCacheKey t s) as [e|] eqn:He.
  - destruct (Cache.expired now e); [|done].
    destruct upstream; cbn [snd]; unfold Cache.set;
      rewrite ?lookup_insert_ne by done; by rewrite lookup_delete_ne.
  - destruct upstream; cbn [snd]; unfold Cache.set;
      by rewrite ?lookup_insert_ne by done.
Qed.

(** X6. A seat response fetched at a cache miss is served again from the
    cache, whatever the upstream would say, up to one minute after it was
    stored; after that the handler answers as it does with an empty
    cache. *)
Theorem seat_response_cached (t s : string) (now later : Z)
    (data : Server.SeatResponse) (cache : gmap string (Cache.entry body)) :
  t ≠ "" → s ≠ "" →
  (Cache.get (seatsCacheKey t s) now cache).1 = None →
  let query := Query (Some t) (Some s) in
  let first := seatAvailability query now later (Ok data) cache in
  first.1 = Response 200 (SeatBody data (Server.enrichedData data)) ∧
  (∀ now' later' upstream, (now' ≤ later + 60 * 1000)%Z →
     seatAvailability query now' later' upstream first.2 = first) ∧
  (∀ now' later' upstream, (later + 60 * 1000 < now')%Z →
     (seatAvailability query now' later' upstream first.2).1
     = (seatAvailability query now' later' upstream ∅).1).
Proof.
  intros Ht Hs Hmiss. cbv zeta.
  assert (seatAvailability (Query (Some t) (Some s)) now later (Ok data) cache
          = (Response 200 (SeatBody data (Server.enrichedData data)),
             Cache.set (seatsCacheKey t s) (SeatBody data (Server.enrichedData data))
               (Some (60 * 1000)%Z) later (Cache.get (seatsCacheKey t s) now cache).2))
    as ->.
  { unfold seatAvailability. cbn [theatreId showtimeId].
    rewrite decide_False by tauto.
    destruct (Cache.get (seatsCacheKey t s) now cache) as [[v|] c]; [done|done]. }
  cbn [fst snd]. split; [done|].
  set (c := (Cache.get (seatsCacheKey t s) now cache).2).
  set (b := SeatBody data (Server.enrichedData data)).
  destruct (CacheFacts.get_after_set (seatsCacheKey t s) b (Some (60 * 1000)%Z)
              later c) as [Hhit Hexp].
  split; intros now' later' upstream Hnow'; unfold seatAvailability;
    cbn [theatreId showtimeId]; rewrite !decide_False by tauto.
  - rewrite (Hhit now') by done. done.
  - rewrite (Hexp now') by done. unfold Cache.get. rewrite lookup_empty.
    by destruct upstream.
Qed.

Lemma seat_response_cached_witness :
  let data := Server.mkSeatResponse (Some scenarioSeats) in
  let query := Query (Some "1422") (Some "77") in
  let first := seatAvailability query 0 5 (Ok data) ∅ in
  first.1 = Response 200 (SeatBody data (Server.enrichedData data)) ∧
  (∀ now' later' upstream, (now' ≤ 5 + 60 * 1000)%Z →
     seatAvailability query now' later' upstream first.2 = first) ∧
  (∀ now' later' upstream, (5 + 60 * 1000 < now')%Z →
     (seatAvailability query now' later' upstream first.2).1
     = (seatAvailability query now' later' upstream ∅).1).
Proof.
  apply (seat_response_cached "1422" "77" 0 5 (Server.mkSeatResponse (Some scenarioSeats)) ∅).
  - discriminate.
  - discriminate.
  - reflexivity.
Defined.

(** X7. A response with a status other than 200 is never cached: the
    handler adds nothing to the cache, and every later read gives what it
    would have given without the request. *)
Theorem seat_errors_not_cached (query : query) (now later : Z) (upstream : fetched)
    (cache : gmap string (Cache.entry body)) :
  let served := seatAvailability query now later upstream cache in
  status served.1 ≠ 200%Z →
  served.2 ⊆ cache ∧
  ∀ key now', (now ≤ now')%Z →
    (Cache.get key now' served.2).1 = (Cache.get key now' cache).1.
Proof.
  cbv zeta. unfold seatAvailability.
  destruct (theatreId query) as [t|], (showtimeId query) as [s|]; cbn [fst snd]; try done.
  case_decide; [done|].
  pose proof (CacheFacts.get_subseteq (seatsCacheKey t s) now cache) as Hsub.
  pose proof (λ key now', CacheFacts.get_after_eviction
                (seatsCacheKey t s) key now now' cache) as Hget.
  destruct (Cache.get (seatsCacheKey t s) now cache) as [[v|] c]; cbn [fst snd] in *;
    [done|].
  destruct upstream; cbn [fst snd status]; done.
Qed.

Lemma seat_errors_not_cached_witness :
  let served := seatAvailability (Query (Some "1422") (Some "77")) 0 5 (NotOk 503) ∅ in
  status served.1 = 503%Z ∧
  served.2 ⊆ ∅ ∧
  ∀ key now', (0 ≤ now')%Z →
    (Cache.get key now' served.2).1 = (Cache.get key now' (∅ : gmap string (Cache.entry body))).1.
Proof.
  split; [reflexivity|].
  apply (seat_errors_not_cached (Query (Some "1422") (Some "77")) 0 5 (NotOk 503) ∅).
  vm_compute. discriminate.
Defined.

(** X8. Requests for different sessions never share a cache entry: with
    numeric ids, as the frontend sends them, what a request for one pair
    of theatre and showtime id is answered does not depend on an earlier
    request for another pair. *)
Theorem seat_cache_per_session (t1 s1 t2 s2 : N) (now later now' later' : Z)
    (upstream upstream' : fetched) (cache : gmap string (Cache.entry body)) :
  (t1, s1) ≠ (t2, s2) →
  let first := Query (Some (pretty t1)) (Some (pretty s1)) in
  let second := Query (Some (pretty t2)) (Some (pretty s2)) in
  (seatAvailability second now' later' upstream'
     (seatAvailability first now later upstream cache).2).1
  = (seatAvailability second now' later' upstream' cache).1.
Proof.
  intros Hne. cbv zeta.
  assert (seatsCacheKey (pretty t2) (pretty s2) ≠ seatsCacheKey (pretty t1) (pretty s1))
    as Hkey.
  { intros [Ht Hs]%seatsCacheKey_inj; try apply pretty_N_colonFree.
    apply (inj pretty) in Ht, Hs. congruence. }
  pose proof (seatAvailability_lookup (pretty t1) (pretty s1) now later upstream cache
                _ Hkey) as Hlook.
  set (c1 := (seatAvailability _ now later upstream cache).2) in *.
  unfold seatAvailability. cbn [theatreId showtimeId].
  case_decide; [done|].
  pose proof (get_lookup (seatsCacheKey (pretty t2) (pretty s2)) now' c1 cache Hlook) as Hg.
  unfold Cache.get in *. rewrite Hlook.
  destruct (cache !! seatsCacheKey (pretty t2) (pretty s2)) as [e|]; [|by destruct upstream'].
  destruct (Cache.expired now' e); [by destruct upstream'|done].
Qed.

Lemma seat_cache_per_session_witness :
  let data := Server.mkSeatResponse (Some scenarioSeats) in
  let first := Query (Some (pretty 1422%N)) (Some (pretty 77%N)) in
  let second := Query (Some (pretty 1422%N)) (Some (pretty 78%N)) in
  (seatAvailability second 10 15 (NotOk 503)
     (seatAvailability first 0 5 (Ok data) ∅).2).1
  = (seatAvailability second 10 15 (NotOk 503) ∅).1.
Proof.
  apply (seat_cache_per_session 1422 77 1422 78 0 5 10 15
           (Ok (Server.mkSeatResponse (Some scenarioSeats))) (NotOk 503) ∅).
  discriminate.
Defined.

(** Ids with a colon in them are not kept apart: the handler does not
    ask for numbers, and two different pairs can make the same key. *)
Example seat_cache_key_collision :
  seatsCacheKey "1:2" "3" = seatsCacheKey "1" "2:3".
Proof. reflexivity. Qed.

(** **** The CORS check *)

Lemma length_append (s1 s2 : string) :
  String.length (s1 +:+ s2) = String.length s1 + String.length s2.
Proof.
  induction s1 as [|c s1 IH]; [done|].
  change (String c s1 +:+ s2) with (String c (s1 +:+ s2)).
  cbn [String.length]. by rewrite IH.
Qed.

Lemma substring_all (s : string) : String.substring 0 (String.length s) s = s.
Proof. induction s as [|c s IH]; cbn; [done|]. by rewrite IH. Qed.

Lemma substring_suffix (p s : string) :
  String.substring (String.length p) (String.length s) (p +:+ s) = s.
Proof.
  induction p as [|c p IH]; [apply substring_all|].
  change (String c p +:+ s) with (String c (p +:+ s)). done.
Qed.

Lemma substring_split (s : string) : ∀ n,
  n ≤ String.length s →
  s = String.substring 0 n s +:+ String.substring n (String.length s - n) s.
Proof.
  induction s as [|c s IH]; intros [|n] Hn; cbn [String.length] in *; try lia.
  - done.
  - rewrite Nat.sub_0_r. change (S (String.length s)) with (String.length (String c s)).
    by rewrite (substring_all (String c s)).
  - cbn [String.substring Nat.sub].
    change (String c ?a +:+ ?b) with (String c (a +:+ b)).
    f_equal. apply IH. lia.
Qed.

Lemma endsWith_spec (s suffix : string) :
  endsWith s suffix = true ↔ ∃ prefix, s = prefix +:+ suffix.
Proof.
  unfold endsWith. split.
  - destruct (Z.ltb_spec (Z.of_nat (String.length s) - Z.of_nat (String.length suffix)) 0);
      [done|].
    intros Hsub%bool_decide_eq_true.
    replace (Z.to_nat (Z.of_nat (String.length s) - Z.of_nat (String.length suffix)))
      with (String.length s - String.length suffix) in Hsub by lia.
    exists (String.substring 0 (String.length s - String.length suffix) s).
    rewrite (substring_split s (String.length s - String.length suffix)) at 1 by lia.
    f_equal.
    replace (String.length s - (String.length s - String.length suffix))
      with (String.length suffix) by lia.
    exact Hsub.
  - intros [prefix ->]. rewrite length_append.
    destruct (Z.ltb_spec (Z.of_nat (String.length prefix + String.length suffix)
                          - Z.of_nat (String.length suffix)) 0); [lia|].
    apply bool_decide_eq_true.
    replace (Z.to_nat _) with (String.length prefix) by lia.
    apply substring_suffix.
Qed.


(** X9. The CORS check admits a request exactly when it has no origin,
    or its origin is one of the two local origins or the configured
    frontend, or its origin ends in [.vercel.app]. *)
Theorem cors_origin_allowed (env : option string) (o : option string) :
  origin env o = true ↔
  o = None ∨ o = Some "" ∨
  ∃ origin, o = Some origin ∧
    (origin = "http://localhost:5173" ∨ origin = "http://localhost:5174" ∨
     origin = FRONTEND_URL env ∨ ∃ prefix, origin = prefix +:+ ".vercel.app").
Proof.
  unfold origin. destruct o as [origin|]; [|by split; [left|]].
  case_decide as Hempty; [subst; by split; [right; left|]|].
  rewrite orb_true_iff, bool_decide_eq_true, endsWith_spec. unfold allowedOrigins.
  rewrite !elem_of_cons, elem_of_nil. split.
  - intros Hin. right. right. exists origin. split; [done|].
    destruct Hin as [[->|[->|[->|[->|[->|[]]]]]]|Hsuffix]; auto.
    + do 3 right. by exists "https://crowdplex".
    + do 3 right. by exists "https://crowdplex-git-main-0xt4nj1r0s-projects".
  - intros [?|[Heq|(origin' & Heq & Hin)]]; [done|congruence|].
    injection Heq as <-.
    destruct Hin as [->|[->|[->|Hsuffix]]]; auto 10.
Qed.

End BackendFacts.

(** *** The stable sort *)

Module JSArrayFacts.

Import JSArray.

Section Sort.
Context {A : Type} (comparefn : A → A → Z).

#[local] Abbreviation before := (before comparefn).
#[local] Abbreviation tied := (tied comparefn).

Lemma insert_Permutation x l : insert comparefn x l ≡ₚ x :: l.
Proof.
  induction l as [|y l IH]; [done|]. cbn.
  destruct (comparefn x y <=? 0)%Z; [done|].
  rewrite IH. apply Permutation_swap.
Qed.

Lemma sort_Permutation l : sort comparefn l ≡ₚ l.
Proof.
  induction l as [|x l IH]; [done|]. cbn.
  by rewrite insert_Permutation, IH.
Qed.

Lemma length_sort l : length (sort comparefn l) = length l.
Proof. by rewrite sort_Permutation. Qed.

(** A consistent comparator: any two elements are comparable, and
    [before] is transitive. *)
Hypothesis before_total : ∀ x y, before x y ∨ before y x.
Hypothesis before_trans : ∀ x y z, before x y → before y z → before x z.

Lemma insert_sorted x l :
  StronglySorted before l → StronglySorted before (insert comparefn x l).
Proof.
  induction 1 as [|y l Hl IH Hy]; cbn.
  - repeat constructor.
  - destruct (Z.leb_spec (comparefn x y) 0) as [Hxy|Hxy].
    + constructor; [by constructor|]. constructor; [done|].
      eapply Forall_impl; [exact Hy|]. intros z Hz. by eapply before_trans.
    + constructor; [done|]. rewrite insert_Permutation. constructor; [|done].
      destruct (before_total x y) as [H|H]; [unfold before in H; lia | done].
Qed.

Lemma sort_sorted l : StronglySorted before (sort comparefn l).
Proof.
  induction l as [|x l IH]; cbn; [constructor | by apply insert_sorted].
Qed.

(** Inserting [x] leaves the elements tied with any [z] in the order they
    had, with [x] in front of them. *)
Lemma filter_tied_insert z x l :
  filter (tied z) (insert comparefn x l) = filter (tied z) (x :: l).
Proof.
  induction l as [|y l IH]; [done|]. cbn [insert].
  destruct (Z.leb_spec (comparefn x y) 0) as [Hxy|Hxy]; [done|].
  rewrite filter_cons, IH, !filter_cons.
  destruct (decide (tied z y)) as [Hy|Hy], (decide (tied z x)) as [Hx|Hx];
    try done.
  exfalso. destruct Hy as [Hzy _], Hx as [_ Hxz].
  pose proof (before_trans _ _ _ Hxz Hzy) as H. unfold before in H. lia.
Qed.

(** Stability: elements that compare as equal keep their relative order. *)
Lemma sort_stable z l :
  filter (tied z) (sort comparefn l) = filter (tied z) l.
Proof.
  induction l as [|x l IH]; [done|]. cbn [sort foldr].
  change (foldr (insert comparefn) [] l) with (sort comparefn l).
  by rewrite filter_tied_insert, !filter_cons, IH.
Qed.

(** Whatever stands earlier in the sorted array may stand before what
    stands later. *)
Lemma sort_lookup_before l i j x y :
  (i < j)%nat → sort comparefn l !! i = Some x → sort comparefn l !! j = Some y →
  before x y.
Proof.
  intros Hij Hi Hj. pose proof (sort_sorted l) as Hs.
  revert i j Hij Hi Hj. induction Hs as [|a s Hs IH Ha]; intros i j Hij Hi Hj; [done|].
  destruct j as [|j]; [lia|]. destruct i as [|i].
  - cbn in Hi, Hj. injection Hi as ->.
    rewrite Forall_forall in Ha. apply Ha. by eapply list_elem_of_lookup_2.
  - cbn in Hi, Hj. eapply (IH i j); [lia|done..].
Qed.
(** The sorted and stable arrangement of [l] is unique: whatever stable
    algorithm an engine runs, it returns what [sort] returns. *)
Lemma sort_unique l : ∀ l',
  StronglySorted before l' →
  (∀ z, filter (tied z) l' = filter (tied z) l) →
  l' = sort comparefn l.
Proof.
  assert (Htied : ∀ x y z, tied x y → tied x z → tied y z).
  { intros x y z [Hxy Hyx] [Hxz Hzx]. split; by eapply before_trans. }
  assert (Hrefl : ∀ x, tied x x).
  { intros x. by destruct (before_total x x). }
  assert (Huniq : ∀ l1 l2,
    StronglySorted before l1 → StronglySorted before l2 →
    (∀ z, filter (tied z) l1 = filter (tied z) l2) → l1 = l2).
  { induction l1 as [|a t1 IH]; intros l2 H1 H2 Hf.
    - destruct l2 as [|b t2]; [done|]. specialize (Hf b).
      rewrite filter_nil, filter_cons_True in Hf by done. done.
    - destruct l2 as [|b t2].
      { specialize (Hf a). rewrite filter_nil, filter_cons_True in Hf by done. done. }
      apply StronglySorted_inv in H1 as [H1 Ha]. apply StronglySorted_inv in H2 as [H2 Hb].
      rewrite Forall_forall in Ha, Hb.
      assert (Hab : tied a b).
      { split.
        - assert (Hin : b ∈ filter (tied b) (a :: t1))
            by (rewrite Hf, filter_cons_True by done; apply list_elem_of_here).
          apply list_elem_of_filter in Hin as [_ [->|Hin]%elem_of_cons];
            [apply Hrefl | by apply Ha].
        - assert (Hin : a ∈ filter (tied a) (b :: t2))
            by (rewrite <- Hf, filter_cons_True by done; apply list_elem_of_here).
          apply list_elem_of_filter in Hin as [_ [->|Hin]%elem_of_cons];
            [apply Hrefl | by apply Hb]. }
      pose proof (Hf a) as Hfa.
      rewrite !filter_cons_True in Hfa by done. injection Hfa as <- Hfa.
      f_equal. apply IH; [done..|]. intros z. specialize (Hf z).
      rewrite !filter_cons in Hf. by destruct (decide (tied z a)); simplify_eq. }
  intros l' Hsorted Hstable. apply Huniq; [done | apply sort_sorted |].
  intros z. by rewrite Hstable, sort_stable.
Qed.
End Sort.

Lemma StronglySorted_weaken {A} (R1 R2 : relation A) (l : list A) :
  (∀ a b, R1 a b → R2 a b) → StronglySorted R1 l → StronglySorted R2 l.
Proof.
  intros HR. induction 1 as [|a l Hl IH Ha]; constructor; [done|].
  eapply Forall_impl; [exact Ha | auto].
Qed.

End JSArrayFacts.

(** *** The batch fetchers *)

Module ApiFacts.

Import Api Scenario.

Section Runner.
Context {Item Value Result : Type}.
Context (onFulfilled : Item → Value → Result) (onRejected : Item → string → Result).

#[local] Abbreviation record := (record onFulfilled onRejected).
#[local] Abbreviation settle := (settle onFulfilled onRejected).
#[local] Abbreviation run := (run onFulfilled onRejected).
#[local] Abbreviation batch := (batch onFulfilled onRejected).
#[local] Abbreviation start := (start (Result := Result)).
#[local] Abbreviation oneResultPerItem := (oneResultPerItem onFulfilled onRejected).

Lemma iter_processNext (items : list Item) (w : nat) :
  w ≤ length items →
  Nat.iter w processNext (Pool items [] ([] : list Result))
  = Pool (drop w items) (take w items) [].
Proof.
  induction w as [|w IH]; intros Hw.
  - by rewrite drop_0, take_0.
  - rewrite Nat.iter_succ, IH by lia.
    destruct (lookup_lt_is_Some_2 items w ltac:(lia)) as [x Hx].
    unfold processNext. cbn [queue inflight results].
    by rewrite (drop_S _ _ _ Hx), (take_S_r _ _ _ Hx).
Qed.

Lemma start_negative (items : list Item) (K : Z) :
  (K < 0)%Z → start items K = None.
Proof.
  intros HK. unfold Api.start, workers, JSArray.Array_.
  destruct (Z.ltb_spec (K `min` Z.of_nat (length items)) 0); [done | lia].
Qed.

(** The workers started are [min(K, n)]: each takes one item off the
    front of the queue. *)
Lemma start_nonnegative (items : list Item) (K : Z) :
  (0 ≤ K)%Z →
  let w := Z.to_nat (K `min` Z.of_nat (length items)) in
  start items K = Some (Pool (drop w items) (take w items) []).
Proof.
  intros HK w. unfold Api.start, workers, JSArray.Array_.
  destruct (Z.ltb_spec (K `min` Z.of_nat (length items)) 0); [lia|].
  fold w. by rewrite iter_processNext by lia.
Qed.

Lemma insert_Permutation_swap (l rest : list Item) w item next :
  l !! w = Some item → item :: <[w := next]> l ++ rest ≡ₚ l ++ next :: rest.
Proof.
  revert w. induction l as [|a l IH]; intros [|w] Hw; try done; cbn in *.
  - injection Hw as ->. constructor. apply Permutation_middle.
  - rewrite Permutation_swap. constructor. by apply IH.
Qed.

Lemma settle_Some w s p p' :
  settle w s p = Some p' →
  ∃ item, inflight p !! w = Some item ∧
    results p' = results p ++ [record item s] ∧
    item :: inflight p' ++ queue p' ≡ₚ inflight p ++ queue p ∧
    length (inflight p') ≤ length (inflight p) ∧
    (busy p → busy p').
Proof.
  unfold Api.settle. destruct (inflight p !! w) as [item|] eqn:Hw; [|done].
  intros Hp'. exists item. split; [done|].
  pose proof (delete_Permutation _ _ _ Hw) as Hdel.
  pose proof (lookup_lt_Some _ _ _ Hw) as Hlt.
  destruct (queue p) as [|next rest] eqn:Hq; injection Hp' as <-;
    unfold busy; cbn [queue inflight results]; split_and!; try done.
  - rewrite !app_nil_r. by symmetry.
  - rewrite length_delete by eauto. lia.
  - by apply insert_Permutation_swap.
  - by rewrite length_insert.
  - intros _ _ Hnil. apply (f_equal length) in Hnil.
    rewrite length_insert in Hnil. cbn in Hnil. lia.
Qed.

(** A live worker's fetch can settle either way. *)
Lemma settle_live s p : inflight p ≠ [] → is_Some (settle 0 s p).
Proof.
  unfold Api.settle. destruct (inflight p) as [|item l]; [done|]. intros _. cbn.
  destruct (queue p); eauto.
Qed.

Lemma run_Some events : ∀ p p',
  run events p = Some p' →
  ∃ done, length done = length events ∧
    results p' = results p ++ zip_with record done events.*2 ∧
    done ++ inflight p' ++ queue p' ≡ₚ inflight p ++ queue p ∧
    length (inflight p') ≤ length (inflight p) ∧
    (busy p → busy p').
Proof.
  induction events as [|[w s] events IH]; intros p p' Hrun.
  - injection Hrun as <-. exists []. split_and!; try done. by rewrite app_nil_r.
  - cbn in Hrun. destruct (settle w s p) as [p1|] eqn:Hs; [|done].
    apply settle_Some in Hs as (item & _ & Hres & Hperm & Hlen & Hbusy).
    apply IH in Hrun as (done & Hd & Hres' & Hperm' & Hlen' & Hbusy').
    exists (item :: done). split_and!.
    + cbn. by rewrite Hd.
    + rewrite Hres', Hres, <- app_assoc. done.
    + cbn. by rewrite Hperm', Hperm.
    + lia.
    + auto.
Qed.

(** Everything about a run from the start of a call with at least one
    worker allowed. *)
Lemma run_from_start (items : list Item) (K : Z) events p0 p :
  (1 ≤ K)%Z → start items K = Some p0 → run events p0 = Some p →
  length events ≤ length items ∧
  (inflight p = [] ↔ length events = length items) ∧
  (Z.of_nat (length (inflight p)) ≤ K)%Z ∧
  ∃ done, length done = length events ∧
    results p = zip_with record done events.*2 ∧
    done ++ inflight p ++ queue p ≡ₚ items.
Proof.
  intros HK Hstart Hrun.
  rewrite start_nonnegative in Hstart by lia. injection Hstart as <-.
  remember (Z.to_nat (K `min` Z.of_nat (length items))) as w eqn:Hw.
  apply run_Some in Hrun as (done & Hd & Hres & Hperm & Hlen & Hbusy).
  cbn [queue inflight results] in *. rewrite take_drop in Hperm.
  assert (Hb : busy p).
  { apply Hbusy. intros Hq Ht. cbn [queue inflight] in *.
    apply (f_equal length) in Ht. rewrite length_take in Ht. cbn in Ht.
    apply Hq, nil_length_inv. rewrite length_drop. lia. }
  pose proof (Permutation_length Hperm) as Hl. rewrite !length_app in Hl.
  rewrite length_take in Hlen.
  split_and!.
  - lia.
  - split.
    + intros Hnil. destruct (queue p) eqn:Hq.
      * rewrite Hnil in Hl. cbn in Hl. lia.
      * exfalso. apply Hb; [by rewrite Hq | done].
    + intros He. apply nil_length_inv. lia.
  - lia.
  - by exists done.
Qed.

(** The call returns exactly when every item's fetch has settled. *)
Lemma batch_Returned (items : list Item) (K : Z) events rs :
  (1 ≤ K)%Z → batch items K events = Returned rs →
  length events = length items ∧
  ∃ done, done ≡ₚ items ∧ rs = zip_with record done events.*2.
Proof.
  intros HK. unfold Api.batch.
  destruct (start items K) as [p0|] eqn:Hstart; [|done].
  destruct (run events p0) as [[q i r]|] eqn:Hrun; [|done].
  destruct i; [|done]. intros [= <-].
  destruct (run_from_start _ _ _ _ _ HK Hstart Hrun)
    as (_ & Hend & _ & done & Hd & Hres & Hperm).
  cbn [queue inflight results] in *.
  assert (He : length events = length items) by by apply Hend.
  split; [done|]. exists done. split; [|done].
  assert (q = []) as ->.
  { apply nil_length_inv. apply Permutation_length in Hperm.
    rewrite length_app in Hperm. cbn in Hperm. lia. }
  by rewrite app_nil_r in Hperm.
Qed.

(** Whatever the fetches come to, the call returns: letting the fetch of
    the first live worker settle each time is one schedule that does. *)
Lemma run_settlements (settlements : list (settled Value)) : ∀ p,
  busy p → length settlements = length (inflight p ++ queue p) →
  ∃ p', run ((0%nat,.) <$> settlements) p = Some p' ∧ inflight p' = [].
Proof.
  induction settlements as [|s ss IH]; intros p Hb Hlen.
  - exists p. split; [done|]. cbn in Hlen. symmetry in Hlen.
    apply nil_length_inv in Hlen. by destruct (inflight p).
  - assert (Hlive : inflight p ≠ []).
    { intros Hnil. destruct (queue p) eqn:Hq.
      - rewrite Hnil in Hlen. done.
      - apply Hb; [by rewrite Hq | done]. }
    destruct (settle_live s p Hlive) as [p1 Hs].
    pose proof (settle_Some _ _ _ _ Hs) as (item & _ & _ & Hperm & _ & Hb1).
    destruct (IH p1 (Hb1 Hb)) as (p' & Hrun & Hnil).
    { apply Permutation_length in Hperm. cbn in Hperm, Hlen. lia. }
    exists p'. split; [|done]. cbn. by rewrite Hs.
Qed.

Lemma batch_returns (items : list Item) (K : Z) (settlements : list (settled Value)) :
  (1 ≤ K)%Z → length settlements = length items →
  ∃ rs, batch items K ((0%nat,.) <$> settlements) = Returned rs.
Proof.
  intros HK Hlen. unfold Api.batch.
  rewrite start_nonnegative by lia.
  remember (Z.to_nat (K `min` Z.of_nat (length items))) as w eqn:Hw.
  destruct (run_settlements settlements (Pool (drop w items) (take w items) []))
    as (p' & Hrun & Hnil).
  - intros Hq Ht. cbn [queue inflight] in *.
    apply (f_equal length) in Ht. rewrite length_take in Ht. cbn in Ht.
    apply Hq, nil_length_inv. rewrite length_drop. lia.
  - cbn [queue inflight]. by rewrite take_drop.
  - rewrite Hrun. destruct p' as [q i r]. cbn in Hnil. subst i. by exists r.
Qed.

(** Every returned record is about an item of the queue, whatever [K]. *)
Lemma batch_Returned_elem (items : list Item) (K : Z) events rs r :
  batch items K events = Returned rs → r ∈ rs →
  ∃ item s, item ∈ items ∧ r = record item s.
Proof.
  unfold Api.batch. destruct (Z.lt_ge_cases K 0) as [HK|HK].
  { by rewrite start_negative. }
  rewrite start_nonnegative by done.
  destruct (run events _) as [[q i res]|] eqn:Hrun; [|done].
  destruct i; [|done]. intros [= <-] Hr.
  apply run_Some in Hrun as (done & _ & Hres & Hperm & _).
  cbn [queue inflight results] in *. rewrite take_drop in Hperm. subst res.
  apply elem_of_zip_with in Hr as (item & s & -> & Hitem & _).
  exists item, s. split; [|done]. rewrite <- Hperm. set_solver.
Qed.

Lemma oneResultPerItem_holds (items : list Item) (K : Z) :
  (1 ≤ K)%Z → oneResultPerItem items K.
Proof.
  intros HK. split_and!.
  - intros settlements Hlen. by apply batch_returns.
  - intros events p0 p Hstart Hrun.
    destruct (run_from_start _ _ _ _ _ HK Hstart Hrun) as (Hle & Hend & Hk & _).
    split_and!; try done. intros Hlive s. by apply settle_live.
  - intros events rs Hret.
    destruct (batch_Returned _ _ _ _ HK Hret) as (Hlen & done & Hperm & ->).
    split; [|by exists done].
    rewrite length_zip_with, length_fmap, (Permutation_length Hperm). lia.
Qed.

(** A run, step by step: the item recorded at a step is the one that
    the settling worker held when its fetch settled. *)
Lemma run_trace events : ∀ p p',
  run events p = Some p' →
  ∃ done, length done = length events ∧
    results p' = results p ++ zip_with record done events.*2 ∧
    done ++ inflight p' ++ queue p' ≡ₚ inflight p ++ queue p ∧
    ∀ k w s, events !! k = Some (w, s) →
      ∃ pk item, run (take k events) p = Some pk ∧
        inflight pk !! w = Some item ∧ done !! k = Some item.
Proof.
  induction events as [|[w s] events IH]; intros p p' Hrun.
  - injection Hrun as <-. exists []. split_and!; try done. by rewrite app_nil_r.
  - cbn in Hrun. destruct (settle w s p) as [p1|] eqn:Hs; [|done].
    pose proof (settle_Some _ _ _ _ Hs) as (item & Hitem & Hres & Hperm & _ & _).
    apply IH in Hrun as (done & Hd & Hres' & Hperm' & Htrace).
    exists (item :: done). split_and!.
    + cbn. by rewrite Hd.
    + rewrite Hres', Hres, <- app_assoc. done.
    + cbn. by rewrite Hperm', Hperm.
    + intros [|k] w' s' Hk.
      * injection Hk as <- <-. exists p, item. by rewrite take_0.
      * destruct (Htrace k w' s' Hk) as (pk & item' & Hrun' & Hin & Hdone).
        exists pk, item'. split_and!; [|done|done].
        cbn [take Api.run]. by rewrite Hs.
Qed.

Lemma ownFetchRecorded_holds (recordOf : Item → settled Value → Result → Prop)
    (items : list Item) (K : Z) :
  (1 ≤ K)%Z → (∀ item s, recordOf item s (record item s)) →
  ownFetchRecorded onFulfilled onRejected recordOf items K.
Proof.
  intros HK Hrecord events rs p0 Hstart. unfold Api.batch. rewrite Hstart.
  destruct (run events p0) as [[q i r]|] eqn:Hrun; [|done].
  destruct i; [|done]. intros [= <-].
  destruct (run_from_start _ _ _ _ _ HK Hstart Hrun) as (_ & Hend & _ & _).
  cbn [inflight] in Hend. assert (length events = length items) as He by by apply Hend.
  apply run_trace in Hrun as (done & Hd & Hres & Hperm & Htrace).
  rewrite start_nonnegative in Hstart by lia. injection Hstart as <-.
  cbn [queue inflight results] in *. rewrite take_drop in Hperm.
  assert (q = []) as ->.
  { apply nil_length_inv. apply Permutation_length in Hperm.
    rewrite length_app in Hperm. cbn in Hperm. lia. }
  rewrite app_nil_r in Hperm. rewrite app_nil_l in Hres. subst r.
  exists done. split_and!; [done|done| |].
  - rewrite length_zip_with, length_fmap. lia.
  - intros k w s Hk. destruct (Htrace k w s Hk) as (pk & item & Hrun & Hin & Hdone).
    exists pk, item, (record item s). split_and!; try done.
    rewrite lookup_zip_with, Hdone, list_lookup_fmap, Hk. done.
Qed.

Lemma batch_no_worker (items : list Item) :
  batch items 0 [] = Returned [] ∧
  ∀ e events, batch items 0 (e :: events) = Unsettled.
Proof.
  unfold Api.batch. rewrite start_nonnegative by lia.
  replace (Z.to_nat (0 `min` Z.of_nat (length items))) with 0%nat by lia.
  rewrite drop_0, take_0. split; [done|]. by intros [w s] events.
Qed.

Lemma batch_RangeError (items : list Item) (K : Z) events :
  (K < 0)%Z → batch items K events = RangeError.
Proof. intros HK. unfold Api.batch. by rewrite start_negative. Qed.
End Runner.

(** What the [try] and [catch] branches push is the record of the item
    and of what its fetch came to. *)
Lemma showtimeRecordOf_record theatre s :
  showtimeRecordOf theatre s (record showtimeFulfilled showtimeRejected theatre s).
Proof. by destruct s. Qed.

Lemma seatRecordOf_record showtime s :
  seatRecordOf showtime s (record seatFulfilled seatRejected showtime s).
Proof. by destruct s. Qed.



(** Two theatres, one worker allowed: the first fetch is rejected, the
    second fulfilled, and both records are returned. *)
Example batch_failure_does_not_stop_others :
  fetchShowtimesForTheatres [exampleTheatre 100; exampleTheatre 200] 1
    [(0%nat, Rejected "HTTP 502"); (0%nat, Fulfilled [])]
  = Returned [showtimeRejected (exampleTheatre 100) "HTTP 502";
              showtimeFulfilled (exampleTheatre 200) []].
Proof. reflexivity. Qed.

(** Two theatres, two workers: the fetch of the second theatre is
    rejected first, then that of the first is fulfilled.  The failure is
    recorded with the second theatre, the success with the first. *)
Example batch_failure_goes_with_its_item :
  fetchShowtimesForTheatres [exampleTheatre 100; exampleTheatre 200] 5
    [(1%nat, Rejected "HTTP 502"); (0%nat, Fulfilled [])]
  = Returned [ShowtimeResult.mk (exampleTheatre 200) None (Some "HTTP 502") false;
              ShowtimeResult.mk (exampleTheatre 100) (Some []) None true].
Proof. reflexivity. Qed.



End ApiFacts.

(** *** The pipeline of [loadTheatresAndShowtimes] *)

Module AppFacts.

Import Api App Scenario.

(** **** Theatres: each id once, the first one met *)

Lemma firstWithId_app id l1 l2 :
  firstWithId id (l1 ++ l2)
  = match firstWithId id l1 with
    | Some theatre => Some theatre
    | None => firstWithId id l2
    end.
Proof. induction l1 as [|t l1 IH]; [done|]. cbn. by case_decide. Qed.

Lemma firstWithId_None id l : firstWithId id l = None ↔ id ∉ theatreIds l.
Proof.
  unfold theatreIds. induction l as [|t l IH]; cbn.
  - split; [intros _; apply not_elem_of_nil | done].
  - rewrite not_elem_of_cons. case_decide as Hid.
    + split; [done | intros [? _]; congruence].
    + rewrite IH. split; [intros ?; split; [congruence | done] | tauto].
Qed.

Lemma addTheatre_spec st theatre rest id :
  seenInv st →
  seenInv (addTheatre st theatre) ∧
  firstWithId id ((addTheatre st theatre).1 ++ rest)
  = firstWithId id (st.1 ++ theatre :: rest).
Proof.
  destruct st as [all seen]. intros [Hseen Hnodup]. cbn in *. unfold addTheatre. cbn.
  destruct (decide (Theatre.theatreId theatre ∈ seen)) as [Hin|Hnin]; cbn.
  - split; [done|]. rewrite !firstWithId_app.
    destruct (firstWithId id all) eqn:Hf; [done|]. cbn.
    case_decide as Hid; [|done]. subst id.
    apply firstWithId_None in Hf. by apply Hseen in Hin.
  - split; [|by rewrite <- app_assoc]. unfold seenInv, theatreIds in *. cbn. split.
    + intros id'. rewrite fmap_app, elem_of_app, elem_of_union, Hseen. cbn.
      rewrite elem_of_singleton, list_elem_of_singleton. tauto.
    + rewrite fmap_app. cbn. apply NoDup_app. split_and!; [done| |apply NoDup_singleton].
      intros id' Hid' ->%list_elem_of_singleton. by apply Hnin, Hseen.
Qed.

Lemma foldl_addTheatre_spec theatres : ∀ st id,
  seenInv st →
  seenInv (foldl addTheatre st theatres) ∧
  firstWithId id (foldl addTheatre st theatres).1 = firstWithId id (st.1 ++ theatres).
Proof.
  induction theatres as [|t ts IH]; intros st id Hinv; cbn.
  - by rewrite app_nil_r.
  - destruct (addTheatre_spec st t ts id Hinv) as [Hinv' Hfirst].
    destruct (IH _ id Hinv') as [Hinv'' Hfirst'']. split; [done|].
    rewrite Hfirst''. destruct (addTheatre_spec st t ts id Hinv) as [_ ->]. done.
Qed.

Lemma foldl_addArea_spec lookups : ∀ st id,
  seenInv st →
  seenInv (foldl addArea st lookups) ∧
  firstWithId id (foldl addArea st lookups).1
  = firstWithId id (st.1 ++ returnedTheatres lookups).
Proof.
  induction lookups as [|lookup lookups IH]; intros st id Hinv.
  - cbn. by rewrite app_nil_r.
  - cbn [foldl]. unfold returnedTheatres. rewrite bind_cons.
    fold (returnedTheatres lookups).
    assert (Harea : seenInv (addArea st lookup) ∧ ∀ id',
      firstWithId id' (addArea st lookup).1
      = firstWithId id' (st.1 ++ match lookup with
                                 | Fulfilled theatreData =>
                                     default [] (nearbyTheatres theatreData)
                                 | Rejected _ => []
                                 end)).
    { destruct lookup as [theatreData|message]; cbn.
      - split; [by apply (foldl_addTheatre_spec _ st id)|].
        intros id'. by apply foldl_addTheatre_spec.
      - split; [done|]. intros. by rewrite app_nil_r. }
    destruct Harea as [Hinv' Hfirst].
    destruct (IH _ id Hinv') as [Hinv'' ->]. split; [done|].
    rewrite app_assoc, !(firstWithId_app _ _ (returnedTheatres lookups)).
    by rewrite Hfirst.
Qed.

(** C9.  For every sequence of per-area lookup results, the merged theatre
    list holds each theatre id returned by a fulfilled lookup exactly once,
    and the theatre kept for an id is the first one with that id in the
    order in which the areas are processed. *)
Theorem theatres_deduplicated (lookups : list (settled TheatreLookup)) :
  NoDup (theatreIds (locateTheatres lookups)) ∧
  (∀ id, id ∈ theatreIds (locateTheatres lookups)
         ↔ id ∈ theatreIds (returnedTheatres lookups)) ∧
  (∀ id, firstWithId id (locateTheatres lookups)
         = firstWithId id (returnedTheatres lookups)).
Proof.
  assert (Hinit : seenInv ([], ∅)).
  { split; [|constructor]. intros id. cbn. set_solver. }
  assert (Hfirst : ∀ id, firstWithId id (locateTheatres lookups)
                         = firstWithId id (returnedTheatres lookups)).
  { intros id. unfold locateTheatres.
    by destruct (foldl_addArea_spec lookups _ id Hinit) as [_ ->]. }
  split_and!; [|intros id|done].
  - unfold locateTheatres.
    by destruct (foldl_addArea_spec lookups _ 0%N Hinit) as [[_ ?] _].
  - specialize (Hfirst id).
    destruct (decide (id ∈ theatreIds (locateTheatres lookups))) as [H1|H1],
             (decide (id ∈ theatreIds (returnedTheatres lookups))) as [H2|H2];
      try tauto; exfalso.
    + apply firstWithId_None in H2. rewrite H2 in Hfirst.
      by apply firstWithId_None in Hfirst.
    + apply firstWithId_None in H1. rewrite H1 in Hfirst. symmetry in Hfirst.
      by apply firstWithId_None in Hfirst.
Qed.

(** The scenario of the specification: two areas both return theatre 100,
    the second one under another name, together with theatre 200; a third
    lookup fails. *)
Example theatres_deduplicated_scenario :
  locateTheatres
    [Fulfilled (mkTheatreLookup (Some [Theatre.mk 100 "X"]));
     Rejected "HTTP 502";
     Fulfilled (mkTheatreLookup (Some [Theatre.mk 100 "Y"; Theatre.mk 200 "Z"]));
     Fulfilled (mkTheatreLookup None)]
  = [Theatre.mk 100 "X"; Theatre.mk 200 "Z"].
Proof. vm_compute. reflexivity. Qed.

(** **** Sessions as the collector makes them *)

Lemma collectSessions_notEnriched showtimeResults session :
  session ∈ collectSessions showtimeResults → notEnriched session.
Proof.
  unfold collectSessions, flattenTheatre. intros H.
  apply list_elem_of_bind in H as (result & H & _).
  destruct (ShowtimeResult.success result), (ShowtimeResult.showtimes result);
    try by apply elem_of_nil in H.
  repeat (apply list_elem_of_bind in H as (? & H & _)).
  apply list_elem_of_singleton in H as ->. done.
Qed.

(** **** The key of the seat lookup *)

Lemma pretty_N_go_dashFree x : ∀ s, dashFree s → dashFree (pretty_N_go x s).
Proof.
  induction (N.lt_wf_0 x) as [x _ IH]. intros s Hs.
  destruct (decide (x = 0%N)) as [->|Hx]; [by rewrite pretty_N_go_0|].
  rewrite pretty_N_go_step by lia. apply IH.
  - apply N.div_lt; lia.
  - cbn. unfold pretty_N_char. by repeat case_match.
Qed.

Lemma pretty_N_dashFree (x : N) : dashFree (pretty x).
Proof.
  unfold pretty, pretty_N. case_decide; [done|]. by apply pretty_N_go_dashFree.
Qed.

Lemma dash_split s1 : ∀ s2 t1 t2,
  dashFree s1 → dashFree s2 →
  s1 +:+ "-" +:+ t1 = s2 +:+ "-" +:+ t2 → s1 = s2 ∧ t1 = t2.
Proof.
  induction s1 as [|c1 s1 IH]; intros [|c2 s2] t1 t2 H1 H2 Heq; cbn in *.
  - by injection Heq.
  - injection Heq as <- _. by case_decide.
  - injection Heq as -> _. by case_decide.
  - injection Heq as -> Heq. case_decide; [done|].
    destruct (IH _ _ _ H1 H2 Heq) as [-> ->]. done.
Qed.

(** Two keys agree only for the same theatre and the same session. *)
Lemma seatKey_inj t1 s1 t2 s2 :
  seatKey t1 s1 = seatKey t2 s2 → t1 = t2 ∧ s1 = s2.
Proof.
  unfold seatKey. intros H.
  apply dash_split in H as [Ht Hs]; try apply pretty_N_dashFree.
  split; by apply (inj pretty).
Qed.

(** **** Seat enrichment *)

Lemma foldl_addSeatData_lookup seatResults : ∀ m key seatData,
  foldl addSeatData m seatResults !! key = Some seatData →
  m !! key = Some seatData ∨
  ∃ result, result ∈ seatResults ∧
    key = seatKey (SeatResult.theatreId result) (SeatResult.showtimeId result).
Proof.
  induction seatResults as [|r rs IH]; intros m key seatData H; [by left|].
  cbn in H. apply IH in H as [H | (result & Hin & ->)].
  - unfold addSeatData in H.
    destruct (SeatResult.success r), (SeatResult.seatData r); try by left.
    destruct (decide
      (seatKey (SeatResult.theatreId r) (SeatResult.showtimeId r) = key)) as [<-|Hne].
    + right. exists r. split; [apply list_elem_of_here | done].
    + rewrite lookup_insert_ne in H by done. by left.
  - right. exists result. split; [by apply list_elem_of_further | done].
Qed.

(** A key of the seat lookup is the key of a record in [seatResults]. *)
Lemma seatDataMap_lookup seatResults key seatData :
  seatDataMap seatResults !! key = Some seatData →
  ∃ result, result ∈ seatResults ∧
    key = seatKey (SeatResult.theatreId result) (SeatResult.showtimeId result).
Proof.
  intros H. apply foldl_addSeatData_lookup in H as [H|H]; [|done].
  by rewrite lookup_empty in H.
Qed.

(** A session is either left as it is or gets all four properties. *)
Lemma enrichSession_cases m session :
  (m !! seatKey (Session.theatreId session) (Session.vistaSessionId session) = None
   ∧ enrichSession m session = session) ∨
  (is_Some (m !! seatKey (Session.theatreId session) (Session.vistaSessionId session))
   ∧ fullyEnriched (enrichSession m session)).
Proof.
  unfold enrichSession.
  destruct (m !! seatKey _ _) as [seatData|]; [right | by left].
  split; [by eexists|]. unfold fullyEnriched; cbn. split_and!; by eexists.
Qed.

(** C7.  After enrichment every session of the full list has its four
    occupancy properties either all present or all absent, whichever
    sessions were fetched and whatever the fetches came to. *)
Theorem sessions_all_or_none
    (showtimeResults : list ShowtimeResult.t) (seatResults : list SeatResult.t) :
  Forall (λ session, fullyEnriched session ∨ notEnriched session)
    (enrichSessions seatResults (collectSessions showtimeResults)).
Proof.
  unfold enrichSessions. apply Forall_fmap, Forall_forall. intros session Hin. cbn.
  destruct (enrichSession_cases (seatDataMap seatResults) session)
    as [[_ ->] | [_ Hfull]]; [right | by left].
  by eapply collectSessions_notEnriched.
Qed.

Lemma byShowtime_total a b :
  JSArray.before byShowtime a b ∨ JSArray.before byShowtime b a.
Proof. unfold JSArray.before, byShowtime. lia. Qed.

Lemma byShowtime_trans a b c :
  JSArray.before byShowtime a b → JSArray.before byShowtime b c →
  JSArray.before byShowtime a c.
Proof. unfold JSArray.before, byShowtime. lia. Qed.

(** [sortedSessions] is the stable arrangement by start time. *)
Lemma sortedSessions_spec allSessions :
  sortedSessions allSessions ≡ₚ allSessions ∧
  StronglySorted startsNoLater (sortedSessions allSessions) ∧
  ∀ t, filter (λ s, Session.showStartDateTime s = t) (sortedSessions allSessions)
       = filter (λ s, Session.showStartDateTime s = t) allSessions.
Proof.
  unfold sortedSessions. split_and!.
  - apply JSArrayFacts.sort_Permutation.
  - eapply JSArrayFacts.StronglySorted_weaken;
      [|exact (JSArrayFacts.sort_sorted byShowtime byShowtime_total byShowtime_trans _)].
    intros a b. unfold JSArray.before, byShowtime, startsNoLater. lia.
  - intros t.
    destruct (decide (Exists (λ z, Session.showStartDateTime z = t) allSessions))
      as [(z & _ & Hz)%Exists_exists|Hno].
    + pose proof (JSArrayFacts.sort_stable byShowtime byShowtime_trans z allSessions) as H.
      etrans; [|etrans; [exact H|]]; apply list_filter_iff; intros s;
        unfold JSArray.tied, JSArray.before, byShowtime; lia.
    + assert (Hnone : ∀ l, l ≡ₚ allSessions →
                filter (λ s, Session.showStartDateTime s = t) l = []).
      { intros l Hl.
        destruct (filter _ l) as [|s l'] eqn:E; [done|]. exfalso.
        assert (Hs : s ∈ filter (λ s, Session.showStartDateTime s = t) l)
          by (rewrite E; apply list_elem_of_here).
        apply list_elem_of_filter in Hs as [Ht Hs].
        apply Hno, Exists_exists. exists s. by rewrite <- Hl. }
      rewrite !Hnone; [done..|]. apply JSArrayFacts.sort_Permutation.
Qed.

(** Every record returned by the seat batch is about a session of the
    queue. *)
Lemma seatResults_from_queue showtimes concurrency events seatResults result :
  fetchSeatAvailabilityBatch showtimes concurrency events = Returned seatResults →
  result ∈ seatResults →
  ∃ fetched, fetched ∈ showtimes ∧
    SeatResult.theatreId result = Session.theatreId fetched ∧
    SeatResult.showtimeId result = Session.vistaSessionId fetched.
Proof.
  intros Hret Hin.
  destruct (ApiFacts.batch_Returned_elem _ _ _ _ _ _ _ Hret Hin)
    as (fetched & s & Hf & ->).
  exists fetched. split; [done|]. by destruct s.
Qed.

(** A session whose ids are those of no fetched session is left as it is. *)
Lemma enrichSession_outside showtimes concurrency events seatResults session :
  fetchSeatAvailabilityBatch showtimes concurrency events = Returned seatResults →
  (∀ fetched, fetched ∈ showtimes → ¬ sameSession fetched session) →
  enrichSession (seatDataMap seatResults) session = session.
Proof.
  intros Hret Hout.
  destruct (enrichSession_cases (seatDataMap seatResults) session)
    as [[_ ->] | [[seatData Hsome] _]]; [done|].
  apply seatDataMap_lookup in Hsome as (result & Hin & Hkey).
  apply seatKey_inj in Hkey as [Ht Hs].
  destruct (seatResults_from_queue _ _ _ _ _ Hret Hin) as (fetched & Hf & Ht' & Hs').
  destruct (Hout fetched Hf). split; congruence.
Qed.

Lemma NoDup_fmap_eq {A B} (f : A → B) (l : list A) x y :
  NoDup (f <$> l) → x ∈ l → y ∈ l → f x = f y → x = y.
Proof.
  induction l as [|a l IH]; [by intros _ ?%elem_of_nil|].
  rewrite fmap_cons, NoDup_cons, !elem_of_cons.
  intros [Ha Hl] [->|Hx] [->|Hy] Hf; [done| | |by apply IH].
  - destruct Ha. rewrite Hf. by apply list_elem_of_fmap_2.
  - destruct Ha. rewrite <- Hf. by apply list_elem_of_fmap_2.
Qed.

Lemma subset_subseteq (cap : nat) allSessions session :
  session ∈ take cap (sortedSessions allSessions) → session ∈ allSessions.
Proof.
  unfold sortedSessions. intros H.
  rewrite <- (JSArrayFacts.sort_Permutation byShowtime allSessions).
  by eapply subseteq_take.
Qed.

(** C5, as the code has it.  The priority subset is made of the first
    [cap] entries (200 in [loadTheatresAndShowtimes]) of the flat session
    list stably sorted by start time, soonest first.  Once the seat batch
    has returned, whatever its fetches came to, an entry whose theatre and
    session ids are those of no entry of the subset is exactly as the
    collector made it, without any occupancy property; where the ids are
    pairwise distinct this holds for every entry of the list outside the
    subset. *)
Theorem enrichment_within_priority_subset
    (showtimeResults : list ShowtimeResult.t) (cap : nat) (concurrency : Z)
    (events : list (nat * settled SeatData.t)) (seatResults : list SeatResult.t) :
  let allSessions := collectSessions showtimeResults in
  let subset := take cap (sortedSessions allSessions) in
  fetchSeatAvailabilityBatch subset concurrency events = Returned seatResults →
  (sortedSessions allSessions ≡ₚ allSessions ∧
   StronglySorted startsNoLater (sortedSessions allSessions) ∧
   ∀ t, filter (λ s, Session.showStartDateTime s = t) (sortedSessions allSessions)
        = filter (λ s, Session.showStartDateTime s = t) allSessions) ∧
  (sessionsToFetch allSessions = take 200 (sortedSessions allSessions) ∧
   length subset ≤ cap) ∧
  (∀ i session,
     allSessions !! i = Some session →
     (∀ fetched, fetched ∈ subset → ¬ sameSession fetched session) →
     enrichSessions seatResults allSessions !! i = Some session ∧ notEnriched session) ∧
  (NoDup (sessionIds <$> allSessions) →
   ∀ i session,
     allSessions !! i = Some session →
     session ∉ subset →
     enrichSessions seatResults allSessions !! i = Some session ∧ notEnriched session).
Proof.
  intros allSessions subset Hret.
  assert (Hout : ∀ i session,
     allSessions !! i = Some session →
     (∀ fetched, fetched ∈ subset → ¬ sameSession fetched session) →
     enrichSessions seatResults allSessions !! i = Some session ∧ notEnriched session).
  { intros i session Hi Hno. split.
    - unfold enrichSessions. rewrite list_lookup_fmap, Hi. cbn.
      by rewrite (enrichSession_outside _ _ _ _ _ Hret Hno).
    - eapply collectSessions_notEnriched, list_elem_of_lookup_2, Hi. }
  split; [apply sortedSessions_spec|].
  split; [split; [done | unfold subset; rewrite length_take; lia]|].
  split; [done|].
  intros Hnodup i session Hi Hnot. apply Hout; [done|].
  intros fetched Hf [Ht Hs]. apply Hnot.
  assert (fetched = session) as <-; [|done].
  apply (NoDup_fmap_eq sessionIds allSessions); [done| | |].
  - by eapply subset_subseteq.
  - by eapply list_elem_of_lookup_2.
  - unfold sessionIds. by rewrite Ht, Hs.
Qed.

Lemma enrichment_within_priority_subset_witness :
  let allSessions := collectSessions (scenarioShowtimes 250) in
  let subset := take 200 (sortedSessions allSessions) in
  fetchSeatAvailabilityBatch subset 15 scenarioSeatEvents
  = Returned scenarioSeatResults ∧
  ∃ session,
    allSessions !! 0%nat = Some session ∧
    Forall (λ fetched, ¬ sameSession fetched session) subset ∧
    enrichSessions scenarioSeatResults allSessions !! 0%nat = Some session ∧
    notEnriched session.
Proof.
  intros allSessions subset.
  assert (Hret : fetchSeatAvailabilityBatch subset 15 scenarioSeatEvents
                 = Returned scenarioSeatResults)
    by (vm_compute; reflexivity).
  split; [exact Hret|].
  destruct (enrichment_within_priority_subset
              (scenarioShowtimes 250) 200 15 scenarioSeatEvents scenarioSeatResults Hret)
    as (_ & _ & Hout & _).
  fold allSessions subset in Hout.
  eexists. split; [vm_compute; reflexivity|].
  assert (Hno : Forall (λ fetched,
                   ¬ sameSession fetched (exampleSession 1 100 0 250)) subset).
  { apply (bool_decide_unpack _). vm_compute. reflexivity. }
  split; [exact Hno|].
  apply Hout; [vm_compute; reflexivity|].
  intros fetched Hf. by eapply Forall_forall in Hno.
Defined.

(** The merge goes by theatre and session id, not by entry.  Of 201
    entries starting at the same time the first 200, all of the IMAX
    experience, are fetched; the last entry, the 3D listing of session 1,
    is outside the subset and yet receives the seat data fetched for the
    IMAX listing of that session. *)
Lemma entry_outside_subset_enriched :
  let allSessions := collectSessions duplicateShowtimes in
  length allSessions = 201%nat ∧
  fetchSeatAvailabilityBatch (sessionsToFetch allSessions) 15 scenarioSeatEvents
  = Returned duplicateSeatResults ∧
  Forall (λ s, Session.experienceTypes s = ["IMAX"]) (sessionsToFetch allSessions) ∧
  (λ s, (Session.vistaSessionId s, Session.experienceTypes s))
    <$> allSessions !! 200%nat = Some (1%N, ["3D"]) ∧
  (λ s, (Session.vistaSessionId s, Session.experienceTypes s,
         Session.totalSeats s, Session.occupancyPercentage s))
    <$> enrichSessions duplicateSeatResults allSessions !! 200%nat
  = Some (1%N, ["3D"], Some 100%Z, Some 50%Z).
Proof.
  split_and!; try (vm_compute; reflexivity).
  apply (bool_decide_unpack _). vm_compute. reflexivity.
Qed.

(** In that scenario the 200 soonest sessions are enriched and the 50
    latest ones, in front of the flat list, are not. *)
Example enrichment_scenario_250 :
  let enriched :=
    enrichSessions scenarioSeatResults (collectSessions (scenarioShowtimes 250)) in
  length enriched = 250%nat ∧
  Session.occupancyPercentage <$> take 50 enriched = replicate 50 None ∧
  Session.occupancyPercentage <$> drop 50 enriched = replicate 200 (Some 50%Z).
Proof. vm_compute. done. Qed.

(** **** Occupancy metrics of a movie *)

Section Reduce.
Context (property : Session.t → option Z).

(** [filter] on a property being present, then [reduce] adding it up, is
    the sum of the property over the sessions that have it. *)
Lemma foldl_filter_sum (l : list Session.t) : ∀ acc,
  foldl (λ sum s, sum + default 0 (property s))%Z acc
    (filter (λ s, property s ≠ None) l)
  = (acc + sumZ (omap property l))%Z.
Proof.
  induction l as [|s l IH]; intros acc; [cbn; lia|].
  rewrite filter_cons. cbn [omap list_omap]. destruct (property s) as [x|] eqn:Hs.
  - rewrite decide_True by done. cbn [foldl]. rewrite IH, Hs. unfold sumZ. cbn. lia.
  - rewrite decide_False by (by intros []). apply IH.
Qed.

Lemma length_filter_omap (l : list Session.t) :
  length (filter (λ s, property s ≠ None) l) = length (omap property l).
Proof.
  induction l as [|s l IH]; [done|]. rewrite filter_cons. cbn [omap list_omap].
  destruct (property s) as [x|] eqn:Hs.
  - rewrite decide_True by done. cbn [length]. by rewrite IH.
  - by rewrite decide_False by (by intros []).
Qed.

Lemma omap_nil_iff (l : list Session.t) :
  omap property l = [] ↔ ∀ s, s ∈ l → property s = None.
Proof.
  induction l as [|s l IH]; cbn.
  - split; [by intros _ ? ?%elem_of_nil | done].
  - destruct (property s) as [x|] eqn:Hs.
    + split; [done|]. intros H. specialize (H s (list_elem_of_here _ _)). congruence.
    + rewrite IH. split.
      * intros H s' [->|?]%elem_of_cons; auto.
      * intros H s' Hs'. apply H. by apply list_elem_of_further.
Qed.
End Reduce.

Lemma averageOccupancy_unfold showtimes :
  averageOccupancy showtimes
  = match occupancyData showtimes with
    | [] => None
    | _ :: _ =>
        Some (JSNumber.Math_round
                (JSNumber.Number_div
                   (inject_Z (sumZ (occupancyData showtimes)))
                   (inject_Z (Z.of_nat (length (occupancyData showtimes))))))
    end.
Proof.
  unfold averageOccupancy, occupancyData.
  rewrite foldl_filter_sum, length_filter_omap, Z.add_0_l.
  by destruct (omap Session.occupancyPercentage showtimes).
Qed.

Lemma sumZ_bounds (l : list Z) :
  Forall (λ p, 0 ≤ p ≤ 100)%Z l → (0 ≤ sumZ l ≤ 100 * Z.of_nat (length l))%Z.
Proof.
  induction 1 as [|p l Hp Hl IH]; [cbn; lia|].
  unfold sumZ in *. cbn [foldr length]. lia.
Qed.

(** C2.  For every movie group, [averageOccupancy] is undefined if and
    only if no session of the group carries occupancy data; otherwise it
    is [Math.round] of the sum divided by the count, both taken over
    exactly the sessions that carry data, which (for percentages between 0
    and 100, as the backend computes them, and a group an array can hold)
    is an integer nearest to their arithmetic mean. *)
Theorem average_occupancy (showtimes : list Session.t) :
  let data := occupancyData showtimes in
  (averageOccupancy showtimes = None
   ↔ ∀ s, s ∈ showtimes → Session.occupancyPercentage s = None) ∧
  (data ≠ [] →
   averageOccupancy showtimes
   = Some (JSNumber.Math_round
             (JSNumber.Number_div (inject_Z (sumZ data))
                (inject_Z (Z.of_nat (length data)))))) ∧
  (data ≠ [] →
   Forall (λ p, 0 ≤ p ≤ 100)%Z data →
   (Z.of_nat (length showtimes) < 2 ^ 32)%Z →
   ∃ average,
     averageOccupancy showtimes = Some average ∧
     JSNumber.nearest average (sumZ data) (Z.of_nat (length data))).
Proof.
  intros data. rewrite averageOccupancy_unfold. fold data.
  assert (Hn : length data ≤ length showtimes).
  { unfold data, occupancyData. rewrite <- length_filter_omap. apply length_filter. }
  assert (Hnil : data = [] ↔ ∀ s, s ∈ showtimes → Session.occupancyPercentage s = None)
    by apply omap_nil_iff.
  clearbody data. split_and!.
  - rewrite <- Hnil. by destruct data.
  - intros Hne. by destruct data.
  - intros Hne Hrange Hlen. pose proof (sumZ_bounds data Hrange) as Hsum.
    eexists. split; [by destruct data|].
    assert (0 < length data) by (destruct data; [done | cbn; lia]).
    apply JSNumberFacts.mean_round; lia.
Qed.

Lemma average_occupancy_witness :
  occupancyData scenarioMovieA ≠ [] ∧
  Forall (λ p, 0 ≤ p ≤ 100)%Z (occupancyData scenarioMovieA) ∧
  (Z.of_nat (length scenarioMovieA) < 2 ^ 32)%Z ∧
  ∃ average,
    averageOccupancy scenarioMovieA = Some average ∧
    JSNumber.nearest average (sumZ (occupancyData scenarioMovieA))
      (Z.of_nat (length (occupancyData scenarioMovieA))).
Proof.
  assert (H0 : occupancyData scenarioMovieA ≠ []) by (vm_compute; discriminate).
  assert (H1 : Forall (λ p, 0 ≤ p ≤ 100)%Z (occupancyData scenarioMovieA))
    by (apply (bool_decide_unpack _); vm_compute; reflexivity).
  assert (H2 : (Z.of_nat (length scenarioMovieA) < 2 ^ 32)%Z) by (vm_compute; reflexivity).
  split_and!; [done..|].
  destruct (average_occupancy scenarioMovieA) as (_ & _ & Hdef).
  exact (Hdef H0 H1 H2).
Defined.

Example average_occupancy_scenario :
  averageOccupancy scenarioMovieA = Some 80%Z ∧
  averageOccupancy scenarioMovieB = Some 60%Z ∧
  averageOccupancy [exampleSession 3 100 4 0] = None.
Proof. vm_compute. done. Qed.

(** The mean of 57 and 58 lies halfway; [Math.round] takes it up. *)
Example average_occupancy_half :
  averageOccupancy
    [withSeats (SeatData.mk 100 57 43 57) (exampleSession 1 100 1 10);
     withSeats (SeatData.mk 100 58 42 58) (exampleSession 1 100 2 20)]
  = Some 58%Z.
Proof. vm_compute. done. Qed.

(** On sessions that have all four occupancy properties or none, asking
    for any one of them selects the sessions that carry occupancy data. *)
Lemma omap_withOccupancyData (property : Session.t → option Z) showtimes :
  Forall (λ s, fullyEnriched s ∨ notEnriched s) showtimes →
  (∀ s, fullyEnriched s → is_Some (property s)) →
  (∀ s, notEnriched s → property s = None) →
  omap property (withOccupancyData showtimes) = omap property showtimes.
Proof.
  intros Hall Hfull Hnone. unfold withOccupancyData.
  induction Hall as [|s l Hs Hl IH]; [done|].
  rewrite filter_cons. destruct Hs as [Hs|Hs].
  - destruct Hs as (_ & _ & _ & [p Hp]).
    rewrite decide_True by (by rewrite Hp). cbn. by rewrite IH.
  - rewrite decide_False by (destruct Hs as (_ & _ & _ & ->); by intros []).
    cbn. by rewrite (Hnone s Hs).
Qed.

(** C8.  For every movie group (of sessions that each have all four
    occupancy properties or none), [totalSeatsBooked] is the sum of
    [occupiedSeats], and [totalSeatsAvailable] the sum of [totalSeats], over
    the sessions of the group that carry occupancy data, and each is
    undefined when its sum is not positive, so in particular when it is
    zero. *)
Theorem total_seats (showtimes : list Session.t) :
  let booked := sumZ (omap Session.occupiedSeats (withOccupancyData showtimes)) in
  let capacity := sumZ (omap Session.totalSeats (withOccupancyData showtimes)) in
  Forall (λ s, fullyEnriched s ∨ notEnriched s) showtimes →
  totalSeatsBooked showtimes = (if (0 <? booked)%Z then Some booked else None) ∧
  totalSeatsAvailable showtimes = (if (0 <? capacity)%Z then Some capacity else None) ∧
  (booked = 0%Z → totalSeatsBooked showtimes = None) ∧
  (capacity = 0%Z → totalSeatsAvailable showtimes = None) ∧
  (withOccupancyData showtimes = [] →
   totalSeatsBooked showtimes = None ∧ totalSeatsAvailable showtimes = None).
Proof.
  intros booked capacity Hall.
  assert (Hb : totalSeatsBooked showtimes
               = if (0 <? booked)%Z then Some booked else None).
  { unfold totalSeatsBooked, sumSeatsBooked, positiveOrUndefined, booked.
    rewrite foldl_filter_sum, Z.add_0_l, omap_withOccupancyData; [done..| |].
    - by intros s (_ & ? & _).
    - by intros s (_ & ? & _). }
  assert (Hc : totalSeatsAvailable showtimes
               = if (0 <? capacity)%Z then Some capacity else None).
  { unfold totalSeatsAvailable, sumSeatsAvailable, positiveOrUndefined, capacity.
    rewrite foldl_filter_sum, Z.add_0_l, omap_withOccupancyData; [done..| |].
    - by intros s (? & _).
    - by intros s (? & _). }
  split_and!; [done | done | | |].
  - intros H0. by rewrite Hb, H0.
  - intros H0. by rewrite Hc, H0.
  - intros Hnil. rewrite Hb, Hc. unfold booked, capacity. by rewrite Hnil.
Qed.

Lemma total_seats_witness :
  Forall (λ s, fullyEnriched s ∨ notEnriched s) scenarioMovieA ∧
  totalSeatsBooked scenarioMovieA
  = (if (0 <? sumZ (omap Session.occupiedSeats (withOccupancyData scenarioMovieA)))%Z
     then Some (sumZ (omap Session.occupiedSeats (withOccupancyData scenarioMovieA)))
     else None).
Proof.
  assert (H : Forall (λ s, fullyEnriched s ∨ notEnriched s) scenarioMovieA).
  { apply Forall_cons. split.
    - left. unfold fullyEnriched. vm_compute. split_and!; by eexists.
    - apply Forall_cons. split; [right; by vm_compute | constructor]. }
  split; [exact H|]. by destruct (total_seats scenarioMovieA H) as [-> _].
Defined.

Example total_seats_scenario :
  totalSeatsBooked scenarioMovieA = Some 80%Z ∧
  totalSeatsAvailable scenarioMovieA = Some 100%Z.
Proof. vm_compute. done. Qed.

(** A sum of zero does not mean that no session carried data: a session
    with 100 seats, none of them occupied, gives an average occupancy of 0
    and a defined number of seats, but no [totalSeatsBooked]; an empty seat
    map gives no [totalSeatsAvailable] either. *)
Example total_seats_zero_with_data :
  let free := [withSeats (SeatData.mk 100 0 100 0) (exampleSession 1 100 1 10)] in
  let empty := [withSeats (SeatData.mk 0 0 0 0) (exampleSession 1 100 1 10)] in
  (averageOccupancy free = Some 0%Z ∧ totalSeatsBooked free = None ∧
   totalSeatsAvailable free = Some 100%Z) ∧
  (averageOccupancy empty = Some 0%Z ∧ totalSeatsBooked empty = None ∧
   totalSeatsAvailable empty = None).
Proof. vm_compute. done. Qed.

(** **** Grouping and ranking *)

Lemma compareMovies_before a b :
  JSArray.before compareMovies a b ↔ ranksBefore a b.
Proof.
  unfold JSArray.before, compareMovies, ranksBefore.
  destruct (MovieRanking.averageOccupancy a) as [x|],
           (MovieRanking.averageOccupancy b) as [y|].
  - destruct (decide (x ≠ y)) as [Hne|Heq].
    + split.
      * intros Hc. split_and!; [done | intros ? ? [= <-] [= <-]; lia | intros [=]; lia].
      * intros (_ & Hc & _). specialize (Hc x y eq_refl eq_refl). lia.
    + assert (y = x) as -> by lia.
      split.
      * intros Hc. split_and!; [done | intros ? ? [= <-] [= <-]; lia | intros _; lia].
      * intros (_ & _ & Hc). specialize (Hc eq_refl). lia.
  - split; [intros _; split_and!; done | lia].
  - split; [lia | intros (Hc & _); by specialize (Hc eq_refl)].
  - split.
    + intros Hc. split_and!; [done | done | intros _; lia].
    + intros (_ & _ & Hc). specialize (Hc eq_refl). lia.
Qed.

Lemma compareMovies_total a b :
  JSArray.before compareMovies a b ∨ JSArray.before compareMovies b a.
Proof.
  unfold JSArray.before, compareMovies.
  destruct (MovieRanking.averageOccupancy a) as [x|],
           (MovieRanking.averageOccupancy b) as [y|];
    repeat case_decide; lia.
Qed.

Lemma compareMovies_trans a b c :
  JSArray.before compareMovies a b → JSArray.before compareMovies b c →
  JSArray.before compareMovies a c.
Proof.
  unfold JSArray.before, compareMovies.
  destruct (MovieRanking.averageOccupancy a) as [x|],
           (MovieRanking.averageOccupancy b) as [y|],
           (MovieRanking.averageOccupancy c) as [z|];
    repeat case_decide; lia.
Qed.

Lemma compareMovies_tied a b :
  JSArray.tied compareMovies a b ↔ sameRank a b.
Proof.
  unfold JSArray.tied. rewrite !compareMovies_before.
  unfold ranksBefore, sameRank.
  destruct (MovieRanking.averageOccupancy a) as [x|],
           (MovieRanking.averageOccupancy b) as [y|].
  - split.
    + intros [(_ & H1 & H1') (_ & H2 & H2')].
      pose proof (H1 x y eq_refl eq_refl). pose proof (H2 y x eq_refl eq_refl).
      assert (x = y) as -> by lia.
      specialize (H1' eq_refl). specialize (H2' eq_refl). split; [done | lia].
    + intros [[= ->] He]. rewrite He.
      split; (split_and!; [done | intros ? ? [= <-] [= <-]; lia | intros _; lia]).
  - split; [intros [_ (H & _)]; by specialize (H eq_refl) | by intros [? _]].
  - split; [intros [(H & _) _]; by specialize (H eq_refl) | by intros [? _]].
  - split.
    + intros [(_ & _ & H1) (_ & _ & H2)].
      specialize (H1 eq_refl). specialize (H2 eq_refl). split; [done | lia].
    + intros [_ He]. rewrite He. split; (split_and!; [done | done | intros _; lia]).
Qed.

Lemma addToGroups_keys session movieGroups :
  (addToGroups session movieGroups).*1
  = if decide (Session.movieId session ∈ movieGroups.*1) then movieGroups.*1
    else movieGroups.*1 ++ [Session.movieId session].
Proof.
  induction movieGroups as [|[key movie] rest IH]; [done|].
  cbn [addToGroups]. destruct (decide (key = Session.movieId session)) as [->|Hne].
  - rewrite !fmap_cons. cbn [fst]. by rewrite decide_True by apply list_elem_of_here.
  - rewrite !fmap_cons, IH. cbn [fst].
    destruct (decide (Session.movieId session ∈ rest.*1)) as [Hin|Hnin].
    + by rewrite decide_True by by apply list_elem_of_further.
    + rewrite decide_False; [done|]. intros [?|?]%elem_of_cons; congruence.
Qed.

Lemma addToGroups_inv session movieGroups :
  groupsInv movieGroups → groupsInv (addToGroups session movieGroups).
Proof.
  intros [Hnodup Hall]. split.
  - rewrite addToGroups_keys. case_decide as Hin; [done|].
    apply NoDup_app. split_and!; [done | | apply NoDup_singleton].
    intros key Hkey ->%list_elem_of_singleton. done.
  - clear Hnodup. induction Hall as [|[key movie] rest [Hk Hs] Hrest IH]; cbn.
    + constructor; [|constructor]. cbn. by split.
    + case_decide as Hkey; constructor; try done.
      cbn in *. split; [done|]. intros E. apply (f_equal length) in E.
      rewrite length_app in E. cbn in E. lia.
Qed.

Lemma groupByMovie_inv allSessions : groupsInv (groupByMovie allSessions).
Proof.
  unfold groupByMovie.
  assert (H : ∀ movieGroups, groupsInv movieGroups →
    groupsInv (foldl (λ movieGroups session, addToGroups session movieGroups)
                 movieGroups allSessions)).
  { induction allSessions as [|s l IH]; intros g Hg; [done|].
    cbn. by apply IH, addToGroups_inv. }
  apply H. split; constructor.
Qed.

Lemma byKey_total {V} (a b : N * V) :
  JSArray.before byKey a b ∨ JSArray.before byKey b a.
Proof. unfold JSArray.before, byKey. lia. Qed.

Lemma byKey_trans {V} (a b c : N * V) :
  JSArray.before byKey a b → JSArray.before byKey b c →
  JSArray.before byKey a c.
Proof. unfold JSArray.before, byKey. lia. Qed.

Lemma StronglySorted_strict {V} (l : list (N * V)) :
  StronglySorted (JSArray.before byKey) l → NoDup l.*1 →
  StronglySorted (λ a b, (a.1 < b.1)%N) l.
Proof.
  induction 1 as [|a l Hl IH Ha]; [constructor|].
  rewrite fmap_cons, NoDup_cons. intros [Hnin Hnodup].
  constructor; [by apply IH|].
  apply Forall_forall. intros b Hb.
  rewrite Forall_forall in Ha. specialize (Ha b Hb).
  unfold JSArray.before, byKey in Ha.
  assert (a.1 ≠ b.1); [|lia].
  intros Heq. apply Hnin. rewrite Heq. by apply list_elem_of_fmap_2.
Qed.

Lemma Object_values_order {V} (o : list (N * V)) :
  NoDup o.*1 → objectValuesOrder o (Object_values o).
Proof.
  intros Hnodup.
  exists (JSArray.sort byKey (filter (λ kv, isArrayIndex kv.1) o)),
         (filter (λ kv, ¬ isArrayIndex kv.1) o).
  split_and!; [|apply JSArrayFacts.sort_Permutation| |done].
  - unfold Object_values. by rewrite fmap_app.
  - apply StronglySorted_strict.
    + apply JSArrayFacts.sort_sorted; [apply byKey_total | apply byKey_trans].
    + rewrite JSArrayFacts.sort_Permutation.
      apply (sublist_NoDup _ o.*1); [done|]. apply fmap_sublist, sublist_filter.
Qed.

Lemma Object_values_elem {V} (o : list (N * V)) (v : V) :
  v ∈ Object_values o → ∃ key, (key, v) ∈ o.
Proof.
  unfold Object_values. rewrite JSArrayFacts.sort_Permutation.
  intros ([key v'] & -> & Hin)%list_elem_of_fmap. exists key.
  apply elem_of_app in Hin as [Hin|Hin];
    by apply list_elem_of_filter in Hin as [_ Hin].
Qed.

(** [reduce] with [earlier] finds a session of the least start time. *)
Lemma foldl_earlier (l : list Session.t) : ∀ x,
  foldl earlier x l ∈ x :: l ∧
  ∀ s, s ∈ x :: l →
    (Session.showStartDateTime (foldl earlier x l) ≤ Session.showStartDateTime s)%Z.
Proof.
  induction l as [|y l IH]; intros x; cbn.
  - split; [apply list_elem_of_here|]. by intros s ->%list_elem_of_singleton.
  - destruct (IH (earlier x y)) as [Hin Hmin]. split.
    + apply elem_of_cons in Hin as [->|Hin].
      * unfold earlier. case_match;
          [apply list_elem_of_further, list_elem_of_here | apply list_elem_of_here].
      * by do 2 apply list_elem_of_further.
    + intros s Hs.
      assert (Hxy : (Session.showStartDateTime (earlier x y) ≤ Session.showStartDateTime x
                     ∧ Session.showStartDateTime (earlier x y) ≤ Session.showStartDateTime y)%Z).
      { unfold earlier. destruct (Z.ltb_spec (Session.showStartDateTime y)
                                    (Session.showStartDateTime x)); lia. }
      pose proof (Hmin (earlier x y) (list_elem_of_here _ _)).
      apply elem_of_cons in Hs as [->|[->|Hs]%elem_of_cons]; [lia | lia |].
      apply Hmin. by apply list_elem_of_further.
Qed.

Lemma rankMovie_Some movie m :
  rankMovie movie = Some m → MovieRanking.movie m = movie ∧ metricsOf m.
Proof.
  unfold rankMovie, earliestShowtime, JSArray.reduce1, metricsOf.
  destruct (MovieGroup.showtimes movie) as [|x l] eqn:Hs; [done|].
  cbn. intros [= <-]. cbn. rewrite Hs.
  destruct (foldl_earlier l x) as [Hin Hmin]. split_and!; try done.
  by exists (foldl earlier x l).
Qed.

Lemma rankMovie_is_Some movie :
  MovieGroup.showtimes movie ≠ [] → is_Some (rankMovie movie).
Proof.
  unfold rankMovie, earliestShowtime, JSArray.reduce1.
  destruct (MovieGroup.showtimes movie); [done|]. intros _. by eexists.
Qed.

Lemma unsortedMovies_Some allSessions :
  ∃ unsorted,
    unsortedMovies allSessions = Some unsorted ∧
    MovieRanking.movie <$> unsorted = Object_values (groupByMovie allSessions) ∧
    Forall metricsOf unsorted.
Proof.
  destruct (groupByMovie_inv allSessions) as [_ Hall].
  assert (Hsome : is_Some (unsortedMovies allSessions)).
  { apply mapM_is_Some, Forall_forall. intros movie Hin.
    apply Object_values_elem in Hin as [key Hin].
    rewrite Forall_forall in Hall. destruct (Hall _ Hin) as [_ Hne].
    by apply rankMovie_is_Some. }
  destruct Hsome as [unsorted Hu]. exists unsorted. split; [done|].
  apply mapM_Some in Hu.
  induction Hu as [|movie m movies ms Hm _ [IH1 IH2]]; [by split|].
  apply rankMovie_Some in Hm as [Hmovie Hmetrics].
  split; [by rewrite fmap_cons, Hmovie, IH1 | by constructor].
Qed.

(** C1, as the code has it.  For every enriched session list the Ranker
    returns a movie list in which a movie with an average occupancy stands
    before every movie without one, of two movies with an average the one
    with the higher average stands first, and movies with equal averages,
    or both without, stand by ascending earliest start time.  The sort is
    stable with respect to the order in which [Object.values] lists the
    groups: groups whose movie id is an array index by ascending id, then
    the other groups in the order in which they were formed. *)
Theorem ranking_order (allSessions : list Session.t) :
  ∃ unsorted ranked,
    unsortedMovies allSessions = Some unsorted ∧
    rankMovies allSessions = Some ranked ∧
    ranked ≡ₚ unsorted ∧
    Forall metricsOf ranked ∧
    (∀ i j a b, i < j → ranked !! i = Some a → ranked !! j = Some b →
                ranksBefore a b) ∧
    (∀ m, filter (sameRank m) ranked = filter (sameRank m) unsorted) ∧
    objectValuesOrder (groupByMovie allSessions) (MovieRanking.movie <$> unsorted).
Proof.
  destruct (unsortedMovies_Some allSessions) as (unsorted & Hu & Hmovies & Hmetrics).
  exists unsorted, (JSArray.sort compareMovies unsorted).
  pose proof (JSArrayFacts.sort_Permutation compareMovies unsorted) as Hperm.
  split_and!.
  - done.
  - unfold rankMovies. by rewrite Hu.
  - done.
  - by rewrite Hperm.
  - intros i j a b Hij Ha Hb. apply compareMovies_before.
    by eapply (JSArrayFacts.sort_lookup_before compareMovies
                 compareMovies_total compareMovies_trans).
  - intros m.
    pose proof (JSArrayFacts.sort_stable compareMovies compareMovies_trans m unsorted) as H.
    etrans; [|etrans; [exact H|]]; apply list_filter_iff; intros m';
      by rewrite compareMovies_tied.
  - rewrite Hmovies. apply Object_values_order.
    by destruct (groupByMovie_inv allSessions).
Qed.

(** Two sessions at the same time, none with occupancy data; the group of
    movie 2 is formed first.  The two movies compare as equal, and the
    ranking lists movie 1 first: the order of the array-index keys, not
    the one in which the groups were formed. *)
Lemma ranking_not_in_formation_order :
  let allSessions := [exampleSession 2 100 1 0; exampleSession 1 100 2 0] in
  (fmap (M := list) (λ m, MovieGroup.movieId (MovieRanking.movie m))
     <$> moviesAsFormed allSessions) = Some [2%N; 1%N] ∧
  (fmap (M := list) (λ m, MovieGroup.movieId (MovieRanking.movie m))
     <$> rankMovies allSessions) = Some [1%N; 2%N] ∧
  (fmap (M := list) (λ m, (MovieRanking.averageOccupancy m, MovieRanking.earliestShowtime m))
     <$> rankMovies allSessions) = Some [(None, 0%Z); (None, 0%Z)].
Proof. vm_compute. done. Qed.

(** With movie ids that are no array indices the order of formation is
    kept. *)
Example ranking_large_ids :
  let allSessions := [exampleSession (2 ^ 32 + 1) 100 1 0;
                      exampleSession (2 ^ 32) 100 2 0;
                      exampleSession 7 100 3 0] in
  (fmap (M := list) (λ m, MovieGroup.movieId (MovieRanking.movie m))
     <$> rankMovies allSessions) = Some [7; 2 ^ 32 + 1; 2 ^ 32]%N.
Proof. vm_compute. done. Qed.

(** The scenario of the specification: movie A, with sessions at 80
    percent and without data, stands before movie B at 60 percent,
    although B starts earlier and a session of A counted as 0 would put
    A's average at 40. *)
Example ranking_scenario :
  (fmap (M := list) (λ m, (MovieGroup.movieId (MovieRanking.movie m),
                           MovieRanking.averageOccupancy m))
     <$> rankMovies (scenarioMovieB ++ scenarioMovieA))
  = Some [(1%N, Some 80%Z); (2%N, Some 60%Z)].
Proof. vm_compute. done. Qed.

(** The whole function on the scenario, with one area, one theatre and
    both seat fetches fulfilled. *)
Example loadTheatresAndShowtimes_runs :
  match loadTheatresAndShowtimes
          [Fulfilled (mkTheatreLookup (Some [Theatre.mk 100 "X"]))]
          [(0%nat, Fulfilled
              [Upstream.mkTheatreData 100 "X"
                 (Some [Upstream.mkDateData
                    (Some [Upstream.mkMovie 1 "A" None None 120 ""
                       (Some [Upstream.mkExperience None
                          (Some [Upstream.mkSession 10 5 false "" "" 1;
                                 Upstream.mkSession 20 0 false "" "" 2])])])])])]
          [(1%nat, Rejected "HTTP 502");
           (0%nat, Fulfilled (SeatData.mk 100 80 20 80))] with
  | Movies theatres movies =>
      theatres = [Theatre.mk 100 "X"] ∧
      (λ m, (MovieRanking.availableCount m, MovieRanking.averageOccupancy m,
             MovieRanking.totalSeatsBooked m, MovieRanking.earliestShowtime m))
        <$> movies = [(1%nat, Some 80%Z, Some 80%Z, 10%Z)]
  | _ => False
  end.
Proof. vm_compute. done. Qed.

End AppFacts.

(** *** More on the steps of [loadTheatresAndShowtimes] *)

Module PipelineFacts.

Import Api App AppFacts Scenario.

(** **** Grouping *)

Lemma groupOf_addToGroups session movieGroups key :
  groupOf key (addToGroups session movieGroups)
  = if decide (key = Session.movieId session)
    then Some (pushShowtime session (default (newGroup session) (groupOf key movieGroups)))
    else groupOf key movieGroups.
Proof.
  induction movieGroups as [|[key' movie] rest IH]; cbn [addToGroups groupOf].
  - rewrite (decide_ext _ (key = Session.movieId session)) by done.
    by destruct (decide (key = _)).
  - destruct (decide (key' = Session.movieId session)) as [->|Hne]; cbn [groupOf].
    + destruct (decide (Session.movieId session = key)) as [<-|Hk].
      * by rewrite decide_True.
      * by rewrite decide_False.
    + destruct (decide (key' = key)) as [->|Hk].
      * by rewrite decide_False.
      * apply IH.
Qed.

Lemma groupByMovie_snoc allSessions session :
  groupByMovie (allSessions ++ [session]) = addToGroups session (groupByMovie allSessions).
Proof. unfold groupByMovie. by rewrite foldl_app. Qed.

Lemma groupOf_groupByMovie allSessions key :
  groupOf key (groupByMovie allSessions) = groupFrom (sessionsOf key allSessions).
Proof.
  induction allSessions as [|session allSessions IH] using rev_ind; [done|].
  rewrite groupByMovie_snoc, groupOf_addToGroups, IH. unfold sessionsOf.
  rewrite filter_app, filter_cons, filter_nil.
  destruct (decide (key = Session.movieId session)) as [->|Hne].
  - rewrite decide_True by done.
    destruct (filter _ allSessions) as [|first rest] eqn:Hf; [done|].
    cbn. unfold pushShowtime. cbn. done.
  - rewrite decide_False by done. by rewrite app_nil_r.
Qed.

Lemma elem_of_groupOf (movieGroups : list (N * MovieGroup.t)) key movie :
  NoDup movieGroups.*1 → (key, movie) ∈ movieGroups ↔ groupOf key movieGroups = Some movie.
Proof.
  induction movieGroups as [|[key' movie'] rest IH]; cbn [groupOf].
  - intros _. split; [by intros ?%elem_of_nil|done].
  - rewrite fmap_cons, NoDup_cons. cbn [fst]. intros [Hnin Hnodup].
    rewrite elem_of_cons. destruct (decide (key' = key)) as [->|Hne].
    + split; [|intros [= ->]; by left].
      intros [[= ->]|Hin]; [done|]. exfalso. apply Hnin.
      apply list_elem_of_fmap. by exists (key, movie).
    + rewrite <- IH by done. split; [|by right]. intros [[= -> ->]|?]; done.
Qed.


(** X10. [movieGroups] holds one group per movie id of the session list,
    under that id; the group lists the sessions of the movie in the order
    of the list and describes the movie as the first of them does. *)
Theorem sessions_grouped_by_movie (allSessions : list Session.t) :
  let movieGroups := groupByMovie allSessions in
  NoDup movieGroups.*1 ∧
  (∀ key movie,
     (key, movie) ∈ movieGroups ↔ groupFrom (sessionsOf key allSessions) = Some movie) ∧
  (∀ key, key ∈ movieGroups.*1 ↔ key ∈ Session.movieId <$> allSessions).
Proof.
  cbv zeta. destruct (groupByMovie_inv allSessions) as [Hnodup _].
  assert (∀ key movie, (key, movie) ∈ groupByMovie allSessions
                       ↔ groupFrom (sessionsOf key allSessions) = Some movie) as Hgroup.
  { intros key movie. by rewrite elem_of_groupOf, groupOf_groupByMovie. }
  split_and!; [done|done|]. intros key. rewrite !list_elem_of_fmap. split.
  - intros ([key' movie] & -> & Hin). apply Hgroup in Hin. cbn [fst].
    unfold groupFrom in Hin. destruct (sessionsOf key' allSessions) as [|first rest] eqn:Hs;
      [done|].
    assert (first ∈ sessionsOf key' allSessions) as Hfirst
      by (rewrite Hs; apply list_elem_of_here).
    apply list_elem_of_filter in Hfirst as [<- Hfirst]. by exists first.
  - intros (session & -> & Hin).
    assert (session ∈ sessionsOf (Session.movieId session) allSessions) as Hs
      by by apply list_elem_of_filter.
    destruct (sessionsOf (Session.movieId session) allSessions) as [|first rest] eqn:Hf;
      [by apply elem_of_nil in Hs|].
    eexists (Session.movieId session, _). split; [done|]. apply Hgroup. by rewrite Hf.
Qed.

(** **** Seat data *)

Lemma seatDataMap_snoc seatResults result :
  seatDataMap (seatResults ++ [result]) = addSeatData (seatDataMap seatResults) result.
Proof. unfold seatDataMap. by rewrite foldl_app. Qed.

Lemma seatDataMap_last theatreId sessionId seatResults :
  seatDataMap seatResults !! seatKey theatreId sessionId
  = lastSeatData theatreId sessionId seatResults.
Proof.
  unfold lastSeatData.
  induction seatResults as [|result seatResults IH] using rev_ind; [done|].
  rewrite seatDataMap_snoc, omap_app. cbn [omap list_omap]. unfold addSeatData, seatDataFor.
  destruct (SeatResult.success result) eqn:Hsuccess.
  - destruct (SeatResult.seatData result) as [seatData|] eqn:Hdata.
    + case_decide as Hids.
      * destruct Hids as (_ & <- & <-). cbn. by rewrite lookup_insert_eq, last_snoc.
      * rewrite lookup_insert_ne, app_nil_r; [done|].
        intros [? ?]%seatKey_inj. tauto.
    + case_decide; by rewrite app_nil_r.
  - rewrite decide_False by (intros [? _]; done). by rewrite app_nil_r.
Qed.

(** X11. Enrichment leaves the listing of a session as it is, and gives
    the session the seat data of the last successful seat result for its
    theatre and session id; without such a result the session stays as it
    is. *)
Theorem enrichment_uses_last_result (seatResults : list SeatResult.t) (session : Session.t) :
  let enriched := enrichSession (seatDataMap seatResults) session in
  sameListing enriched session ∧
  match lastSeatData (Session.theatreId session) (Session.vistaSessionId session)
          seatResults with
  | Some seatData => occupancyFrom seatData enriched
  | None => enriched = session
  end.
Proof.
  cbv zeta. unfold enrichSession. rewrite seatDataMap_last.
  destruct (lastSeatData _ _ _) as [seatData|]; by repeat split.
Qed.

(** **** The ranked list *)

Lemma Object_values_Permutation {V} (o : list (N * V)) : Object_values o ≡ₚ o.*2.
Proof.
  unfold Object_values. rewrite JSArrayFacts.sort_Permutation.
  by rewrite (filter_app_complement (λ kv : N * V, isArrayIndex kv.1) o).
Qed.

Lemma rankMovies_groups allSessions :
  ∃ ranked, rankMovies allSessions = Some ranked ∧
    MovieRanking.movie <$> ranked ≡ₚ (groupByMovie allSessions).*2.
Proof.
  destruct (unsortedMovies_Some allSessions) as (unsorted & Hu & Hmovies & _).
  exists (JSArray.sort compareMovies unsorted). split.
  - unfold rankMovies. by rewrite Hu.
  - by rewrite JSArrayFacts.sort_Permutation, Hmovies, Object_values_Permutation.
Qed.

Lemma groupByMovie_ids allSessions :
  MovieGroup.movieId <$> (groupByMovie allSessions).*2 = (groupByMovie allSessions).*1.
Proof.
  destruct (groupByMovie_inv allSessions) as [_ Hall].
  induction Hall as [|[key movie] rest [Hkey _] _ IH]; [done|].
  rewrite !fmap_cons, IH. cbn in *. by rewrite Hkey.
Qed.

Lemma groupByMovie_nil allSessions : groupByMovie allSessions = [] → allSessions = [].
Proof.
  destruct allSessions as [|session allSessions] using rev_ind; [done|].
  rewrite groupByMovie_snoc.
  destruct (groupByMovie allSessions) as [|[key movie] rest]; cbn; [done|].
  by case_decide.
Qed.

Lemma rankMovies_nil allSessions : rankMovies allSessions = Some [] → allSessions = [].
Proof.
  destruct (rankMovies_groups allSessions) as (ranked & Hranked & Hperm).
  rewrite Hranked. intros [= ->]. apply groupByMovie_nil.
  apply Permutation_nil_l in Hperm. symmetry in Hperm. by apply fmap_nil_inv in Hperm.
Qed.

(** X12. The ranked list shows every movie of the session list once:
    the ids of the ranked movies are pairwise distinct, each movie
    carries exactly the sessions of its id, in the order of the list, and
    every session is found under the movie of its id. *)
Theorem ranked_movies_cover_sessions (allSessions : list Session.t) :
  ∃ ranked,
    rankMovies allSessions = Some ranked ∧
    NoDup (rankedId <$> ranked) ∧
    (∀ m, m ∈ ranked →
       groupFrom (sessionsOf (rankedId m) allSessions) = Some (MovieRanking.movie m)) ∧
    (∀ session, session ∈ allSessions →
       ∃ m, m ∈ ranked ∧ rankedId m = Session.movieId session ∧
            session ∈ MovieGroup.showtimes (MovieRanking.movie m)).
Proof.
  destruct (rankMovies_groups allSessions) as (ranked & Hranked & Hperm).
  destruct (groupByMovie_inv allSessions) as [Hnodup Hall].
  exists ranked. split; [done|].
  assert (∀ m, m ∈ ranked → (rankedId m, MovieRanking.movie m) ∈ groupByMovie allSessions)
    as Hin.
  { intros m Hm.
    assert (MovieRanking.movie m ∈ (groupByMovie allSessions).*2) as Hg.
    { rewrite <- Hperm. by apply list_elem_of_fmap_2. }
    apply list_elem_of_fmap in Hg as ([key movie] & Heq & Hg). cbn in Heq.
    rewrite Forall_forall in Hall. destruct (Hall _ Hg) as [Hkey _]. cbn in Hkey.
    unfold rankedId. rewrite Heq. by rewrite <- Hkey. }
  split_and!.
  - unfold rankedId.
    rewrite (list_fmap_compose MovieRanking.movie MovieGroup.movieId), Hperm.
    by rewrite groupByMovie_ids.
  - intros m Hm. rewrite <- groupOf_groupByMovie. apply elem_of_groupOf; [done|].
    by apply Hin.
  - intros session Hs.
    assert (session ∈ sessionsOf (Session.movieId session) allSessions) as Hf
      by by apply list_elem_of_filter.
    destruct (groupFrom (sessionsOf (Session.movieId session) allSessions))
      as [movie|] eqn:Hgroup.
    2:{ unfold groupFrom in Hgroup. destruct (sessionsOf _ allSessions); [|done].
        by apply elem_of_nil in Hf. }
    rewrite <- groupOf_groupByMovie in Hgroup. apply elem_of_groupOf in Hgroup; [|done].
    assert (movie ∈ MovieRanking.movie <$> ranked) as Hm.
    { rewrite Hperm. apply list_elem_of_fmap. by exists (Session.movieId session, movie). }
    apply list_elem_of_fmap in Hm as (m & -> & Hm). exists m. split; [done|].
    rewrite Forall_forall in Hall. destruct (Hall _ Hgroup) as [Hkey _]. cbn in Hkey.
    split; [done|].
    apply elem_of_groupOf in Hgroup; [|done]. rewrite groupOf_groupByMovie in Hgroup.
    unfold groupFrom in Hgroup.
    destruct (sessionsOf _ allSessions) as [|first rest]; [done|].
    injection Hgroup as <-. done.
Qed.


(** **** The whole function *)

Lemma batch_not_RangeError {Item Value Result} (onFulfilled : Item → Value → Result)
    (onRejected : Item → string → Result) items (K : Z) events :
  (0 ≤ K)%Z → batch onFulfilled onRejected items K events ≠ RangeError.
Proof.
  intros HK. unfold batch. rewrite ApiFacts.start_nonnegative by done.
  destruct (run _ _ _ _) as [[q [|] rs]|]; done.
Qed.

(** X13. [loadTheatresAndShowtimes] ends in one of two errors or in a
    ranked list: the error about theatres exactly when no lookup gave a
    theatre, the error about showtimes exactly when no fetched theatre
    gave a session; otherwise the theatres found are shown with a ranked
    list that is not empty; it stays unfinished only while a fetch of
    one of the two batches is awaited.  Neither [Array(...)] nor the
    [reduce] without an initial value ever throws. *)
Theorem load_outcomes
    (lookups : list (settled TheatreLookup))
    (showtimeEvents : list (nat * settled (list Upstream.TheatreData)))
    (seatEvents : list (nat * settled SeatData.t)) :
  let allTheatres := locateTheatres lookups in
  match loadTheatresAndShowtimes lookups showtimeEvents seatEvents with
  | Error message =>
      (allTheatres = [] ∧
       message = "No theatres found in the selected areas. Try selecting different areas.") ∨
      (allTheatres ≠ [] ∧
       message = "No showtimes found for the selected date at nearby theatres." ∧
       ∃ showtimeResults,
         fetchShowtimesForTheatres allTheatres 5 showtimeEvents = Returned showtimeResults ∧
         collectSessions showtimeResults = [])
  | Movies theatres movies =>
      theatres = allTheatres ∧ theatres ≠ [] ∧ movies ≠ [] ∧
      ∃ showtimeResults seatResults,
        fetchShowtimesForTheatres allTheatres 5 showtimeEvents = Returned showtimeResults ∧
        collectSessions showtimeResults ≠ [] ∧
        fetchSeatAvailabilityBatch (sessionsToFetch (collectSessions showtimeResults)) 15
          seatEvents = Returned seatResults ∧
        rankMovies (enrichSessions seatResults (collectSessions showtimeResults))
        = Some movies
  | Loading =>
      allTheatres ≠ [] ∧
      (fetchShowtimesForTheatres allTheatres 5 showtimeEvents = Unsettled ∨
       ∃ showtimeResults,
         fetchShowtimesForTheatres allTheatres 5 showtimeEvents = Returned showtimeResults ∧
         collectSessions showtimeResults ≠ [] ∧
         fetchSeatAvailabilityBatch (sessionsToFetch (collectSessions showtimeResults)) 15
           seatEvents = Unsettled)
  end.
Proof.
  cbv zeta. unfold loadTheatresAndShowtimes.
  case_decide as Htheatres.
  { left. split; [by apply nil_length_inv|done]. }
  assert (locateTheatres lookups ≠ []) as Hne
    by (intros Heq; by rewrite Heq in Htheatres).
  destruct (fetchShowtimesForTheatres _ 5 showtimeEvents) as [showtimeResults| |] eqn:Hshow.
  2:{ by apply batch_not_RangeError in Hshow. }
  2:{ split; [done|by left]. }
  case_decide as Hsessions.
  { right. split_and!; [done..|]. exists showtimeResults. split; [done|].
    by apply nil_length_inv. }
  assert (collectSessions showtimeResults ≠ []) as Hne'
    by (intros Heq; by rewrite Heq in Hsessions).
  destruct (fetchSeatAvailabilityBatch _ 15 seatEvents) as [seatResults| |] eqn:Hseat.
  2:{ by apply batch_not_RangeError in Hseat. }
  2:{ split; [done|]. right. by exists showtimeResults. }
  destruct (rankMovies_groups (enrichSessions seatResults (collectSessions showtimeResults)))
    as (ranked & Hranked & _).
  rewrite Hranked. split_and!; [done|done| |by exists showtimeResults, seatResults].
  intros ->. apply rankMovies_nil in Hranked. apply fmap_nil_inv in Hranked. done.
Qed.

(** **** The priority subset *)

(** X14. Seat data is fetched for the sessions that start soonest: the
    subset holds as many sessions as the progress display announces, the
    smaller of the number of sessions and 200, and no session left out
    starts before a session of the subset. *)
Theorem priority_subset_is_soonest (allSessions : list Session.t) :
  let subset := sessionsToFetch allSessions in
  Z.of_nat (length subset) = seatsProgressTotal allSessions ∧
  ∃ rest,
    subset ++ rest ≡ₚ allSessions ∧
    ∀ chosen left, chosen ∈ subset → left ∈ rest → startsNoLater chosen left.
Proof.
  cbv zeta. unfold sessionsToFetch, seatsProgressTotal.
  destruct (sortedSessions_spec allSessions) as (Hperm & Hsorted & _).
  split.
  - rewrite length_take. unfold sortedSessions. rewrite JSArrayFacts.length_sort. lia.
  - exists (drop 200 (sortedSessions allSessions)). rewrite take_drop. split; [done|].
    intros chosen left Hc Hl.
    rewrite <- (take_drop 200 (sortedSessions allSessions)) in Hsorted.
    by eapply StronglySorted_app_1_elem_of.
Qed.

(** **** The movie card *)

(** X15. Down the ranked list the busyness level of the movie cards
    never rises: a movie shown as Trending is never listed below one
    shown as Popular, and so on; a movie without occupancy data counts as
    Plenty of Seats, and such movies come last. *)
Theorem busyness_follows_ranking (allSessions : list Session.t) :
  ∃ ranked,
    rankMovies allSessions = Some ranked ∧
    ∀ i j a b, i < j → ranked !! i = Some a → ranked !! j = Some b →
      MovieCard.heat (MovieCard.getBusynessLevel b)
      ≤ MovieCard.heat (MovieCard.getBusynessLevel a).
Proof.
  destruct (rankMovies_groups allSessions) as (ranked & Hranked & _).
  exists ranked. split; [done|]. revert Hranked.
  unfold rankMovies. destruct (unsortedMovies allSessions) as [unsorted|]; [|done].
  cbn. intros [= <-] i j a b Hij Ha Hb.
  pose proof (JSArrayFacts.sort_lookup_before compareMovies compareMovies_total
                compareMovies_trans unsorted i j a b Hij Ha Hb) as Hbefore.
  apply compareMovies_before in Hbefore as (Hnone & Hsome & _).
  unfold MovieCard.getBusynessLevel.
  destruct (MovieRanking.averageOccupancy a) as [x|] eqn:Hx,
           (MovieRanking.averageOccupancy b) as [y|] eqn:Hy; cbn [from_option id].
  - specialize (Hsome x y eq_refl eq_refl).
    destruct (Z.leb_spec 90 x), (Z.leb_spec 70 x), (Z.leb_spec 40 x),
             (Z.leb_spec 90 y), (Z.leb_spec 70 y), (Z.leb_spec 40 y); cbn; lia.
  - cbn. lia.
  - by specialize (Hnone eq_refl).
  - done.
Qed.

End PipelineFacts.

(** *** The selection of areas *)

Module LocationInputFacts.

Import LocationInput.

Lemma selectedAfter_snoc clicks area :
  selectedAfter (clicks ++ [area]) = toggleArea area (selectedAfter clicks).
Proof. unfold selectedAfter. by rewrite foldl_app. Qed.

Lemma clicksOn_snoc n clicks area :
  clicksOn n (clicks ++ [area])
  = (clicksOn n clicks + if decide (name area = n) then 1 else 0)%nat.
Proof.
  unfold clicksOn. rewrite filter_app, length_app, filter_cons, filter_nil.
  by destruct (decide (name area = n)).
Qed.

Lemma toggleArea_cases area prev :
  (name area ∈ (name <$> prev) ∧ toggleArea area prev = filter (λ a, name a ≠ name area) prev) ∨
  ((name area ∉ (name <$> prev)) ∧ toggleArea area prev = prev ++ [area]).
Proof.
  unfold toggleArea.
  destruct (list_find (λ a, name a = name area) prev) as [[i a]|] eqn:Hfind.
  - left. split; [|done]. apply list_find_Some in Hfind as (Hi & <- & _).
    apply list_elem_of_fmap_2. by eapply list_elem_of_lookup_2.
  - right. split; [|done]. apply list_find_None in Hfind.
    intros (a & Ha & Hin)%list_elem_of_fmap. rewrite Forall_forall in Hfind.
    by apply (Hfind a).
Qed.

Lemma handleSubmit_spec selected :
  match handleSubmit selected with
  | LocationSet mode locations => mode = "multi" ∧ locations = selected ∧ selected ≠ []
  | SetError message => message = "Please select at least one area" ∧ selected = []
  end.
Proof.
  unfold handleSubmit. case_decide as Hlen.
  - split; [done|]. by apply nil_length_inv.
  - split_and!; [done| |by intros ->].
    rewrite <- (list_fmap_id selected) at 2. apply list_fmap_ext. by intros i [].
Qed.

Lemma selection_spec (clicks : list area) :
  NoDup (name <$> selectedAfter clicks) ∧
  (∀ n, n ∈ (name <$> selectedAfter clicks) ↔ Nat.odd (clicksOn n clicks) = true) ∧
  (∀ a, a ∈ selectedAfter clicks →
        last (filter (λ a', name a' = name a) clicks) = Some a).
Proof.
  induction clicks as [|area clicks (Hnodup & Hodd & Hlast)] using rev_ind.
  { split_and!; [constructor|split; [by intros ?%elem_of_nil|done]|by intros ? ?%elem_of_nil]. }
  rewrite selectedAfter_snoc.
  destruct (toggleArea_cases area (selectedAfter clicks)) as [[Hin ->]|[Hnin ->]].
  - split_and!.
    + eapply sublist_NoDup; [exact Hnodup|]. apply fmap_sublist, sublist_filter.
    + intros n. rewrite clicksOn_snoc, list_elem_of_fmap.
      destruct (decide (name area = n)) as [<-|Hne].
      * apply Hodd in Hin. rewrite Nat.add_1_r, Nat.odd_succ, <- Nat.negb_odd, Hin.
        split; [|done]. intros (a & Heq & [Hne _]%list_elem_of_filter). done.
      * rewrite Nat.add_0_r, <- Hodd, list_elem_of_fmap. split.
        -- intros (a & -> & [_ Ha]%list_elem_of_filter). by exists a.
        -- intros (a & -> & Ha). exists a. split; [done|].
           apply list_elem_of_filter. split; [congruence|done].
    + intros a [Hne Ha]%list_elem_of_filter.
      rewrite filter_app, filter_cons, filter_nil, decide_False, app_nil_r by congruence.
      by apply Hlast.
  - split_and!.
    + rewrite fmap_app. apply NoDup_app. split_and!; [done| |apply NoDup_singleton].
      intros n Hn ->%list_elem_of_singleton. done.
    + intros n. rewrite clicksOn_snoc, fmap_app, elem_of_app.
      change (name <$> [area]) with [name area]. rewrite list_elem_of_singleton.
      destruct (decide (name area = n)) as [<-|Hne].
      * assert (Nat.odd (clicksOn (name area) clicks) = false) as Heven.
        { destruct (Nat.odd _) eqn:Ho; [|done]. by apply Hodd in Ho. }
        rewrite Nat.add_1_r, Nat.odd_succ, <- Nat.negb_odd, Heven. split; auto.
      * rewrite Nat.add_0_r, <- Hodd. split; [|by left]. intros [?|?]; [done|congruence].
    + intros a [Ha|Ha%list_elem_of_singleton]%elem_of_app; [|subst a].
      * rewrite filter_app, filter_cons, filter_nil, decide_False, app_nil_r; [by apply Hlast|].
        intros Heq. apply Hnin. rewrite Heq. by apply list_elem_of_fmap_2.
      * rewrite filter_app, filter_cons, filter_nil, decide_True by done.
        apply last_snoc.
Qed.

(** X16. Whatever areas are clicked, in whatever order, no two selected
    areas have the same name; an area is selected exactly when its name
    was clicked an odd number of times, and it is the area of the last
    click on that name.  What is submitted is the selection as it
    stands, and an empty selection is not submitted. *)
Theorem selection_after_clicks (clicks : list area) :
  let selected := selectedAfter clicks in
  NoDup (name <$> selected) ∧
  (∀ n, n ∈ (name <$> selected) ↔ Nat.odd (clicksOn n clicks) = true) ∧
  (∀ a, a ∈ selected → last (filter (λ a', name a' = name a) clicks) = Some a) ∧
  match handleSubmit selected with
  | LocationSet mode locations => mode = "multi" ∧ locations = selected ∧ selected ≠ []
  | SetError message => message = "Please select at least one area" ∧ selected = []
  end.
Proof.
  cbv zeta. destruct (selection_spec clicks) as (Hnodup & Hodd & Hlast).
  split_and!; [done|done|done|apply handleSubmit_spec].
Qed.

End LocationInputFacts.
